(** * dotsecrets: secret resolution, value wrappers and key normalisation

    A shallow embedding of the core of the dotsecrets library
    ([src/secretsProxy.ts], [src/secretsManager.ts], [src/index.ts],
    [src/utils/providers.ts], [src/plugins]) together with the
    properties that its specification states about it.

    Conventions of the embedding.
    - A JavaScript string is a [string]; its characters stand for the
      UTF-16 code units below 256, the Latin-1 range.  Case mapping is
      the one of [String.prototype.toLowerCase] and [toUpperCase] on
      that range; in an upper-cased string the micro sign and the y
      with diaeresis, whose capitals lie beyond the range, stand for
      their capitals.
    - A JavaScript number is an IEEE 754 binary64 value, [spec_float].
    - A promise is represented by the way it settles ([Resolved] or
      [Rejected]); a function that may throw returns a [Completion].
    - The process-wide singletons (the two caches of the manager, the
      active plugin, the preload flag) are the fields of one [World]
      that every operation threads through; an operation that may
      throw returns its completion and the world it leaves.
    - Calls of [ConsoleUtils.warn] are recorded in the world; the
      [debug], [error] and [success] output is not part of the model.
    - What the call of [config] made by the manager does in a process,
      the warnings it writes and the record it returns or the error it
      throws, is a field of the world; [config] itself is modelled
      over the files and the environment of the process. *)

From Stdlib Require Import ZArith String Ascii Bool Lia SpecFloat.
From stdpp Require Import base option list gmap strings.

Local Open Scope string_scope.

(** ** JavaScript values *)

Module JS.

(** Numbers: binary64. *)
Definition number : Type := spec_float.

Definition prec : Z := 53.
Definition emax : Z := 1024.

Definition NaN : number := S754_nan.
Definition zero : number := S754_zero false.

(** [a < b], [a > b], [a <= b], [a >= b] on numbers. *)
Definition lt (a b : number) : bool := SFltb a b.
Definition gt (a b : number) : bool := SFltb b a.
Definition le (a b : number) : bool := SFleb a b.
Definition ge (a b : number) : bool := SFleb b a.

(** The number of an integer (exact below 2^53). *)
Definition ofZ (z : Z) : number := binary_normalize prec emax z 0 false.
Definition ofNat (n : nat) : number := ofZ (Z.of_nat n).

(** [isNaN] and [Number.isNaN] coincide on numbers. *)
Definition isNaN (x : number) : bool :=
  match x with S754_nan => true | _ => false end.

(** [Number.isInteger]: finite, and no bit below the unit. *)
Definition isInteger (x : number) : bool :=
  match x with
  | S754_zero _ => true
  | S754_finite _ m e =>
      (0 <=? e)%Z || (Z.pos m mod 2 ^ (- e) =? 0)%Z
  | S754_infinity _ | S754_nan => false
  end.

(** Characters. *)
Definition code (c : ascii) : nat := nat_of_ascii c.

Definition between_codes (lo hi : nat) (c : ascii) : bool :=
  (lo <=? code c)%nat && (code c <=? hi)%nat.

Definition isUpper : ascii -> bool := between_codes 65 90.
Definition isLower : ascii -> bool := between_codes 97 122.
Definition isDigit : ascii -> bool := between_codes 48 57.
Definition isAlnum (c : ascii) : bool := isUpper c || isLower c || isDigit c.

(** The capital and the small letters of Latin-1 beyond ASCII: U+00C0
    to U+00DE without the multiplication sign, U+00E0 to U+00FE
    without the division sign. *)
Definition isLatinUpper (c : ascii) : bool :=
  between_codes 192 214 c || between_codes 216 222 c.
Definition isLatinLower (c : ascii) : bool :=
  between_codes 224 246 c || between_codes 248 254 c.

(** White space as [String.prototype.trim] and the class [\s] see it:
    TAB, LF, VT, FF, CR, SPACE and NBSP. *)
Definition isSpace (c : ascii) : bool :=
  between_codes 9 13 c || (code c =? 32)%nat || (code c =? 160)%nat.

(** Line terminators, which the class [.] does not match. *)
Definition isLineTerminator (c : ascii) : bool :=
  (code c =? 10)%nat || (code c =? 13)%nat.

(** The lower case of a character stays in the range. *)
Definition lowerChar (c : ascii) : ascii :=
  if isUpper c || isLatinUpper c then ascii_of_nat (code c + 32) else c.

(** The capital of a character that has one in the range.  Three
    characters have none there: the sharp s, whose upper case is the
    two letters [SS], and the micro sign and the y with diaeresis,
    whose capitals U+039C and U+0178 lie beyond the range.  The last
    two are left as they are and stand for their capitals in the
    result: the mapping is exact on the strings that hold neither, and
    no pattern of the library tells the two from their capitals. *)
Definition upperChar (c : ascii) : ascii :=
  if isLower c || isLatinLower c then ascii_of_nat (code c - 32) else c.

Definition sharpS : ascii := ascii_of_nat 223.

Definition upperString (c : ascii) : string :=
  if Ascii.eqb c sharpS then "SS" else String (upperChar c) EmptyString.

(** Strings. *)
Fixpoint mapString (f : ascii -> ascii) (s : string) : string :=
  match s with
  | EmptyString => EmptyString
  | String c r => String (f c) (mapString f r)
  end.

Fixpoint filterString (p : ascii -> bool) (s : string) : string :=
  match s with
  | EmptyString => EmptyString
  | String c r => if p c then String c (filterString p r) else filterString p r
  end.

Fixpoint allString (p : ascii -> bool) (s : string) : bool :=
  match s with
  | EmptyString => true
  | String c r => p c && allString p r
  end.

Definition toLowerCase : string -> string := mapString lowerChar.

Fixpoint toUpperCase (s : string) : string :=
  match s with
  | EmptyString => EmptyString
  | String c r => upperString c ++ toUpperCase r
  end.

(** Drop the longest prefix (suffix) of characters satisfying [p]. *)
Fixpoint dropWhileStart (p : ascii -> bool) (s : string) : string :=
  match s with
  | EmptyString => EmptyString
  | String c r => if p c then dropWhileStart p r else s
  end.

Fixpoint dropWhileEnd (p : ascii -> bool) (s : string) : string :=
  match s with
  | EmptyString => EmptyString
  | String c r =>
      match dropWhileEnd p r with
      | EmptyString => if p c then EmptyString else String c EmptyString
      | r' => String c r'
      end
  end.

Definition trim (s : string) : string :=
  dropWhileEnd isSpace (dropWhileStart isSpace s).

Definition startsWith (s pre : string) : bool := String.prefix pre s.

(** [s.slice(0, n)] *)
Fixpoint slice0 (n : nat) (s : string) : string :=
  match n, s with
  | O, _ => EmptyString
  | S n', String c r => String c (slice0 n' r)
  | S _, EmptyString => EmptyString
  end.

Definition isEmpty (s : string) : bool :=
  match s with EmptyString => true | _ => false end.

(** The value of a string of decimal digits, most significant first. *)
Fixpoint digitsValue (acc : Z) (s : string) : option Z :=
  match s with
  | EmptyString => Some acc
  | String c r =>
      if isDigit c then digitsValue (10 * acc + Z.of_nat (code c - 48)) r
      else None
  end.

(** The conversion [Number(s)] restricted to the strings of decimal
    digits, where it is the nearest binary64 number; it serves as a
    sample conversion and answers [NaN] elsewhere. *)
Definition decimalNumber (s : string) : number :=
  match s with
  | EmptyString => NaN
  | _ => match digitsValue 0 s with
         | Some z => ofZ z
         | None => NaN
         end
  end.

(** The property keys that are array indices: the canonical decimal
    form of an integer from 0 to 2^32 - 2.  An object lists these keys
    first, in ascending order, before its other keys. *)
Definition arrayIndex (key : string) : option Z :=
  match key with
  | EmptyString => None
  | String c r =>
      if Ascii.eqb c "0" then (if isEmpty r then Some 0%Z else None)
      else match digitsValue 0 key with
           | Some z => if (z <=? 4294967294)%Z then Some z else None
           | None => None
           end
  end.

(** The members that every object inherits from [Object.prototype], by
    the text that each becomes as a string: the source text of a
    built-in function, and [[object Object]] for the object that
    [__proto__] answers with. *)
Definition nativeFunction (name : string) : string :=
  "function " ++ name ++ "() { [native code] }".

Definition objectPrototype (name : string) : option string :=
  if String.eqb name "constructor" then Some (nativeFunction "Object")
  else if String.eqb name "__proto__" then Some "[object Object]"
  else if existsb (String.eqb name)
            ["hasOwnProperty"; "isPrototypeOf"; "propertyIsEnumerable";
             "toLocaleString"; "toString"; "valueOf";
             "__defineGetter__"; "__defineSetter__";
             "__lookupGetter__"; "__lookupSetter__"]
       then Some (nativeFunction name)
  else None.

(** A [RegExp] object: whether it carries the flag [g] or [y], its
    property [lastIndex], and what its pattern matches: [exec i s] is
    the index at which the match of [s] ends when the search starts at
    the index [i], if there is a match. *)
Record RegExp : Type := mkRegExp {
  stateful : bool;
  lastIndex : nat;
  exec : nat -> string -> option nat
}.

(** The pattern matches somewhere in [s]. *)
Definition matches (pattern : RegExp) (s : string) : bool :=
  match exec pattern 0 s with Some _ => true | None => false end.

(** [pattern.test(s)]: the answer, and the object as the call leaves
    it.  Without the flags the search starts at 0 and [lastIndex] is
    not touched; with one of them it starts at [lastIndex], which
    becomes the end of the match, or 0 when there is none. *)
Definition test (pattern : RegExp) (s : string) : bool * RegExp :=
  if stateful pattern then
    match (if (lastIndex pattern <=? String.length s)%nat
           then exec pattern (lastIndex pattern) s else None) with
    | Some e => (true, mkRegExp true e (exec pattern))
    | None => (false, mkRegExp true 0 (exec pattern))
    end
  else (matches pattern s, pattern).

(** A pattern without flags, by the strings that it matches. *)
Definition plain (accepts : string -> bool) : RegExp :=
  mkRegExp false 0 (fun _ s => if accepts s then Some 0%nat else None).

End JS.

(** ** Errors, completions and promises *)

(** The messages of the [Error] objects that the library throws.  A
    constructor stands for one message template, its arguments for the
    interpolated values. *)
Inductive Error : Type :=
  | RequiredNotAvailable        (* Secret is required but not available (or empty). *)
  | RequiredGotEmpty            (* Secret is required but got empty string. *)
  | StringIsEmpty               (* String is empty (notEmpty() check failed). *)
  | LengthOutOfRange (min max : JS.number)
  | CustomMessage (msg : string)
  | DoesNotMatchRegex
  | CannotConvertToNumber (s : string)
  | CannotConvertToBoolean (s : string)
  | NumberRequired              (* Number secret is required but got empty or null. *)
  | LessThanMin (v n : JS.number)
  | GreaterThanMax (v n : JS.number)
  | NumberOutOfRange (v min max : JS.number)
  | NotPositive (v : JS.number)
  | NotNegative (v : JS.number)
  | NotInteger (v : JS.number)
  | BooleanRequired             (* Boolean secret is required but not available. *)
  | NotTrue (v : bool)
  | NotFalse (v : bool)
  | SyncAccessWithoutPreload (secretName type : string)
  | CannotParseJson (s : string)
  | JsonRequired                (* JSON secret is required but not available. *)
  | TypeError (msg : string)
  | RangeError                  (* Invalid string length *)
  | DecryptionFailed            (* Failed to decrypt data, check your encryption key *)
  | ProviderFailure (msg : string).

(** The outcome of evaluating a call: it returns or it throws. *)
Inductive Completion (A : Type) : Type :=
  | Normal (a : A)
  | Throw (e : Error).
Arguments Normal {A} a.
Arguments Throw {A} e.

(** A promise, by the way it settles. *)
Inductive Promise (A : Type) : Type :=
  | Resolved (a : A)
  | Rejected (e : Error).
Arguments Resolved {A} a.
Arguments Rejected {A} e.

(** [p.then(f)]: a throw inside [f] rejects the new promise, a rejection
    of [p] skips [f]. *)
Definition then_ {A B : Type} (p : Promise A) (f : A -> Completion B) : Promise B :=
  match p with
  | Resolved a =>
      match f a with
      | Normal b => Resolved b
      | Throw e => Rejected e
      end
  | Rejected e => Rejected e
  end.

Definition throws {A : Type} (c : Completion A) : bool :=
  match c with Throw _ => true | Normal _ => false end.

Definition rejects {A : Type} (p : Promise A) : bool :=
  match p with Rejected _ => true | Resolved _ => false end.

(** ** The chainable value wrappers ([src/secretsProxy.ts]) *)

(** The three fields that every wrapper class holds. *)
Record Wrapper (T : Type) : Type := mkWrapper {
  secretName : string;
  syncValue : option T;
  asyncValue : Promise T
}.
Arguments mkWrapper {T} _ _ _.
Arguments secretName {T} _.
Arguments syncValue {T} _.
Arguments asyncValue {T} _.

(** [parseBoolean] *)
Definition parseBoolean (str : string) : option bool :=
  let lower := JS.toLowerCase str in
  if String.eqb lower "true" then Some true
  else if String.eqb lower "false" then Some false
  else None.

(** Sequencing of calls that may throw. *)
Definition bindC {A B : Type} (c : Completion A) (k : A -> Completion B) : Completion B :=
  match c with
  | Normal a => k a
  | Throw e => Throw e
  end.

Notation "x <- c ;; k" := (bindC c (fun x => k))
  (at level 100, c at next level, right associativity).
Notation "c ;;; k" := (bindC c (fun _ => k))
  (at level 100, right associativity).

(** [if (cond) throw new Error(e)] *)
Definition throwIf (cond : bool) (e : Error) : Completion unit :=
  if cond then Throw e else Normal tt.

(** [if (newSync !== undefined) { body(newSync) }] *)
Definition ifDefined {T : Type} (newSync : option T) (body : T -> Completion unit)
  : Completion unit :=
  match newSync with
  | Some v => body v
  | None => Normal tt
  end.

Module BooleanSecretValue.

Definition t : Type := Wrapper bool.

Definition await (this : t) : Promise bool := asyncValue this.

Definition required (this : t) : Completion t :=
  match syncValue this with
  | None => Throw BooleanRequired
  | Some v => Normal (mkWrapper (secretName this) (Some v) (asyncValue this))
  end.

(** The method [true()]. *)
Definition true_ (this : t) : Completion t :=
  let newSync := syncValue this in
  ifDefined newSync (fun v => throwIf (negb (Bool.eqb v true)) (NotTrue v)) ;;;
  let newAsync := then_ (asyncValue this) (fun val =>
    throwIf (negb (Bool.eqb val true)) (NotTrue val) ;;; Normal val) in
  Normal (mkWrapper (secretName this) newSync newAsync).

(** The method [false()]. *)
Definition false_ (this : t) : Completion t :=
  let newSync := syncValue this in
  ifDefined newSync (fun v => throwIf (negb (Bool.eqb v false)) (NotFalse v)) ;;;
  let newAsync := then_ (asyncValue this) (fun val =>
    throwIf (negb (Bool.eqb val false)) (NotFalse val) ;;; Normal val) in
  Normal (mkWrapper (secretName this) newSync newAsync).

Definition valueOf (this : t) : Completion bool :=
  match syncValue this with
  | None => Throw (SyncAccessWithoutPreload (secretName this) "boolean")
  | Some v => Normal v
  end.

End BooleanSecretValue.

Module NumberSecretValue.

Definition t : Type := Wrapper JS.number.

Definition await (this : t) : Promise JS.number := asyncValue this.

(** No synchronous check here; of the asynchronous test
    [val === undefined || val === null || Number.isNaN(val)] only the
    last disjunct can hold of a number. *)
Definition required (this : t) : Completion t :=
  let newAsync := then_ (asyncValue this) (fun val =>
    throwIf (JS.isNaN val) NumberRequired ;;; Normal val) in
  Normal (mkWrapper (secretName this) (syncValue this) newAsync).

Definition min (n : JS.number) (this : t) : Completion t :=
  let newSync := syncValue this in
  ifDefined newSync (fun v => throwIf (JS.lt v n) (LessThanMin v n)) ;;;
  let newAsync := then_ (asyncValue this) (fun val =>
    throwIf (JS.lt val n) (LessThanMin val n) ;;; Normal val) in
  Normal (mkWrapper (secretName this) newSync newAsync).

Definition max (n : JS.number) (this : t) : Completion t :=
  let newSync := syncValue this in
  ifDefined newSync (fun v => throwIf (JS.gt v n) (GreaterThanMax v n)) ;;;
  let newAsync := then_ (asyncValue this) (fun val =>
    throwIf (JS.gt val n) (GreaterThanMax val n) ;;; Normal val) in
  Normal (mkWrapper (secretName this) newSync newAsync).

Definition between (min max : JS.number) (this : t) : Completion t :=
  let newSync := syncValue this in
  ifDefined newSync (fun v =>
    throwIf (JS.lt v min || JS.gt v max) (NumberOutOfRange v min max)) ;;;
  let newAsync := then_ (asyncValue this) (fun val =>
    throwIf (JS.lt val min || JS.gt val max) (NumberOutOfRange val min max) ;;;
    Normal val) in
  Normal (mkWrapper (secretName this) newSync newAsync).

Definition positive (this : t) : Completion t :=
  let newSync := syncValue this in
  ifDefined newSync (fun v => throwIf (JS.le v JS.zero) (NotPositive v)) ;;;
  let newAsync := then_ (asyncValue this) (fun val =>
    throwIf (JS.le val JS.zero) (NotPositive val) ;;; Normal val) in
  Normal (mkWrapper (secretName this) newSync newAsync).

Definition negative (this : t) : Completion t :=
  let newSync := syncValue this in
  ifDefined newSync (fun v => throwIf (JS.ge v JS.zero) (NotNegative v)) ;;;
  let newAsync := then_ (asyncValue this) (fun val =>
    throwIf (JS.ge val JS.zero) (NotNegative val) ;;; Normal val) in
  Normal (mkWrapper (secretName this) newSync newAsync).

Definition integer (this : t) : Completion t :=
  let newSync := syncValue this in
  ifDefined newSync (fun v => throwIf (negb (JS.isInteger v)) (NotInteger v)) ;;;
  let newAsync := then_ (asyncValue this) (fun val =>
    throwIf (negb (JS.isInteger val)) (NotInteger val) ;;; Normal val) in
  Normal (mkWrapper (secretName this) newSync newAsync).

Definition valueOf (this : t) : Completion JS.number :=
  match syncValue this with
  | None => Throw (SyncAccessWithoutPreload (secretName this) "number")
  | Some v => Normal v
  end.

End NumberSecretValue.

Module JsonSecretValue.

Section Json.

(** The type of the parsed values. *)
Variable T : Type.

Definition t : Type := Wrapper T.

Definition await (this : t) : Promise T := asyncValue this.

Definition required (this : t) : Completion t :=
  match syncValue this with
  | None => Throw JsonRequired
  | Some v => Normal (mkWrapper (secretName this) (Some v) (asyncValue this))
  end.

Definition valueOf (this : t) : Completion T :=
  match syncValue this with
  | None => Throw (SyncAccessWithoutPreload (secretName this) "JSON")
  | Some v => Normal v
  end.

End Json.

End JsonSecretValue.

Module SecretValue.

Definition t : Type := Wrapper string.

(** [await w] goes through [then], which forwards to [asyncValue]. *)
Definition await (this : t) : Promise string := asyncValue this.

Definition required (this : t) : Completion t :=
  let newSync := syncValue this in
  ifDefined newSync (fun v => throwIf (JS.isEmpty v) RequiredNotAvailable) ;;;
  let newAsync := then_ (asyncValue this) (fun val =>
    throwIf (JS.isEmpty val) RequiredGotEmpty ;;; Normal val) in
  Normal (mkWrapper (secretName this) newSync newAsync).

Definition notEmpty (this : t) : Completion t :=
  let newSync := syncValue this in
  ifDefined newSync (fun v =>
    throwIf (String.length v =? 0)%nat StringIsEmpty) ;;;
  let newAsync := then_ (asyncValue this) (fun val =>
    throwIf (String.length val =? 0)%nat StringIsEmpty ;;; Normal val) in
  Normal (mkWrapper (secretName this) newSync newAsync).

Definition trim (this : t) : Completion t :=
  let newSync := option_map JS.trim (syncValue this) in
  let newAsync := then_ (asyncValue this) (fun val => Normal (JS.trim val)) in
  Normal (mkWrapper (secretName this) newSync newAsync).

Definition lengthOutside (min max : JS.number) (s : string) : bool :=
  JS.lt (JS.ofNat (String.length s)) min || JS.gt (JS.ofNat (String.length s)) max.

Definition lengthBetween (min max : JS.number) (this : t) : Completion t :=
  let newSync := syncValue this in
  ifDefined newSync (fun v =>
    throwIf (lengthOutside min max v) (LengthOutOfRange min max)) ;;;
  let newAsync := then_ (asyncValue this) (fun val =>
    throwIf (lengthOutside min max val) (LengthOutOfRange min max) ;;;
    Normal val) in
  Normal (mkWrapper (secretName this) newSync newAsync).

(** [msg || default] *)
Definition regexError (msg : option string) : Error :=
  match msg with
  | Some m => if JS.isEmpty m then DoesNotMatchRegex else CustomMessage m
  | None => DoesNotMatchRegex
  end.

(** The synchronous test of [regex], which leaves the pattern object
    as [test] left it. *)
Definition regexSync (pattern : JS.RegExp) (msg : option string)
    (newSync : option string) : Completion JS.RegExp :=
  match newSync with
  | Some v =>
      let (ok, pattern') := JS.test pattern v in
      throwIf (negb ok) (regexError msg) ;;; Normal pattern'
  | None => Normal pattern
  end.

(** Both tests are calls of [test] on the one object [pattern].  The
    callback of [then] runs after [regex] has returned: on the object
    as the synchronous test left it, when nothing else uses the
    pattern in between. *)
Definition regex (pattern : JS.RegExp) (msg : option string) (this : t)
  : Completion t :=
  let newSync := syncValue this in
  pattern' <- regexSync pattern msg newSync ;;
  let newAsync := then_ (asyncValue this) (fun val =>
    throwIf (negb (fst (JS.test pattern' val))) (regexError msg) ;;; Normal val) in
  Normal (mkWrapper (secretName this) newSync newAsync).

Definition toLowerCase (this : t) : Completion t :=
  let newSync := option_map JS.toLowerCase (syncValue this) in
  let newAsync := then_ (asyncValue this) (fun val => Normal (JS.toLowerCase val)) in
  Normal (mkWrapper (secretName this) newSync newAsync).

Definition toUpperCase (this : t) : Completion t :=
  let newSync := option_map JS.toUpperCase (syncValue this) in
  let newAsync := then_ (asyncValue this) (fun val => Normal (JS.toUpperCase val)) in
  Normal (mkWrapper (secretName this) newSync newAsync).

Section Conversions.

(** The built-in conversion [Number(s)] of a string to a number. *)
Variable Number : string -> JS.number.

Definition number (this : t) : Completion NumberSecretValue.t :=
  newSync <- match syncValue this with
             | Some s =>
                 let parsed := Number s in
                 throwIf (JS.isNaN parsed) (CannotConvertToNumber s) ;;;
                 Normal (Some parsed)
             | None => Normal None
             end ;;
  let newAsync := then_ (asyncValue this) (fun val =>
    let parsed := Number val in
    throwIf (JS.isNaN parsed) (CannotConvertToNumber val) ;;; Normal parsed) in
  Normal (mkWrapper (secretName this) newSync newAsync).

End Conversions.

Section Json.

(** The parsed values, and [JSON.parse]: [None] when it throws. *)
Variable T : Type.
Variable parse : string -> option T.

Definition json (this : t) : Completion (JsonSecretValue.t T) :=
  newSync <- match syncValue this with
             | Some s =>
                 match parse s with
                 | None => Throw (CannotParseJson s)
                 | Some v => Normal (Some v)
                 end
             | None => Normal None
             end ;;
  let newAsync := then_ (asyncValue this) (fun val =>
    match parse val with
    | None => Throw (CannotParseJson val)
    | Some v => Normal v
    end) in
  Normal (mkWrapper (secretName this) newSync newAsync).

End Json.

Definition boolean (this : t) : Completion BooleanSecretValue.t :=
  newSync <- match syncValue this with
             | Some s =>
                 match parseBoolean s with
                 | None => Throw (CannotConvertToBoolean s)
                 | Some b => Normal (Some b)
                 end
             | None => Normal None
             end ;;
  let newAsync := then_ (asyncValue this) (fun val =>
    match parseBoolean val with
    | None => Throw (CannotConvertToBoolean val)
    | Some b => Normal b
    end) in
  Normal (mkWrapper (secretName this) newSync newAsync).

Definition valueOf (this : t) : Completion string :=
  match syncValue this with
  | None => Throw (SyncAccessWithoutPreload (secretName this) EmptyString)
  | Some v => Normal v
  end.

Definition toString (this : t) : Completion string := valueOf this.

(** The method [[Symbol.toPrimitive]]. *)
Definition toPrimitive (this : t) : Completion string := valueOf this.

End SecretValue.

(** ** Provider key formats ([src/utils/providers.ts]) *)

Module Providers.

Inductive Provider : Type :=
  | azure | bytehide | aws | gcp | ibm | doppler
  | cyberark | akeyless | hashicorp | keeper | onepassword | env.

(** [providerMap[pluginName]]; [None] is the [undefined] of a display
    name that the table does not list. *)
Definition providerMap (pluginName : string) : option Provider :=
  if String.eqb pluginName "AWS Secrets Manager" then Some aws
  else if String.eqb pluginName "ByteHide Secrets" then Some bytehide
  else if String.eqb pluginName "Azure Key Vault" then Some azure
  else if String.eqb pluginName "Local Secrets" then Some env
  else if String.eqb pluginName "HashiCorp Vault" then Some hashicorp
  else if String.eqb pluginName "1Password" then Some onepassword
  else if String.eqb pluginName "Google Cloud Secret Manager" then Some gcp
  else if String.eqb pluginName "IBM Secrets Manager" then Some ibm
  else if String.eqb pluginName "Keeper Secrets Manager" then Some keeper
  else if String.eqb pluginName "Doppler Secrets Manager" then Some doppler
  else None.

(** Character classes of the patterns. *)
Definition isChar (ch : string) (c : ascii) : bool :=
  match ch with
  | String d EmptyString => Ascii.eqb c d
  | _ => false
  end.

Definition alnumHyphen (c : ascii) : bool := JS.isAlnum c || isChar "-" c.
Definition awsChar (c : ascii) : bool :=
  JS.isAlnum c || isChar "_" c || isChar "+" c || isChar "=" c || isChar "." c || isChar "@" c || isChar "-" c.
Definition gcpChar (c : ascii) : bool := JS.isAlnum c || isChar "_" c || isChar "-" c.
Definition ibmChar (c : ascii) : bool :=
  JS.isAlnum c || isChar "_" c || isChar "." c || isChar "-" c.
Definition upperDigitUnderscore (c : ascii) : bool :=
  JS.isUpper c || JS.isDigit c || isChar "_" c.
Definition hashicorpChar (c : ascii) : bool :=
  JS.isAlnum c || isChar "-" c || isChar "/" c.
Definition envStart (c : ascii) : bool := JS.isUpper c || JS.isLower c || isChar "_" c.
Definition envChar (c : ascii) : bool := JS.isAlnum c || isChar "_" c.

Fixpoint lastChar (s : string) : option ascii :=
  match s with
  | EmptyString => None
  | String c EmptyString => Some c
  | String _ r => lastChar r
  end.

Definition endsIn (p : ascii -> bool) (s : string) : bool :=
  match lastChar s with
  | Some c => p c
  | None => false
  end.

Definition startsIn (p : ascii -> bool) (s : string) : bool :=
  match s with
  | String c _ => p c
  | EmptyString => false
  end.

Definition lengthIn (lo hi : nat) (s : string) : bool :=
  (lo <=? String.length s)%nat && (String.length s <=? hi)%nat.

(** [/^.+$/]: at least one character, none of them a line terminator. *)
Definition anyLine (s : string) : bool :=
  negb (JS.isEmpty s) && JS.allString (fun c => negb (JS.isLineTerminator c)) s.

(** [validators[provider].test(name)], pattern by pattern. *)
Definition validateSecretName (provider : Provider) (name : string) : bool :=
  match provider with
  | azure | bytehide =>
      (* /^[0-9A-Za-z]([0-9A-Za-z-]{0,125}[0-9A-Za-z])?$/ *)
      match name with
      | EmptyString => false
      | String c r =>
          JS.isAlnum c &&
          (JS.isEmpty r ||
           (lengthIn 1 126 r && JS.allString alnumHyphen r && endsIn JS.isAlnum r))
      end
  | aws =>
      (* /^([A-Za-z0-9_+=.@-]){1,512}$/ *)
      lengthIn 1 512 name && JS.allString awsChar name
  | gcp =>
      (* /^[A-Za-z0-9_-]{1,255}$/ *)
      lengthIn 1 255 name && JS.allString gcpChar name
  | ibm =>
      (* /^[A-Za-z0-9][A-Za-z0-9_.-]{0,254}[A-Za-z0-9]$/ *)
      match name with
      | EmptyString => false
      | String c r =>
          JS.isAlnum c && lengthIn 1 255 r && JS.allString ibmChar r
          && endsIn JS.isAlnum r
      end
  | doppler =>
      (* /^[A-Z][A-Z0-9_]*$/ *)
      match name with
      | EmptyString => false
      | String c r => JS.isUpper c && JS.allString upperDigitUnderscore r
      end
  | cyberark =>
      (* /^[A-Za-z0-9]{1,28}$/ *)
      lengthIn 1 28 name && JS.allString JS.isAlnum name
  | akeyless | keeper | onepassword =>
      (* /^.+$/ *)
      anyLine name
  | hashicorp =>
      (* /^[A-Za-z0-9][A-Za-z0-9\-\/]*[A-Za-z0-9]$/ *)
      match name with
      | EmptyString => false
      | String c r =>
          JS.isAlnum c && JS.allString hashicorpChar r && endsIn JS.isAlnum r
      end
  | env =>
      (* /^[A-Za-z_][A-Za-z0-9_]*$/ *)
      match name with
      | EmptyString => false
      | String c r => envStart c && JS.allString envChar r
      end
  end.

(** [s.replace(/[^class]/g, empty)] keeps the characters of the class. *)
Definition keepOnly (class : ascii -> bool) (s : string) : string :=
  JS.filterString class s.

(** [s.replace(/[^class]/g, by)] *)
Definition replaceOutside (class : ascii -> bool) (by_ : ascii) (s : string) : string :=
  JS.mapString (fun c => if class c then c else by_) s.

(** [s.replace(/c/g, by)] for a single character. *)
Definition replaceChar (ch : string) (by_ : ascii) (s : string) : string :=
  JS.mapString (fun c => if isChar ch c then by_ else c) s.

(** [s.replace(/[class]+/g, by)]: every maximal run of characters of the
    class becomes one [by]; [inRun] tells that the previous character
    belonged to the run being replaced. *)
Fixpoint replaceRunsFrom (class : ascii -> bool) (by_ : ascii) (inRun : bool)
    (s : string) : string :=
  match s with
  | EmptyString => EmptyString
  | String c r =>
      if class c then
        if inRun then replaceRunsFrom class by_ true r
        else String by_ (replaceRunsFrom class by_ true r)
      else String c (replaceRunsFrom class by_ false r)
  end.

Definition replaceRuns (class : ascii -> bool) (by_ : ascii) (s : string) : string :=
  replaceRunsFrom class by_ false s.

(** [s.replace(/^[class]+|[class]+$/g, empty)] *)
Definition stripEnds (class : ascii -> bool) (s : string) : string :=
  JS.dropWhileEnd class (JS.dropWhileStart class s).

Fixpoint dropLastIf (p : ascii -> bool) (s : string) : string :=
  match s with
  | EmptyString => EmptyString
  | String c EmptyString => if p c then EmptyString else s
  | String c r => String c (dropLastIf p r)
  end.

(** [s.replace(/(^[^A-Z]|[^A-Z0-9_]$)+/g, empty)].  Without the [m] flag
    [^] holds at index 0 only and [$] at the end only, so the first
    alternative can consume one character, the first, and the second
    one character, the last: the first character goes when it is not
    in [A-Z], the last when it is not in [A-Z0-9_]. *)
Definition dopplerStrip (s : string) : string :=
  match s with
  | EmptyString => EmptyString
  | String c r =>
      let r' := dropLastIf (fun d => negb (upperDigitUnderscore d)) r in
      if JS.isUpper c then String c r' else r'
  end.

Definition spaceOrUnderscore (c : ascii) : bool := isChar "_" c || JS.isSpace c.
Definition lowerDigitHyphen (c : ascii) : bool :=
  JS.isLower c || JS.isDigit c || isChar "-" c.
Definition ibmLowerChar (c : ascii) : bool :=
  JS.isLower c || JS.isDigit c || isChar "_" c || isChar "." c || isChar "-" c.
Definition ibmEdge (c : ascii) : bool := isChar "-" c || isChar "." c || isChar "_" c.
Definition hashicorpLowerChar (c : ascii) : bool :=
  JS.isLower c || JS.isDigit c || isChar "-" c || isChar "/" c.
Definition hashicorpEdge (c : ascii) : bool := isChar "-" c || isChar "/" c.

Definition hyphen : ascii := "-"%char.
Definition underscore : ascii := "_"%char.

(** The case shared by [azure] and [bytehide]: snake case or spaces to
    kebab case, the characters not allowed removed, repeated hyphens
    collapsed, the hyphens at the ends removed. *)
Definition kebab (base : string) : string :=
  stripEnds (isChar "-")
    (replaceRuns (isChar "-") hyphen
       (keepOnly lowerDigitHyphen
          (replaceRuns spaceOrUnderscore hyphen (JS.toLowerCase base)))).

Definition normalizeSecretName (provider : Provider) (key : string) : string :=
  let base := JS.trim key in
  match provider with
  | env => JS.toUpperCase base
  | doppler =>
      dopplerStrip (replaceOutside upperDigitUnderscore underscore (JS.toUpperCase base))
  | aws =>
      replaceChar "-" underscore (keepOnly awsChar (JS.toLowerCase base))
  | gcp => JS.slice0 255 (keepOnly gcpChar base)
  | azure | bytehide => kebab base
  | ibm => stripEnds ibmEdge (keepOnly ibmLowerChar (JS.toLowerCase base))
  | hashicorp =>
      stripEnds hashicorpEdge (keepOnly hashicorpLowerChar (JS.toLowerCase base))
  | akeyless => keepOnly hashicorpChar base
  | cyberark => JS.slice0 28 (keepOnly JS.isAlnum base)
  | keeper | onepassword => base
  end.

End Providers.

(** ** Variable expansion ([src/secretsManager.ts]) *)

Module Config.

(** A [Record<string, string>]: its own properties, with the keys in
    the order of [Object.keys]. *)
Definition Record_ : Type := list (string * string).

(** The own property [name] of [vars]. *)
Fixpoint get (vars : Record_) (name : string) : option string :=
  match vars with
  | [] => None
  | (k, v) :: rest => if String.eqb k name then Some v else get rest name
  end.

(** The new value of an own property; the key keeps its place. *)
Fixpoint replace (vars : Record_) (key value : string) : Record_ :=
  match vars with
  | [] => []
  | (k, v) :: rest =>
      if String.eqb k key then (k, value) :: rest
      else (k, v) :: replace rest key value
  end.

(** The place of a new key that is the array index [i]: before the
    first key that is no array index, or a greater one. *)
Fixpoint insertIndex (i : Z) (key value : string) (vars : Record_) : Record_ :=
  match vars with
  | [] => [(key, value)]
  | (k, v) :: rest =>
      match JS.arrayIndex k with
      | Some j =>
          if (j <? i)%Z then (k, v) :: insertIndex i key value rest
          else (key, value) :: vars
      | None => (key, value) :: vars
      end
  end.

(** A new own property: an array index goes to its place among the
    array indices, any other key goes last. *)
Definition add (vars : Record_) (key value : string) : Record_ :=
  match JS.arrayIndex key with
  | Some i => insertIndex i key value vars
  | None => (vars ++ [(key, value)])%list
  end.

(** [vars[key] = value].  An own property takes the value.  Otherwise
    the key [__proto__] reaches the setter that the object inherits,
    which ignores a string, and every other key becomes a new own
    property. *)
Definition set (vars : Record_) (key value : string) : Record_ :=
  match get vars key with
  | Some _ => replace vars key value
  | None => if String.eqb key "__proto__" then vars else add vars key value
  end.

Definition keys (vars : Record_) : list string := map fst vars.

(** The callback of the replacement:
    [vars[varName] !== undefined ? vars[varName] : empty], as the string
    that [replace] makes of it.  The look-up finds the own property, or
    else the member of that name that the object inherits. *)
Definition valueOrEmpty (vars : Record_) (varName : string) : string :=
  match get vars varName with
  | Some v => v
  | None =>
      match JS.objectPrototype varName with
      | Some text => text
      | None => EmptyString
      end
  end.

(** Where a left-to-right scan for [/\$\{([^}]+)\}/g] stands: outside
    of a match, after a [$], or inside the braces with the characters
    of the name read so far. *)
Inductive Scan : Type :=
  | Outside
  | AfterDollar
  | InName (name : string).

Definition dollar : ascii := "$"%char.
Definition openBrace : ascii := "{"%char.
Definition closeBrace : ascii := "}"%char.

(** [value.replace(/\$\{([^}]+)\}/g, (_, varName) => f varName)].
    A [${] that no [}] closes, and [${}], match nothing and stay. *)
Fixpoint replaceFrom (f : string -> string) (st : Scan) (s : string) : string :=
  match s with
  | EmptyString =>
      match st with
      | Outside => EmptyString
      | AfterDollar => "$"
      | InName name => "${" ++ name
      end
  | String c r =>
      match st with
      | Outside =>
          if Ascii.eqb c dollar then replaceFrom f AfterDollar r
          else String c (replaceFrom f Outside r)
      | AfterDollar =>
          if Ascii.eqb c openBrace then replaceFrom f (InName EmptyString) r
          else if Ascii.eqb c dollar then String dollar (replaceFrom f AfterDollar r)
          else String dollar (String c (replaceFrom f Outside r))
      | InName name =>
          if Ascii.eqb c closeBrace then
            if JS.isEmpty name then "${}" ++ replaceFrom f Outside r
            else f name ++ replaceFrom f Outside r
          else replaceFrom f (InName (name ++ String c EmptyString)) r
      end
  end.

Definition replaceReferences (vars : Record_) (value : string) : string :=
  replaceFrom (valueOrEmpty vars) Outside value.

Section Expansion.

(** The greatest length of a string in the engine; [replace] throws a
    [RangeError] when its result would be longer. *)
Variable maxLength : nat.

(** The body of the [for] loop over [Object.keys(vars)]; the result
    carries the variable [changed]. *)
Fixpoint sweep (ks : list string) (vars : Record_) (changed : bool)
  : Completion (Record_ * bool) :=
  match ks with
  | [] => Normal (vars, changed)
  | key :: rest =>
      match get vars key with
      | None => sweep rest vars changed
      | Some originalValue =>
          let newValue := replaceReferences vars originalValue in
          if (maxLength <? String.length newValue)%nat then Throw RangeError
          else if String.eqb newValue originalValue then sweep rest vars changed
          else sweep rest (set vars key newValue) true
      end
  end.

(** [expandVariables]: the [while (changed)] loop, with one unit of
    fuel per iteration; [None] when the fuel does not suffice. *)
Fixpoint expandVariables (fuel : nat) (vars : Record_) : option (Completion Record_) :=
  match fuel with
  | O => None
  | S fuel' =>
      match sweep (keys vars) vars false with
      | Throw e => Some (Throw e)
      | Normal (vars', changed) =>
          if changed then expandVariables fuel' vars' else Some (Normal vars')
      end
  end.

End Expansion.

End Config.

(** ** Loading the configuration files ([src/secretsManager.ts]) *)

Module ConfigFiles.

(** [s.split(sep)] for a separator of one character: the pieces between
    the separators, at least one. *)
Fixpoint splitOn (sep : ascii) (s : string) : list string :=
  match s with
  | EmptyString => [EmptyString]
  | String c r =>
      if Ascii.eqb c sep then EmptyString :: splitOn sep r
      else match splitOn sep r with
           | [] => [String c EmptyString]
           | piece :: pieces => String c piece :: pieces
           end
  end.

Definition newline : ascii := ascii_of_nat 10.
Definition equals : ascii := "="%char.

(** [i = s.indexOf(sep)] with [s.substring(0, i)] and
    [s.substring(i + 1)]; [None] when the index is [-1]. *)
Fixpoint splitAtFirst (sep : ascii) (s : string) : option (string * string) :=
  match s with
  | EmptyString => None
  | String c r =>
      if Ascii.eqb c sep then Some (EmptyString, r)
      else match splitAtFirst sep r with
           | Some (before, after) => Some (String c before, after)
           | None => None
           end
  end.

(** What the body of the loop over the lines makes of one line: nothing
    for a blank line, a comment or a line without [=], otherwise the
    trimmed key and value. *)
Definition parseLine (line : string) : option (string * string) :=
  let trimmed := JS.trim line in
  if JS.isEmpty trimmed || JS.startsWith trimmed "#" then None
  else match splitAtFirst equals trimmed with
       | None => None
       | Some (key, val) => Some (JS.trim key, JS.trim val)
       end.

(** [process.env[key] !== undefined]: the variable is set, or the name
    is one that the object [process.env] inherits. *)
Definition defined (processEnv : gmap string string) (key : string) : bool :=
  bool_decide (is_Some (processEnv !! key))
  || match JS.objectPrototype key with Some _ => true | None => false end.

(** The loop over the lines, with the record [result] and [process.env]
    as its state.  [process.env] is a map from names to values; what
    the platform makes of a write under the empty name is not
    modelled, and the properties below speak of named keys. *)
Fixpoint loadLines (override : bool) (lines : list string)
    (result : Config.Record_) (processEnv : gmap string string)
  : Config.Record_ * gmap string string :=
  match lines with
  | [] => (result, processEnv)
  | line :: rest =>
      match parseLine line with
      | None => loadLines override rest result processEnv
      | Some (key, val) =>
          if negb override && defined processEnv key
          then loadLines override rest result processEnv
          else loadLines override rest (Config.set result key val)
                 (<[key := val]> processEnv)
      end
  end.

(** [loadEnvFile]; [file] is the content of the file, [None] when the
    file does not exist. *)
Definition loadEnvFile (file : option string) (override : bool)
    (processEnv : gmap string string) : Config.Record_ * gmap string string :=
  match file with
  | None => ([], processEnv)
  | Some raw => loadLines override (splitOn newline raw) [] processEnv
  end.

(** [{ ...a, ...b }], and [Object.assign(a, b)]. *)
Definition spread (a b : Config.Record_) : Config.Record_ :=
  fold_left (fun acc entry => Config.set acc (fst entry) (snd entry)) b a.

(** The options that [config] uses once [loadOptions] has merged
    them. *)
Record Options : Type := mkOptions {
  path : string;
  envPath : string;
  environment : string;
  override : bool;
  expand : bool;
  encryptionKey : string
}.

(** What a call of [config] shows of itself: the messages that it
    passes to [ConsoleUtils.warn], and the record that it returns or the
    error that it throws. *)
Record Run : Type := mkRun {
  written : list string;
  outcome : Completion Config.Record_
}.

Section Config.

(** [decryptData], which throws when the data or the key is wrong; the
    files of the working directory, by name: the text that
    [readFileSync] returns for a file that [existsSync] finds (a file
    that exists and whose read throws is outside the model);
    [path.resolve]; the greatest length of a string. *)
Variable decryptData : string -> string -> Completion string.
Variable files : string -> option string.
Variable resolve : string -> string.
Variable maxLength : nat.

(** [expandVariables] with its writes to [process.env]. *)
Fixpoint sweepEnv (ks : list string) (vars : Config.Record_)
    (processEnv : gmap string string) (changed : bool)
  : Completion (Config.Record_ * bool) * gmap string string :=
  match ks with
  | [] => (Normal (vars, changed), processEnv)
  | key :: rest =>
      match Config.get vars key with
      | None => sweepEnv rest vars processEnv changed
      | Some originalValue =>
          let newValue := Config.replaceReferences vars originalValue in
          if (maxLength <? String.length newValue)%nat then (Throw RangeError, processEnv)
          else if String.eqb newValue originalValue
          then sweepEnv rest vars processEnv changed
          else sweepEnv rest (Config.set vars key newValue)
                 (<[key := newValue]> processEnv) true
      end
  end.

Fixpoint expandVariablesEnv (fuel : nat) (vars : Config.Record_)
    (processEnv : gmap string string)
  : option (Completion Config.Record_ * gmap string string) :=
  match fuel with
  | O => None
  | S fuel' =>
      match sweepEnv (Config.keys vars) vars processEnv false with
      | (Throw e, processEnv') => Some (Throw e, processEnv')
      | (Normal (vars', changed), processEnv') =>
          if changed then expandVariablesEnv fuel' vars' processEnv'
          else Some (Normal vars', processEnv')
      end
  end.

(** The text of a [.secrets] file as the loop reads it: decrypted when
    a key is given. *)
Definition readSecrets (raw encryptionKey : string) : Completion string :=
  if JS.isEmpty encryptionKey then Normal raw else decryptData raw encryptionKey.

(** [loadSecretsFile] *)
Definition loadSecretsFile (fileName : string) (override : bool)
    (encryptionKey : string) (processEnv : gmap string string)
  : Completion Config.Record_ * gmap string string :=
  match files fileName with
  | None => (Normal [], processEnv)
  | Some raw =>
      match readSecrets raw encryptionKey with
      | Throw e => (Throw e, processEnv)
      | Normal raw' =>
          let (result, processEnv') :=
            loadLines override (splitOn newline raw') [] processEnv in
          (Normal result, processEnv')
      end
  end.

Definition publicFiles : list string := [".public"; ".secrets.public"; ".env.public"].

(** The loop of [config] over the public files. *)
Fixpoint loadPublicFiles (names : list string) (options : Options)
    (finalResult : Config.Record_) (processEnv : gmap string string)
  : Completion Config.Record_ * gmap string string :=
  match names with
  | [] => (Normal finalResult, processEnv)
  | pFile :: rest =>
      match files pFile with
      | None => loadPublicFiles rest options finalResult processEnv
      | Some _ =>
          match loadSecretsFile pFile (override options) (encryptionKey options)
                  processEnv with
          | (Throw e, processEnv') => (Throw e, processEnv')
          | (Normal publicResult, processEnv') =>
              loadPublicFiles rest options (spread finalResult publicResult) processEnv'
          end
      end
  end.

Definition suffixed (name : string) (options : Options) : string :=
  name ++ "." ++ environment options.

(** [config], from the merged options: what it returns or throws, and
    [process.env] as it leaves it; [None] when the fuel of the expansion
    does not suffice.  The set-up of the file watchers is outside the
    model. *)
Definition config (fuel : nat) (options : Options) (processEnv : gmap string string)
  : option (Completion Config.Record_ * gmap string string) :=
  let '(envBase, env1) :=
    loadEnvFile (files (envPath options)) (override options) processEnv in
  let '(envEnvironment, env2) :=
    if JS.isEmpty (environment options) then ([], env1)
    else loadEnvFile (files (suffixed (envPath options) options)) (override options) env1 in
  match loadSecretsFile (path options) (override options) (encryptionKey options) env2 with
  | (Throw e, env3) => Some (Throw e, env3)
  | (Normal secretsBase, env3) =>
      match (if JS.isEmpty (environment options) then (Normal [], env3)
             else loadSecretsFile (suffixed (path options) options) (override options)
                    (encryptionKey options) env3) with
      | (Throw e, env4) => Some (Throw e, env4)
      | (Normal secretsEnvironment, env4) =>
          let finalResult :=
            spread (spread (spread (spread [] envBase) envEnvironment) secretsBase)
              secretsEnvironment in
          match loadPublicFiles publicFiles options finalResult env4 with
          | (Throw e, env5) => Some (Throw e, env5)
          | (Normal finalResult, env5) =>
              if expand options then expandVariablesEnv fuel finalResult env5
              else Some (Normal finalResult, env5)
          end
      end
  end.

(** The warning of a loader that does not find its file. *)
Definition notFound (kind fileName : string) : list string :=
  match files fileName with
  | None => [kind ++ " file not found: " ++ resolve fileName]
  | Some _ => []
  end.

(** The decryption of the file fails. *)
Definition undecryptable (fileName encryptionKey : string) : bool :=
  match files fileName with
  | None => false
  | Some raw => throws (readSecrets raw encryptionKey)
  end.

(** The messages that [config] passes to [ConsoleUtils.warn], in the
    order of the calls: one for each [.env] and [.secrets] file that it
    looks for and does not find.  The public files are read only when
    they exist. *)
Definition configWarnings (options : Options) : list string :=
  (notFound ".env" (envPath options)
   ++ (if JS.isEmpty (environment options) then []
       else notFound ".env" (suffixed (envPath options) options))
   ++ notFound ".secrets" (path options)
   ++ (if JS.isEmpty (environment options)
          || undecryptable (path options) (encryptionKey options) then []
       else notFound ".secrets" (suffixed (path options) options)))%list.

(** One call of [config] in the process. *)
Definition run (fuel : nat) (options : Options) (processEnv : gmap string string)
  : option (Run * gmap string string) :=
  match config fuel options processEnv with
  | None => None
  | Some (result, processEnv') => Some (mkRun (configWarnings options) result, processEnv')
  end.

End Config.

End ConfigFiles.

(** ** Provider plugins ([src/plugins]) *)

Module Plugin.

(** [ISecretsPlugin].  A call of [getSecret] yields the warnings that
    the plugin writes to the console and the promise it returns;
    [getSecretSync] is optional. *)
Record ISecretsPlugin : Type := mkPlugin {
  pluginName : string;
  getSecret : string -> list string * Promise (option string);
  getSecretSync : option (string -> option string)
}.

(** [EnvSecretsPlugin]: the default plugin reads [process.env], and
    answers with a string or [undefined], as its methods declare.  For
    a name that the object inherits and no variable sets, the value at
    run time is the inherited member, which is outside the declared
    type; the model answers as for any other unset variable. *)
Definition EnvSecretsPlugin (processEnv : gmap string string) : ISecretsPlugin :=
  mkPlugin "Local Secrets"
    (fun secretKey => ([], Resolved (processEnv !! secretKey)))
    (Some (fun secretKey => processEnv !! secretKey)).

Definition formatWarning (pluginName key providerSecret : string) : string :=
  pluginName ++ " doesn't accept the current secret format '" ++ key
    ++ "', secret key was modified to: '" ++ providerSecret ++ "'".

(** [BaseSecretsPlugin.parseSecretName] for a plugin of a listed
    provider: the key to use and the warnings written. *)
Definition parseSecretName (pluginName : string) (provider : Providers.Provider)
    (rawKey : string) : string * list string :=
  if Providers.validateSecretName provider rawKey then (rawKey, [])
  else
    let providerSecret := Providers.normalizeSecretName provider rawKey in
    (providerSecret, [formatWarning pluginName rawKey providerSecret]).

(** [AwsSecretsManagerPlugin]: [initialized] is the promise of the
    client set-up, [client] the SDK client when the set-up made one;
    [send] stands for [client.send(new GetSecretValueCommand(..))]
    followed by the read of [SecretString]. *)
Section Aws.

Variable initialized : Promise unit.
Variable client : option (string -> Promise (option string)).

Definition awsName : string := "AWS Secrets Manager".

Definition quote : string := String (ascii_of_nat 34) EmptyString.

(** The warning of the [catch] block, up to the text of the error that
    it appends. *)
Definition notFoundWarning (key : string) : string :=
  "Secret " ++ quote ++ key ++ quote ++ " not found or error retrieving".

Definition awsGetSecret (key : string) : list string * Promise (option string) :=
  match initialized with
  | Rejected e => ([], Rejected e)
  | Resolved _ =>
      match client with
      | None => ([], Resolved None)
      | Some send =>
          let (key', msgs) := parseSecretName awsName Providers.aws key in
          match send key' with
          | Resolved response => (msgs, Resolved response)
          | Rejected _ => ((msgs ++ [notFoundWarning key'])%list, Resolved None)
          end
      end
  end.

Definition AwsSecretsManagerPlugin : ISecretsPlugin :=
  mkPlugin awsName awsGetSecret (Some (fun _ => None)).

End Aws.

(** [HashiCorpVaultPlugin]: in the mode [vault] the read of the client
    is inside a [try]; in the mode of the hosted service the request is
    awaited outside of any [try], and its answer tells whether the status
    was a success and what secret value the body held. *)
Inductive HashiCorpMode : Type := vault | hcp.

Section HashiCorp.

Variable initialized : Promise unit.
Variable mode : HashiCorpMode.
Variable read : string -> Promise (option string).
Variable fetch : string -> Promise (bool * option string).

Definition hashicorpGetSecret (key : string) : list string * Promise (option string) :=
  match initialized with
  | Rejected e => ([], Rejected e)
  | Resolved _ =>
      match mode with
      | vault =>
          match read key with
          | Resolved response => ([], Resolved response)
          | Rejected _ => (["Secret not found in Vault: " ++ key], Resolved None)
          end
      | hcp =>
          match fetch key with
          | Rejected e => ([], Rejected e)
          | Resolved (false, _) => (["Secret not found in HCP: " ++ key], Resolved None)
          | Resolved (true, value) => ([], Resolved value)
          end
      end
  end.

Definition HashiCorpVaultPlugin : ISecretsPlugin :=
  mkPlugin "HashiCorp Vault" hashicorpGetSecret (Some (fun _ => None)).

End HashiCorp.

End Plugin.

(** ** The resolution cache ([src/secretsManager.ts]) *)

Module Manager.

Export Plugin.

(** The process-wide state: the fields of the [SecretsManager]
    singleton, the flag [preloadExecuted] of the proxy module, and what
    is observed of the outside: what the call
    [config({ override: true, expand: true })] of [initialize] does in
    this process, the keys for which [plugin.getSecret] was called
    (latest first) and the messages passed to [ConsoleUtils.warn]
    (latest first). *)
Record World : Type := mkWorld {
  cache : gmap string string;
  publicCache : gmap string string;
  plugin : ISecretsPlugin;
  initialized : bool;
  preloadExecuted : bool;
  configured : ConfigFiles.Run;
  fetched : list string;
  warnings : list string
}.

Definition withCaches (w : World) (c p : gmap string string) (i : bool) : World :=
  mkWorld c p (plugin w) i (preloadExecuted w) (configured w) (fetched w) (warnings w).

Definition cacheSet (key value : string) (w : World) : World :=
  withCaches w (<[key := value]> (cache w)) (publicCache w) (initialized w).

Definition publicCacheSet (key value : string) (w : World) : World :=
  withCaches w (cache w) (<[key := value]> (publicCache w)) (initialized w).

Definition warn (msgs : list string) (w : World) : World :=
  mkWorld (cache w) (publicCache w) (plugin w) (initialized w) (preloadExecuted w)
    (configured w) (fetched w) ((rev msgs ++ warnings w)%list).

Definition recordFetch (key : string) (w : World) : World :=
  mkWorld (cache w) (publicCache w) (plugin w) (initialized w) (preloadExecuted w)
    (configured w) (key :: fetched w) (warnings w).

Definition setSecretsPlugin (p : ISecretsPlugin) (w : World) : World :=
  mkWorld (cache w) (publicCache w) p (initialized w) (preloadExecuted w)
    (configured w) (fetched w) (warnings w).

(** [markPreloadExecuted] of [src/secretsProxy.ts]. *)
Definition markPreloadExecuted (w : World) : World :=
  mkWorld (cache w) (publicCache w) (plugin w) (initialized w) true
    (configured w) (fetched w) (warnings w).

(** A method of the manager: what the call returns or throws, and the
    state it leaves. *)
Definition M (A : Type) : Type := World -> Completion A * World.

Definition bindM {A B : Type} (m : M A) (k : A -> M B) : M B :=
  fun w =>
    match m w with
    | (Normal a, w') => k a w'
    | (Throw e, w') => (Throw e, w')
    end.

Notation "m >>; k" := (bindM m (fun _ => k))
  (at level 100, right associativity).

(** The loop of [initialize] over the keys of the configured record. *)
Fixpoint split (secrets : Config.Record_) (w : World) : World :=
  match secrets with
  | [] => w
  | (key, value) :: rest =>
      if JS.startsWith key "PUBLIC_" then split rest (publicCacheSet key value w)
      else split rest (cacheSet key value w)
  end.

(** [initialize].  The flag is set before [config] is called, and no
    handler surrounds the call: when [config] throws, so does
    [initialize], and the manager stays flagged as initialised. *)
Definition initialize : M unit :=
  fun w =>
    if initialized w then (Normal tt, w)
    else
      let w := warn (ConfigFiles.written (configured w))
                 (withCaches w (cache w) (publicCache w) true) in
      match ConfigFiles.outcome (configured w) with
      | Throw e => (Throw e, w)
      | Normal secrets => (Normal tt, split secrets w)
      end.

Definition getSecretSync (key : string) : M (option string) :=
  initialize >>; fun w => (Normal (cache w !! key), w).

Definition getPublicSync (key : string) : M (option string) :=
  initialize >>; fun w => (Normal (publicCache w !! key), w).

Definition loadSecretSync (key : string) : M (option string) :=
  initialize >>; fun w =>
    match cache w !! key with
    | Some v => (Normal (Some v), w)
    | None =>
        match Plugin.getSecretSync (plugin w) with
        | Some f =>
            match f key with
            | Some pluginValue => (Normal (Some pluginValue), cacheSet key pluginValue w)
            | None => (Normal None, w)
            end
        | None => (Normal None, w)
        end
    end.

(** The key that [loadSecret] hands to the plugin for [key], and the
    warning it writes when that key differs: the same test and rewriting
    as in [parseSecretName].  For a plugin whose display name
    [providerMap] does not list there is no pattern to test with. *)
Definition providerSecretFor (w : World) (key : string) : option (string * list string) :=
  match Providers.providerMap (pluginName (plugin w)) with
  | None => None
  | Some provider => Some (parseSecretName (pluginName (plugin w)) provider key)
  end.

(** [loadSecret].  What is thrown in the body of the [async] function
    rejects its promise: the error of [initialize], and the [TypeError]
    that [validators[undefined].test] raises when there is no pattern.
    There is no [try] around the call of the plugin. *)
Definition loadSecret (key : string) (w : World) : Promise (option string) * World :=
  match initialize w with
  | (Throw e, w) => (Rejected e, w)
  | (Normal _, w) =>
      match cache w !! key with
      | Some v => (Resolved (Some v), w)
      | None =>
          match providerSecretFor w key with
          | None => (Rejected (TypeError "Cannot read properties of undefined"), w)
          | Some (providerSecret, msgs) =>
              let w := warn msgs w in
              let (pluginMsgs, pluginValue) := getSecret (plugin w) providerSecret in
              let w := warn pluginMsgs (recordFetch providerSecret w) in
              match pluginValue with
              | Resolved (Some value) => (Resolved (Some value), cacheSet key value w)
              | Resolved None => (Resolved None, w)
              | Rejected e => (Rejected e, w)
              end
          end
      end
  end.

(** The state of a fresh process: what [config] will do there, and the
    environment as the default plugin finds it. *)
Definition fresh (configured : ConfigFiles.Run) (processEnv : gmap string string)
  : World :=
  mkWorld ∅ ∅ (EnvSecretsPlugin processEnv) false false configured [] [].

(** The options of the call that [initialize] makes: the two that it
    passes come before the merged ones. *)
Definition ownOptions (options : ConfigFiles.Options) : ConfigFiles.Options :=
  ConfigFiles.mkOptions (ConfigFiles.path options) (ConfigFiles.envPath options)
    (ConfigFiles.environment options) true true (ConfigFiles.encryptionKey options).

(** The fresh process of a working directory: [config] runs on its
    files, and the default plugin reads the environment that [config]
    leaves.  [None] when the fuel of the expansion does not suffice. *)
Definition boot (decryptData : string -> string -> Completion string)
    (files : string -> option string) (resolve : string -> string)
    (maxLength fuel : nat) (options : ConfigFiles.Options)
    (processEnv : gmap string string) : option World :=
  match ConfigFiles.run decryptData files resolve maxLength fuel
          (ownOptions options) processEnv with
  | None => None
  | Some (configured, processEnv') => Some (fresh configured processEnv')
  end.

End Manager.

(** ** The access proxy ([src/secretsProxy.ts]) *)

Module Proxy.

Import Manager.

(** [val ?? empty] *)
Definition orEmpty (val : option string) : string :=
  match val with
  | Some v => v
  | None => EmptyString
  end.

(** The [get] trap of the proxy [secrets] for a string property: the
    wrapper it returns, or what it throws, and the state it leaves.
    The trap has no handler: the error of [initialize] leaves it as it
    came. *)
Definition secrets (key : string) : M SecretValue.t :=
  if JS.startsWith key "PUBLIC_" then
    bindM (getPublicSync key) (fun found w =>
      let publicVal := orEmpty found in
      (Normal (mkWrapper key (Some publicVal) (Resolved publicVal)), w))
  else
    bindM (getSecretSync key) (fun cached w =>
      match cached with
      | Some value => (Normal (mkWrapper key (Some value) (Resolved value)), w)
      | None =>
          if preloadExecuted w then
            (Normal (mkWrapper key (Some EmptyString) (Resolved EmptyString)), w)
          else
            let (loaded, w) := loadSecret key w in
            (Normal (mkWrapper key None (then_ loaded (fun val => Normal (orEmpty val)))), w)
      end).

End Proxy.

(** ** Bulk preload ([src/index.ts]) *)

Module Preload.

Import Manager.

(** [!secretsCache.getSecretSync(key)]: absent, or the empty string. *)
Definition falsy (val : option string) : bool :=
  match val with
  | Some v => JS.isEmpty v
  | None => true
  end.

(** The loop that fills [keysToLoad]. *)
Fixpoint keysToLoad (references : list string) : M (list string) :=
  match references with
  | [] => fun w => (Normal [], w)
  | key :: rest =>
      bindM (getSecretSync key) (fun val =>
        bindM (keysToLoad rest) (fun more w =>
          (Normal (if falsy val then key :: more else more), w)))
  end.

(** [keys.map((key) => secretsCache.loadSecret(key))], each call run to
    the settling of its promise.  The keys come from a [Set], and the
    calls for different keys touch different cache entries. *)
Fixpoint loadEach (ks : list string) (w : World)
  : list (Promise (option string)) * World :=
  match ks with
  | [] => ([], w)
  | key :: rest =>
      let (p, w) := loadSecret key w in
      let (ps, w) := loadEach rest w in
      (p :: ps, w)
  end.

(** [Promise.all] *)
Fixpoint all {A : Type} (ps : list (Promise A)) : Promise (list A) :=
  match ps with
  | [] => Resolved []
  | Rejected e :: _ => Rejected e
  | Resolved a :: rest =>
      match all rest with
      | Resolved l => Resolved (a :: l)
      | Rejected e => Rejected e
      end
  end.

(** [preloadAllSecrets], from the set of references that
    [scanProjectForSecrets(rootDir)] found, in its iteration order.
    What the loop over the references throws rejects the promise. *)
Definition preloadAllSecrets (references : list string) (w : World)
  : Promise unit * World :=
  match keysToLoad references w with
  | (Throw e, w) => (Rejected e, w)
  | (Normal ks, w) =>
      let (loaded, w) :=
        match ks with
        | [] => (Resolved [], w)
        | _ => let (ps, w) := loadEach ks w in (all ps, w)
        end in
      match loaded with
      | Rejected e => (Rejected e, w)
      | Resolved _ => (Resolved tt, markPreloadExecuted w)
      end
  end.

End Preload.

(** ** Vocabulary of the specification *)

Module Spec.

(** [s] spells the lower-case literal [lit], each letter in either
    case. *)
Fixpoint caseVariant (lit s : string) : bool :=
  match lit, s with
  | EmptyString, EmptyString => true
  | String a l, String c r =>
      (Ascii.eqb c a || Ascii.eqb c (JS.upperChar a)) && caseVariant l r
  | _, _ => false
  end.

(** What a promise becomes when a rule is attached to it. *)
Definition guarded {T : Type} (violates : T -> bool) (p q : Promise T) : Prop :=
  match p with
  | Resolved v =>
      if violates v then rejects q = true else q = Resolved v
  | Rejected e => q = Rejected e
  end.

(** The operator [op] enforces the rule [violates] on both channels:
    a present sync value that violates it makes the call throw, one
    that satisfies it is kept, an absent one lets the call return, and
    the promise of every returned wrapper carries the same rule. *)
Definition Enforces {T : Type} (op : Wrapper T -> Completion (Wrapper T))
    (violates : T -> bool) : Prop :=
  (forall w v, syncValue w = Some v -> violates v = true -> throws (op w) = true)
  /\ (forall w v, syncValue w = Some v -> violates v = false ->
        exists w', op w = Normal w' /\ syncValue w' = Some v)
  /\ (forall w, syncValue w = None ->
        exists w', op w = Normal w' /\ syncValue w' = None)
  /\ (forall w w', op w = Normal w' ->
        guarded violates (asyncValue w) (asyncValue w')).

(** The two views of one source value [v]: the wrapper of a cached
    value, and the wrapper whose value is still to be awaited. *)
Definition cachedView {T : Type} (name : string) (v : T) : Wrapper T :=
  mkWrapper name (Some v) (Resolved v).
Definition awaitedView {T : Type} (name : string) (v : T) : Wrapper T :=
  mkWrapper name None (Resolved v).

(** The call fails: it throws, or the promise of its result rejects. *)
Definition fails {T : Type} (c : Completion (Wrapper T)) : bool :=
  match c with
  | Throw _ => true
  | Normal w => rejects (asyncValue w)
  end.

(** The expression [w.number().between(a, b)]. *)
Definition numberBetween (Number : string -> JS.number) (a b : JS.number)
    (w : SecretValue.t) : Completion NumberSecretValue.t :=
  nw <- SecretValue.number Number w ;; NumberSecretValue.between a b nw.

(** The rule of [between]. *)
Definition outside (a b v : JS.number) : bool := JS.lt v a || JS.gt v b.

(** The keys for which a run of [loadSecret] over [references] calls
    the plugin in the state [w]: one call for each reference that the
    cache does not hold, with the key that the provider accepts. *)
Definition fetchesFor (w : Manager.World) (references : list string) : list string :=
  flat_map
    (fun key =>
       match Manager.cache w !! key with
       | Some _ => []
       | None =>
           match Manager.providerSecretFor w key with
           | Some (providerSecret, _) => [providerSecret]
           | None => []
           end
       end)
    references.

(** The plugin of [w] has no value for [key]: it resolves to
    [undefined] or rejects, or there is no pattern for the plugin. *)
Definition answersNoValue (w : Manager.World) (key : string) : Prop :=
  match Manager.providerSecretFor w key with
  | None => True
  | Some (providerSecret, _) =>
      match snd (Plugin.getSecret (Manager.plugin w) providerSecret) with
      | Resolved (Some _) => False
      | _ => True
      end
  end.

(** A further [loadSecret] for [key] finds nothing new. *)
Definition settled (w : Manager.World) (key : string) : Prop :=
  is_Some (Manager.cache w !! key) \/ answersNoValue w key.

(** The string holds no occurrence of the character. *)
Definition without (ch : ascii) (s : string) : bool :=
  JS.allString (fun c => negb (Ascii.eqb c ch)) s.


(** The warnings that the next [initialize] passes on, latest first:
    those of [config], when it has not run yet. *)
Definition pendingWarnings (w : Manager.World) : list string :=
  if Manager.initialized w then []
  else rev (ConfigFiles.written (Manager.configured w)).

(** The fields that the caches do not hold. *)
Definition sameSetting (w w' : Manager.World) : Prop :=
  Manager.plugin w' = Manager.plugin w
  /\ Manager.preloadExecuted w' = Manager.preloadExecuted w
  /\ Manager.configured w' = Manager.configured w.

(** A value of the mapping, read as text and references. *)
Inductive Piece : Type :=
  | Text (t : string)
  | Ref (name : string).







(** The names that the pieces refer to. *)
Definition refs (ps : list Piece) : list string :=
  flat_map (fun p => match p with Ref name => [name] | Text _ => [] end) ps.




(** No value is longer than [maxLength]. *)
Definition within (maxLength : nat) (vars : Config.Record_) : bool :=
  forallb (fun entry => (String.length (snd entry) <=? maxLength)%nat) vars.

End Spec.

(** ** Sample states *)

Module Examples.

Import Manager.

(** A call of [config] that finds its files and returns [record]. *)
Definition returning (record : Config.Record_) : ConfigFiles.Run :=
  ConfigFiles.mkRun [] (Normal record).

(** A process whose files configure a public name, one secret and a
    value that refers to it; its environment holds one more secret. *)
Definition local : World :=
  fresh (returning [("PUBLIC_APP_NAME", "demo"); ("DB_HOST", "localhost");
                    ("DB_URL", "pg://localhost:5432/app")])
        {[ "KIKE" := "12345" ]}.

(** A vault that holds [api-key] and nothing else. *)
Definition vaultWithApiKey : ISecretsPlugin :=
  mkPlugin "Azure Key Vault"
    (fun secretKey =>
       ([], Resolved (if String.eqb secretKey "api-key" then Some "s3cr3t" else None)))
    None.

Definition withVault : World :=
  setSecretsPlugin vaultWithApiKey (fresh (returning []) ∅).

(** The hosted HashiCorp service, unreachable. *)
Definition unreachable : Error := ProviderFailure "fetch failed".

Definition hcpDown : World :=
  setSecretsPlugin
    (HashiCorpVaultPlugin (Resolved tt) hcp
       (fun _ => Resolved None) (fun _ => Rejected unreachable))
    (fresh (returning []) ∅).

(** The hosted HashiCorp service refusing the credentials: the set-up
    of the plugin throws, so its promise [initialized] is rejected. *)
Definition authFailure : Error := ProviderFailure "Failed to authenticate with HCP".

Definition hcpUnauthenticated : World :=
  setSecretsPlugin
    (HashiCorpVaultPlugin (Rejected authFailure) hcp
       (fun _ => Resolved None) (fun _ => Resolved (true, Some "value")))
    (fresh (returning []) ∅).

(** A plugin of the application, under a display name of its own. *)
Definition customPlugin : ISecretsPlugin :=
  mkPlugin "My Company Vault" (fun _ => ([], Resolved (Some "value"))) None.

Definition withCustom : World := setSecretsPlugin customPlugin (fresh (returning []) ∅).

(** An AWS client whose every request fails. *)
Definition awsDown : World :=
  setSecretsPlugin
    (AwsSecretsManagerPlugin (Resolved tt) (Some (fun _ => Rejected unreachable)))
    (fresh (returning []) ∅).



(** The mapping of the documentation of [expandVariables], with one more
    reference to a key that it does not hold. *)
Definition database : Config.Record_ :=
  [("DATABASE_HOST", "localhost");
   ("DATABASE_URL", "postgresql://${DATABASE_HOST}:5432/${DATABASE_NAME}")].

Definition databaseExpanded : Config.Record_ :=
  [("DATABASE_HOST", "localhost");
   ("DATABASE_URL", "postgresql://localhost:5432/")].



(** The pattern [/1/g]: the match that starts at or after the index
    [i] ends after the first [1] from there on. *)
Fixpoint endOfFirst (ch : ascii) (i : nat) (s : string) : option nat :=
  match s with
  | EmptyString => None
  | String c r =>
      match i with
      | O => if Ascii.eqb c ch then Some 1%nat else option_map S (endOfFirst ch O r)
      | S i' => option_map S (endOfFirst ch i' r)
      end
  end.

Definition globalOne : JS.RegExp := JS.mkRegExp true 0 (endOfFirst "1").

(** The pattern [/^[0-9]*$/]. *)
Definition digits : JS.RegExp := JS.plain (JS.allString JS.isDigit).

(** A parser of the two JSON texts [true] and [false]. *)
Definition parseFlag (s : string) : option bool :=
  if String.eqb s "true" then Some true
  else if String.eqb s "false" then Some false
  else None.




(** A process whose [.secrets] file its key does not decrypt: [config]
    warns about the [.env] file that is not there, and throws. *)
Definition undecryptable : ConfigFiles.Run :=
  ConfigFiles.mkRun [".env file not found: /app/.env"] (Throw DecryptionFailed).

Definition locked : World := fresh undecryptable {[ "API_KEY" := "from-env" ]}.

End Examples.

(** ** Laws of the wrappers *)

Module Laws.

(** The sync value, when there is one, is what the promise resolves
    to. *)
Definition consistent {T : Type} (w : Wrapper T) : Prop :=
  match syncValue w with
  | Some v => asyncValue w = Resolved v
  | None => True
  end.

(** The chaining of two methods, [w.op1().op2()]. *)
Definition andThen {A B C : Type} (op1 : A -> Completion B) (op2 : B -> Completion C)
  : A -> Completion C :=
  fun w => x <- op1 w ;; op2 x.

(** A numeric wrapper as [number()] makes them: consistent, with a sync
    value that is a number. *)
Definition numeric (w : Wrapper JS.number) : Prop :=
  consistent w
  /\ (forall v, syncValue w = Some v -> JS.isNaN v = false)
  /\ (forall v, asyncValue w = Resolved v -> JS.isNaN v = false).

(** From wrappers with the property [before] the operator returns
    wrappers with the property [after]. *)
Definition Preserves {A B : Type} (before : Wrapper A -> Prop)
    (after : Wrapper B -> Prop) (op : Wrapper A -> Completion (Wrapper B)) : Prop :=
  forall w w', before w -> op w = Normal w' -> after w'.

(** On a wrapper without sync value the operator returns one without
    sync value, for the same secret. *)
Definition KeepsAbsence {A B : Type} (op : Wrapper A -> Completion (Wrapper B)) : Prop :=
  forall w, syncValue w = None ->
    exists w', op w = Normal w' /\ syncValue w' = None
               /\ secretName w' = secretName w.

(** The first and the last character of the string are no white
    space. *)
Definition trimmed (s : string) : bool :=
  negb (Providers.startsIn JS.isSpace s) && negb (Providers.endsIn JS.isSpace s).

(** No two neighbours in the string are both of the class; [prev] tells
    that the character before the string is of the class. *)
Fixpoint noAdjacent (class : ascii -> bool) (prev : bool) (s : string) : bool :=
  match s with
  | EmptyString => true
  | String c r =>
      if class c then negb prev && noAdjacent class true r
      else noAdjacent class false r
  end.

(** The characters that the normaliser of [aws] lets through. *)
Definition awsOutput (c : ascii) : bool :=
  Providers.awsChar c && negb (JS.isUpper c) && negb (Providers.isChar "-" c).

(** White space only. *)
Definition blank (s : string) : bool := JS.allString JS.isSpace s.

(** Every named key of the record is found in [processEnv] with the
    value of the record. *)
Definition mirrored (result : Config.Record_) (processEnv : gmap string string) : Prop :=
  forall key value,
    key <> EmptyString ->
    Config.get result key = Some value -> processEnv !! key = Some value.

(** What the reading of one file makes of [process.env], and the record
    it returns; a file that does not exist has no lines. *)
Definition Loads (override : bool) (processEnv : gmap string string)
    (result : Config.Record_) (processEnv' : gmap string string) : Prop :=
  exists lines, ConfigFiles.loadLines override lines [] processEnv = (result, processEnv').

(** The records of files read one after the other, each spread over the
    records before it. *)
Inductive Merged (override : bool)
  : Config.Record_ -> gmap string string -> Config.Record_ -> gmap string string -> Prop :=
  | merged_done (acc : Config.Record_) (processEnv : gmap string string) :
      Merged override acc processEnv acc processEnv
  | merged_file (acc result acc' : Config.Record_)
      (processEnv processEnv1 processEnv' : gmap string string) :
      Loads override processEnv result processEnv1 ->
      Merged override (ConfigFiles.spread acc result) processEnv1 acc' processEnv' ->
      Merged override acc processEnv acc' processEnv'.

(** The keys whose upper case is the name of an environment variable:
    the sharp s, whose upper case is [SS], counts as a letter. *)
Definition envSource (s : string) : bool :=
  match s with
  | EmptyString => false
  | String c r =>
      (Providers.envStart c || Ascii.eqb c JS.sharpS)
      && JS.allString (fun d => Providers.envChar d || Ascii.eqb d JS.sharpS) r
  end.

(** The record holds no own property [__proto__]. *)
Definition plainKeys (vars : Config.Record_) : Prop :=
  Config.get vars "__proto__" = None.







(** The pieces with [f name] in the place of each reference to
    [name]. *)
Fixpoint fill (f : string -> string) (ps : list Spec.Piece) : string :=
  match ps with
  | [] => EmptyString
  | Spec.Text t :: rest => t ++ fill f rest
  | Spec.Ref name :: rest => f name ++ fill f rest
  end.







End Laws.

(** ** A project directory *)

Module Project.

Definition nl : string := String ConfigFiles.newline EmptyString.

Definition envFile : string :=
  "HOST=localhost" ++ nl ++ "# the token of the test account" ++ nl
  ++ "  TOKEN = from-env  " ++ nl ++ "HOME=/srv/app".

Definition secretsFile : string :=
  "TOKEN=from-secrets" ++ nl ++ "URL=http://${HOST}/?q=1" ++ nl ++ "not a setting".

Definition files (name : string) : option string :=
  if String.eqb name ".env" then Some envFile
  else if String.eqb name ".secrets" then Some secretsFile
  else None.

(** The files are not encrypted. *)
Definition decryptData (data key : string) : Completion string := Normal data.

(** The default options, with [NODE_ENV] unset, and with the expansion
    on. *)
Definition options : ConfigFiles.Options :=
  ConfigFiles.mkOptions ".secrets" ".env" EmptyString false true EmptyString.

Definition processEnv : gmap string string := {[ "HOME" := "/root" ]}.

(** What [config] returns in this directory, and the environment it
    leaves. *)
Definition result : Config.Record_ :=
  [("HOST", "localhost"); ("TOKEN", "from-env"); ("URL", "http://localhost/?q=1")].

Definition processEnv' : gmap string string :=
  <["URL" := "http://localhost/?q=1"]>
    (<["TOKEN" := "from-env"]> (<["HOST" := "localhost"]> processEnv)).



(** A length that no string of this directory comes near; the engine
    allows far longer ones. *)
Definition maxLength : nat := 4096.

Definition resolve (name : string) : string := "/app/" ++ name.

(** The same directory with a [.secrets] file that is encrypted, and a
    key that does not decrypt it. *)
Definition cipherFiles (name : string) : option string :=
  if String.eqb name ".secrets" then Some "bm90IGEgY2lwaGVydGV4dA==" else None.

Definition wrongKey (data key : string) : Completion string := Throw DecryptionFailed.

Definition lockedOptions : ConfigFiles.Options :=
  ConfigFiles.mkOptions ".secrets" ".env" EmptyString false false "secret".

End Project.

(** * Properties *)

(** ** Numbers *)

Lemma SFcompare_refl (x : JS.number) :
  JS.isNaN x = false -> SFcompare x x = Some Eq.
Proof.
  destruct x as [s | s | | s m e]; simpl; try discriminate; intros _.
  - reflexivity.
  - destruct s; reflexivity.
  - rewrite Z.compare_refl, Pos.compare_cont_refl. destruct s; reflexivity.
Qed.

Lemma SFcompare_antisym (x y : JS.number) :
  SFcompare y x = option_map CompOpp (SFcompare x y).
Proof.
  destruct x as [s | s | | s m e], y as [t | t | | t n f]; simpl;
    try reflexivity;
    try (destruct s; reflexivity); try (destruct t; reflexivity);
    try (destruct s, t; reflexivity).
  destruct s, t; simpl; try reflexivity;
    rewrite (Z.compare_antisym f e);
    destruct (f ?= e)%Z eqn:E; simpl; try reflexivity;
    rewrite (Pos.compare_cont_antisym m n Eq); simpl;
    try rewrite CompOpp_involutive; reflexivity.
Qed.

Lemma lt_irrefl (x : JS.number) : JS.lt x x = false.
Proof.
  unfold JS.lt, SFltb. destruct (JS.isNaN x) eqn:E.
  - destruct x; try discriminate. reflexivity.
  - rewrite SFcompare_refl by assumption. reflexivity.
Qed.

Lemma le_not_gt (a b : JS.number) : JS.le a b = true -> JS.gt a b = false.
Proof.
  unfold JS.le, JS.gt, SFleb, SFltb. rewrite (SFcompare_antisym a b).
  destruct (SFcompare a b) as [[]|]; simpl; congruence.
Qed.

Lemma le_not_lt (a b : JS.number) : JS.le a b = true -> JS.lt b a = false.
Proof. exact (le_not_gt a b). Qed.

Lemma outside_lower_bound (a b : JS.number) :
  JS.le a b = true -> Spec.outside a b a = false.
Proof.
  intros H. unfold Spec.outside. rewrite lt_irrefl, (le_not_gt a b H). reflexivity.
Qed.

Lemma outside_upper_bound (a b : JS.number) :
  JS.le a b = true -> Spec.outside a b b = false.
Proof.
  intros H. unfold Spec.outside, JS.gt. rewrite (le_not_lt a b H), lt_irrefl.
  reflexivity.
Qed.

(** ** Validation operators *)

(** The shape that the validation operators share: an eager check of the
    sync value, and the same check chained to the promise. *)
Lemma check_both_channels_enforces {T : Type} (violates : T -> bool)
    (errSync errAsync : T -> Error) :
  Spec.Enforces
    (fun this =>
       ifDefined (syncValue this) (fun v => throwIf (violates v) (errSync v)) ;;;
       Normal (mkWrapper (secretName this) (syncValue this)
                 (then_ (asyncValue this) (fun val =>
                    throwIf (violates val) (errAsync val) ;;; Normal val))))
    violates.
Proof.
  unfold Spec.Enforces. repeat split.
  - intros [n sv p] v Hs Hv. simpl in *. subst sv. simpl. rewrite Hv. reflexivity.
  - intros [n sv p] v Hs Hv. simpl in *. subst sv. simpl. rewrite Hv. simpl.
    eexists. split; reflexivity.
  - intros [n sv p] Hs. simpl in *. subst sv. simpl. eexists. split; reflexivity.
  - intros [n sv p] w' H. simpl in H.
    destruct sv as [v|]; simpl in H.
    + destruct (violates v); simpl in H; [discriminate|].
      injection H as <-. simpl. unfold Spec.guarded.
      destruct p as [a|e]; simpl; [|reflexivity].
      destruct (violates a); reflexivity.
    + injection H as <-. simpl. unfold Spec.guarded.
      destruct p as [a|e]; simpl; [|reflexivity].
      destruct (violates a); reflexivity.
Qed.

(** An enforced rule decides the outcome alike for the cached and for the
    awaited view of one source value. *)
Lemma Enforces_views_agree {T : Type} (op : Wrapper T -> Completion (Wrapper T))
    (violates : T -> bool) (name : string) (v : T) :
  Spec.Enforces op violates ->
  Spec.fails (op (Spec.cachedView name v)) = violates v
  /\ Spec.fails (op (Spec.awaitedView name v)) = violates v.
Proof.
  intros (Hfail & Hpass & Habsent & Hasync). split.
  - destruct (violates v) eqn:Hv.
    + specialize (Hfail (Spec.cachedView name v) v eq_refl Hv).
      destruct (op (Spec.cachedView name v)); [discriminate|reflexivity].
    + destruct (Hpass (Spec.cachedView name v) v eq_refl Hv) as (w' & Hop & _).
      rewrite Hop. simpl. specialize (Hasync _ _ Hop). simpl in Hasync.
      rewrite Hv in Hasync. rewrite Hasync. reflexivity.
  - destruct (Habsent (Spec.awaitedView name v) eq_refl) as (w' & Hop & _).
    rewrite Hop. simpl. specialize (Hasync _ _ Hop). simpl in Hasync.
    destruct (violates v); [assumption|]. rewrite Hasync. reflexivity.
Qed.

(** Operators that agree on every wrapper enforce the same rule. *)
Lemma Enforces_ext {T : Type} (op op' : Wrapper T -> Completion (Wrapper T))
    (violates : T -> bool) :
  (forall w, op w = op' w) -> Spec.Enforces op' violates -> Spec.Enforces op violates.
Proof.
  intros Heq (Hfail & Hpass & Habsent & Hasync). repeat split.
  - intros w v Hs Hv. rewrite Heq. exact (Hfail w v Hs Hv).
  - intros w v Hs Hv. rewrite Heq. exact (Hpass w v Hs Hv).
  - intros w Hs. rewrite Heq. exact (Habsent w Hs).
  - intros w w' H. rewrite Heq in H. exact (Hasync w w' H).
Qed.

(** The [test] of a pattern without the flags [g] and [y] answers by
    the string alone and leaves the pattern as it is. *)
Lemma test_stateless (pattern : JS.RegExp) (s : string) :
  JS.stateful pattern = false -> JS.test pattern s = (JS.matches pattern s, pattern).
Proof. intros H. unfold JS.test. rewrite H. reflexivity. Qed.

Lemma regex_stateless (pattern : JS.RegExp) (msg : option string) (this : SecretValue.t) :
  JS.stateful pattern = false ->
  SecretValue.regex pattern msg this
  = (ifDefined (syncValue this) (fun v =>
       throwIf (negb (JS.matches pattern v)) (SecretValue.regexError msg)) ;;;
     Normal (mkWrapper (secretName this) (syncValue this)
               (then_ (asyncValue this) (fun val =>
                  throwIf (negb (JS.matches pattern val)) (SecretValue.regexError msg) ;;;
                  Normal val)))).
Proof.
  intros H. unfold SecretValue.regex, SecretValue.regexSync.
  destruct this as [n [v|] p]; cbn [syncValue asyncValue secretName ifDefined].
  - rewrite (test_stateless pattern v H).
    destruct (JS.matches pattern v); cbn; [|reflexivity].
    f_equal. f_equal. destruct p as [a|e]; cbn; [|reflexivity].
    rewrite (test_stateless pattern a H). reflexivity.
  - cbn. f_equal. f_equal. destruct p as [a|e]; cbn; [|reflexivity].
    rewrite (test_stateless pattern a H). reflexivity.
Qed.

(** C1, as amended.  The string operators [required], [notEmpty],
    [lengthBetween] and [regex] (for a pattern without the flags [g]
    and [y], whose [test] keeps no state), the numeric operators [min],
    [max], [between], [positive], [negative] and [integer] and the
    boolean operators [true] and [false] each throw synchronously on a present
    sync value that violates their rule, return when the sync value is
    absent, and attach the same rule to the promise, so the cached and the
    awaited view of one source value fail alike.  The numeric [required]
    makes no synchronous check and attaches the not-a-number check to
    the promise; the boolean [required] throws synchronously exactly when
    the sync value is absent and leaves the promise as it is. *)
Theorem validation_operators_enforce_rule_on_both_channels
    (min max n : JS.number) (pattern : JS.RegExp) (msg : option string) :
  (Spec.Enforces SecretValue.required JS.isEmpty
   /\ Spec.Enforces SecretValue.notEmpty (fun v => (String.length v =? 0)%nat)
   /\ Spec.Enforces (SecretValue.lengthBetween min max)
        (SecretValue.lengthOutside min max)
   /\ (JS.stateful pattern = false ->
       Spec.Enforces (SecretValue.regex pattern msg)
         (fun v => negb (JS.matches pattern v))))
  /\ (Spec.Enforces (NumberSecretValue.min n) (fun v => JS.lt v n)
      /\ Spec.Enforces (NumberSecretValue.max n) (fun v => JS.gt v n)
      /\ Spec.Enforces (NumberSecretValue.between min max) (Spec.outside min max)
      /\ Spec.Enforces NumberSecretValue.positive (fun v => JS.le v JS.zero)
      /\ Spec.Enforces NumberSecretValue.negative (fun v => JS.ge v JS.zero)
      /\ Spec.Enforces NumberSecretValue.integer (fun v => negb (JS.isInteger v)))
  /\ (Spec.Enforces BooleanSecretValue.true_ (fun v => negb (Bool.eqb v true))
      /\ Spec.Enforces BooleanSecretValue.false_ (fun v => negb (Bool.eqb v false)))
  /\ (forall (T : Type) (op : Wrapper T -> Completion (Wrapper T)) violates name v,
        Spec.Enforces op violates ->
        Spec.fails (op (Spec.cachedView name v)) = violates v
        /\ Spec.fails (op (Spec.awaitedView name v)) = violates v)
  /\ (forall w : NumberSecretValue.t,
        exists w', NumberSecretValue.required w = Normal w'
                   /\ syncValue w' = syncValue w
                   /\ Spec.guarded JS.isNaN (asyncValue w) (asyncValue w'))
  /\ (forall w : BooleanSecretValue.t,
        match syncValue w with
        | None => BooleanSecretValue.required w = Throw BooleanRequired
        | Some v =>
            BooleanSecretValue.required w
            = Normal (mkWrapper (secretName w) (Some v) (asyncValue w))
        end).
Proof.
  repeat match goal with |- _ /\ _ => split end;
    try exact (check_both_channels_enforces _ _ _).
  - intros Hflags.
    apply (Enforces_ext _ _ _ (fun w => regex_stateless pattern msg w Hflags)).
    exact (check_both_channels_enforces _ _ _).
  - intros T op violates name v H. exact (Enforces_views_agree op violates name v H).
  - intros [nm sv p]. eexists. split; [reflexivity|]. split; [reflexivity|].
    simpl. unfold Spec.guarded. destruct p as [a|e]; simpl; [|reflexivity].
    destruct (JS.isNaN a); reflexivity.
  - intros [nm [v|] p]; reflexivity.
Qed.

(** A use of the theorem: [required()] on the cached empty string throws,
    and on the awaited empty string it returns a wrapper whose promise
    rejects; a pattern without flags that matches the strings of three
    characters fails the cached and the awaited [abcd] alike. *)
Lemma validation_operators_witness :
  (Spec.fails (SecretValue.required (Spec.cachedView "API_KEY" EmptyString)) = true
   /\ Spec.fails (SecretValue.required (Spec.awaitedView "API_KEY" EmptyString)) = true)
  /\ JS.stateful (JS.plain (fun s => (String.length s =? 3)%nat)) = false
  /\ Spec.fails (SecretValue.regex (JS.plain (fun s => (String.length s =? 3)%nat)) None
                   (Spec.cachedView "CODE" "abcd")) = true
  /\ Spec.fails (SecretValue.regex (JS.plain (fun s => (String.length s =? 3)%nat)) None
                   (Spec.awaitedView "CODE" "abcd")) = true.
Proof.
  pose proof (validation_operators_enforce_rule_on_both_channels
                JS.zero JS.zero JS.zero
                (JS.plain (fun s => (String.length s =? 3)%nat)) None) as H.
  destruct H as [[Hreq [_ [_ Hregex]]] [_ [_ [Hagree _]]]].
  split.
  - exact (Hagree string SecretValue.required JS.isEmpty "API_KEY" EmptyString Hreq).
  - split; [reflexivity|].
    exact (Hagree string _ _ "CODE" "abcd" (Hregex eq_refl)).
Defined.

(** C1 as stated fails: the boolean [required()] throws synchronously on
    a wrapper whose sync value is absent, whatever its promise holds, so
    no rule is enforced by it in the sense of the claim. *)
Lemma boolean_required_throws_without_sync_value :
  syncValue (Spec.awaitedView "FEATURE_ENABLED" true) = None
  /\ BooleanSecretValue.required (Spec.awaitedView "FEATURE_ENABLED" true)
     = Throw BooleanRequired
  /\ ~ (exists violates, Spec.Enforces BooleanSecretValue.required violates).
Proof.
  split; [reflexivity|]. split; [reflexivity|].
  intros (violates & _ & _ & Habsent & _).
  destruct (Habsent (Spec.awaitedView "FEATURE_ENABLED" true) eq_refl) as (w' & H & _).
  discriminate H.
Qed.

(** ** The inclusive range check *)

Lemma numberBetween_cached (Number : string -> JS.number) (a b : JS.number)
    (name s : string) :
  JS.isNaN (Number s) = false ->
  Spec.numberBetween Number a b (Spec.cachedView name s)
  = if Spec.outside a b (Number s)
    then Throw (NumberOutOfRange (Number s) a b)
    else Normal (Spec.cachedView name (Number s)).
Proof.
  intros Hnan. unfold Spec.numberBetween, SecretValue.number. simpl.
  rewrite Hnan. simpl. unfold NumberSecretValue.between, Spec.outside. simpl.
  destruct (JS.lt (Number s) a || JS.gt (Number s) b); reflexivity.
Qed.

Lemma numberBetween_awaited (Number : string -> JS.number) (a b : JS.number)
    (name s : string) :
  JS.isNaN (Number s) = false ->
  Spec.numberBetween Number a b (Spec.awaitedView name s)
  = Normal (mkWrapper name None
              (if Spec.outside a b (Number s)
               then Rejected (NumberOutOfRange (Number s) a b)
               else Resolved (Number s))).
Proof.
  intros Hnan. unfold Spec.numberBetween, SecretValue.number. simpl.
  rewrite Hnan. simpl. unfold NumberSecretValue.between, Spec.outside. simpl.
  destruct (JS.lt (Number s) a || JS.gt (Number s) b); reflexivity.
Qed.

(** C8.  For a source string [s] that parses to the number [v]:
    [.number().between(a, b)] throws on the cached view, and rejects on
    the awaited view, exactly when [v < a] or [v > b]; a view that passes
    keeps [v] on both channels; and, for a range with [a <= b], a value
    equal to [a] or to [b] neither throws nor rejects.  In general a
    value equal to a bound fails only when the bounds are given in the
    wrong order, [b < a]. *)
Theorem number_between_throws_iff_outside_inclusive_range
    (Number : string -> JS.number) (a b : JS.number) (name s : string) :
  JS.isNaN (Number s) = false ->
  let v := Number s in
  (throws (Spec.numberBetween Number a b (Spec.cachedView name s)) = true
   <-> JS.lt v a = true \/ JS.gt v b = true)
  /\ (exists w', Spec.numberBetween Number a b (Spec.awaitedView name s) = Normal w'
                 /\ syncValue w' = None
                 /\ (rejects (asyncValue w') = true
                     <-> JS.lt v a = true \/ JS.gt v b = true))
  /\ (Spec.outside a b v = false ->
      Spec.numberBetween Number a b (Spec.cachedView name s)
      = Normal (Spec.cachedView name v))
  /\ (JS.le a b = true -> v = a \/ v = b ->
      Spec.fails (Spec.numberBetween Number a b (Spec.cachedView name s)) = false
      /\ Spec.fails (Spec.numberBetween Number a b (Spec.awaitedView name s)) = false)
  /\ (v = a \/ v = b ->
      Spec.fails (Spec.numberBetween Number a b (Spec.cachedView name s)) = JS.lt b a
      /\ Spec.fails (Spec.numberBetween Number a b (Spec.awaitedView name s)) = JS.lt b a).
Proof.
  intros Hnan v.
  rewrite (numberBetween_cached Number a b name s Hnan).
  rewrite (numberBetween_awaited Number a b name s Hnan).
  fold v.
  assert (Spec.outside a b v = true <-> JS.lt v a = true \/ JS.gt v b = true) as Hout
    by (unfold Spec.outside; apply orb_true_iff).
  assert (v = a \/ v = b -> Spec.outside a b v = JS.lt b a) as Hedge.
  { unfold Spec.outside, JS.gt. intros [-> | ->]; rewrite lt_irrefl.
    - reflexivity.
    - apply orb_false_r. }
  refine (conj _ (conj _ (conj _ (conj _ _)))).
  - rewrite <- Hout. destruct (Spec.outside a b v); simpl; split; congruence.
  - eexists. split; [reflexivity|]. split; [reflexivity|]. simpl.
    rewrite <- Hout. destruct (Spec.outside a b v); simpl; split; congruence.
  - intros ->. reflexivity.
  - intros Hle Hv. rewrite (Hedge Hv), (le_not_lt a b Hle). split; reflexivity.
  - intros Hv. rewrite (Hedge Hv). destruct (JS.lt b a); split; reflexivity.
Qed.

(** A use of the theorem: the port number [1024] passes the inclusive
    range from [1024] to [65535] on both channels. *)
Lemma number_between_witness :
  JS.isNaN (JS.decimalNumber "1024") = false
  /\ Spec.fails (Spec.numberBetween JS.decimalNumber (JS.ofZ 1024) (JS.ofZ 65535)
                   (Spec.cachedView "PORT" "1024")) = false
  /\ Spec.fails (Spec.numberBetween JS.decimalNumber (JS.ofZ 1024) (JS.ofZ 65535)
                   (Spec.awaitedView "PORT" "1024")) = false.
Proof.
  split; [reflexivity|].
  destruct (number_between_throws_iff_outside_inclusive_range
              JS.decimalNumber (JS.ofZ 1024) (JS.ofZ 65535) "PORT" "1024" eq_refl)
    as (_ & _ & _ & H & _).
  exact (H eq_refl (or_introl eq_refl)).
Defined.

(** ** Boolean parsing *)

Lemma code_inj (c d : ascii) : JS.code c = JS.code d -> c = d.
Proof.
  unfold JS.code. intros H.
  rewrite <- (ascii_nat_embedding c), <- (ascii_nat_embedding d), H. reflexivity.
Qed.

Lemma code_lt_256 (c : ascii) : (JS.code c < 256)%nat.
Proof. apply nat_ascii_bounded. Qed.

Lemma code_of_nat (n : nat) : (n < 256)%nat -> JS.code (ascii_of_nat n) = n.
Proof. apply nat_ascii_embedding. Qed.

Lemma between_codes_spec (lo hi : nat) (c : ascii) :
  JS.between_codes lo hi c = true <-> (lo <= JS.code c <= hi)%nat.
Proof.
  unfold JS.between_codes. rewrite andb_true_iff, !Nat.leb_le. reflexivity.
Qed.

(** Only a lower-case letter and its capital have that letter as their
    lower case. *)
Lemma isLatinUpper_spec (c : ascii) :
  JS.isLatinUpper c = true -> (192 <= JS.code c <= 222)%nat.
Proof.
  unfold JS.isLatinUpper. rewrite orb_true_iff, !between_codes_spec. lia.
Qed.

Lemma lowerChar_is_letter (a c : ascii) :
  JS.isLower a = true ->
  Ascii.eqb (JS.lowerChar c) a = Ascii.eqb c a || Ascii.eqb c (JS.upperChar a).
Proof.
  intros Ha. unfold JS.upperChar. rewrite Ha. cbn [orb].
  apply between_codes_spec in Ha.
  pose proof (code_lt_256 c) as Hc.
  unfold JS.lowerChar.
  destruct (JS.isUpper c) eqn:Hu; cbn [orb].
  - apply between_codes_spec in Hu.
    destruct (Ascii.eqb_spec c a) as [-> | Hne]; [lia|]. simpl.
    destruct (Ascii.eqb_spec (ascii_of_nat (JS.code c + 32)) a) as [E | E];
      destruct (Ascii.eqb_spec c (ascii_of_nat (JS.code a - 32))) as [F | F];
      try reflexivity; exfalso.
    + apply F, code_inj. rewrite code_of_nat by lia.
      rewrite <- E, code_of_nat by lia. lia.
    + apply E, code_inj. rewrite code_of_nat by lia.
      rewrite F at 1. rewrite code_of_nat by lia. lia.
  - destruct (JS.isLatinUpper c) eqn:Hl.
    + apply isLatinUpper_spec in Hl.
      destruct (Ascii.eqb_spec (ascii_of_nat (JS.code c + 32)) a) as [E | E].
      { exfalso. rewrite <- E, code_of_nat in Ha by lia. lia. }
      destruct (Ascii.eqb_spec c a) as [-> | Hne]; [lia|]. simpl.
      destruct (Ascii.eqb_spec c (ascii_of_nat (JS.code a - 32))) as [F | F];
        [|reflexivity].
      exfalso. rewrite F, code_of_nat in Hl by lia. lia.
    + destruct (Ascii.eqb_spec c a) as [-> | Hne]; [reflexivity|]. simpl.
      destruct (Ascii.eqb_spec c (ascii_of_nat (JS.code a - 32))) as [F | F];
        [|reflexivity].
      exfalso. assert (JS.isUpper c = true) as Hu'; [|congruence].
      apply between_codes_spec. rewrite F, code_of_nat by lia. lia.
Qed.

Lemma toLowerCase_is_literal (lit s : string) :
  JS.allString JS.isLower lit = true ->
  String.eqb (JS.toLowerCase s) lit = Spec.caseVariant lit s.
Proof.
  revert s. induction lit as [|a lit IH]; intros [|c s] Hl; simpl in *;
    try reflexivity.
  apply andb_true_iff in Hl as [Ha Hl].
  rewrite (lowerChar_is_letter a c Ha).
  fold (JS.toLowerCase s). rewrite (IH s Hl).
  destruct (Ascii.eqb c a || Ascii.eqb c (JS.upperChar a)); reflexivity.
Qed.

Lemma true_and_false_differ (s : string) :
  Spec.caseVariant "true" s = true -> Spec.caseVariant "false" s = true -> False.
Proof.
  destruct s as [|c s]; [discriminate|].
  change (Spec.caseVariant "true" (String c s))
    with ((Ascii.eqb c "t" || Ascii.eqb c "T") && Spec.caseVariant "rue" s).
  change (Spec.caseVariant "false" (String c s))
    with ((Ascii.eqb c "f" || Ascii.eqb c "F") && Spec.caseVariant "alse" s).
  intros Ht Hf.
  apply andb_true_iff in Ht as [Ht _]. apply andb_true_iff in Hf as [Hf _].
  apply orb_true_iff in Ht. apply orb_true_iff in Hf.
  rewrite !Ascii.eqb_eq in Ht, Hf.
  destruct Ht as [-> | ->]; destruct Hf as [Hf | Hf]; discriminate Hf.
Qed.

Lemma parseBoolean_spec (s : string) :
  parseBoolean s
  = if Spec.caseVariant "true" s then Some true
    else if Spec.caseVariant "false" s then Some false
    else None.
Proof.
  unfold parseBoolean.
  rewrite (toLowerCase_is_literal "true" s eq_refl).
  rewrite (toLowerCase_is_literal "false" s eq_refl).
  reflexivity.
Qed.

(** C7.  [boolean()] takes the spellings of [true], in any mix of cases,
    to [true] and those of [false] to [false], on both channels; on every
    other string it throws the parse error when the sync value is present
    and returns a wrapper with a rejecting promise when it is absent. *)
Theorem boolean_parses_exactly_true_and_false (name s : string) :
  (parseBoolean s = Some true <-> Spec.caseVariant "true" s = true)
  /\ (parseBoolean s = Some false <-> Spec.caseVariant "false" s = true)
  /\ (forall b, parseBoolean s = Some b ->
        SecretValue.boolean (Spec.cachedView name s) = Normal (Spec.cachedView name b)
        /\ SecretValue.boolean (Spec.awaitedView name s)
           = Normal (Spec.awaitedView name b))
  /\ (Spec.caseVariant "true" s = false -> Spec.caseVariant "false" s = false ->
        parseBoolean s = None
        /\ (forall p, SecretValue.boolean (mkWrapper name (Some s) p)
                      = Throw (CannotConvertToBoolean s))
        /\ SecretValue.boolean (Spec.awaitedView name s)
           = Normal (mkWrapper name None (Rejected (CannotConvertToBoolean s)))).
Proof.
  rewrite (parseBoolean_spec s).
  repeat split.
  - destruct (Spec.caseVariant "true" s); [reflexivity|].
    destruct (Spec.caseVariant "false" s); discriminate.
  - intros ->. reflexivity.
  - destruct (Spec.caseVariant "true" s); [discriminate|].
    destruct (Spec.caseVariant "false" s); [reflexivity|discriminate].
  - intros Hf. destruct (Spec.caseVariant "true" s) eqn:Ht; [|rewrite Hf; reflexivity].
    exfalso. exact (true_and_false_differ s Ht Hf).
  - unfold SecretValue.boolean. simpl. rewrite (parseBoolean_spec s), H. reflexivity.
  - unfold SecretValue.boolean. simpl. rewrite (parseBoolean_spec s), H. reflexivity.
  - rewrite H, H0. reflexivity.
  - intros p. unfold SecretValue.boolean. simpl.
    rewrite (parseBoolean_spec s), H, H0. reflexivity.
  - unfold SecretValue.boolean. simpl.
    rewrite (parseBoolean_spec s), H, H0. reflexivity.
Qed.

(** A use of the theorem: the string [yes] is no boolean. *)
Lemma boolean_parse_witness :
  Spec.caseVariant "true" "yes" = false
  /\ Spec.caseVariant "false" "yes" = false
  /\ SecretValue.boolean (Spec.cachedView "DEBUG" "yes")
     = Throw (CannotConvertToBoolean "yes")
  /\ SecretValue.boolean (Spec.awaitedView "DEBUG" "yes")
     = Normal (mkWrapper "DEBUG" None (Rejected (CannotConvertToBoolean "yes"))).
Proof.
  split; [reflexivity|]. split; [reflexivity|].
  destruct (boolean_parses_exactly_true_and_false "DEBUG" "yes")
    as (_ & _ & _ & H).
  destruct (H eq_refl eq_refl) as (_ & Hsync & Hasync).
  split; [exact (Hsync (Resolved "yes")) | exact Hasync].
Defined.

(** ** The resolution cache *)

Section ManagerFacts.

Import Manager.
Import Spec.

Lemma split_frame (secrets : Config.Record_) (w : World) :
  sameSetting w (split secrets w)
  /\ initialized (split secrets w) = initialized w
  /\ fetched (split secrets w) = fetched w
  /\ warnings (split secrets w) = warnings w.
Proof.
  revert w. induction secrets as [|[k v] rest IH]; intros w; simpl.
  - repeat split.
  - destruct (JS.startsWith k "PUBLIC_");
      match goal with |- context [split rest ?x] => destruct (IH x) as ((? & ? & ?) & ? & ? & ?) end;
      repeat split; simpl in *; congruence.
Qed.

Lemma initialize_frame (w : World) :
  sameSetting w (snd (initialize w))
  /\ initialized (snd (initialize w)) = true
  /\ fetched (snd (initialize w)) = fetched w
  /\ warnings (snd (initialize w)) = (pendingWarnings w ++ warnings w)%list.
Proof.
  unfold initialize, pendingWarnings. destruct (initialized w) eqn:E.
  - repeat split. exact E.
  - cbn [warn withCaches configured].
    destruct (ConfigFiles.outcome (configured w)) as [secrets|e].
    + cbn [snd].
      match goal with |- context [split ?s ?x] =>
        destruct (split_frame s x) as ((? & ? & ?) & ? & ? & ?) end.
      repeat split; simpl in *; congruence.
    + repeat split.
Qed.

Lemma initialize_done (w : World) :
  initialized w = true -> initialize w = (Normal tt, w).
Proof. unfold initialize. intros ->. reflexivity. Qed.

(** Once [initialize] has run, with whatever outcome, the next call
    returns at once. *)
Lemma initialize_again (w : World) :
  initialize (snd (initialize w)) = (Normal tt, snd (initialize w)).
Proof. apply initialize_done, initialize_frame. Qed.

Lemma initialize_returned (w w0 : World) :
  initialize w = (Normal tt, w0) -> initialize w0 = (Normal tt, w0).
Proof.
  intros H. pose proof (initialize_again w) as Ha. rewrite H in Ha. exact Ha.
Qed.

(** [initialize] throws exactly on the first call in a process whose
    [config] throws; the caches stay as they were. *)
Lemma initialize_throws (w : World) (e : Error) :
  fst (initialize w) = Throw e
  <-> initialized w = false /\ ConfigFiles.outcome (configured w) = Throw e.
Proof.
  unfold initialize. destruct (initialized w); cbn [fst].
  - split; [discriminate | intros [? _]; discriminate].
  - cbn [warn withCaches configured].
    destruct (ConfigFiles.outcome (configured w)) as [secrets|e']; cbn [fst].
    + split; [discriminate | intros [_ ?]; discriminate].
    + split; [intros [= ->]; split; reflexivity | intros [_ [= ->]]; reflexivity].
Qed.

Lemma initialize_thrown (w : World) (e : Error) :
  fst (initialize w) = Throw e ->
  cache (snd (initialize w)) = cache w
  /\ publicCache (snd (initialize w)) = publicCache w.
Proof.
  intros H. apply initialize_throws in H as [Hi Ho].
  unfold initialize. rewrite Hi. cbn [warn withCaches configured].
  rewrite Ho. split; reflexivity.
Qed.

Lemma providerSecretFor_initialize (w : World) (key : string) :
  providerSecretFor (snd (initialize w)) key = providerSecretFor w key.
Proof.
  unfold providerSecretFor.
  destruct (initialize_frame w) as ((-> & _) & _). reflexivity.
Qed.

(** What a call of [loadSecret] for a key outside the cache does, by the
    answer of the plugin. *)
Lemma loadSecret_uncached (key : string) (w w0 : World)
    (providerSecret : string) (msgs pluginMsgs : list string)
    (pluginValue : Promise (option string)) :
  initialize w = (Normal tt, w0) ->
  cache w0 !! key = None ->
  providerSecretFor w key = Some (providerSecret, msgs) ->
  getSecret (plugin w) providerSecret = (pluginMsgs, pluginValue) ->
  let w1 := warn pluginMsgs (recordFetch providerSecret (warn msgs w0)) in
  loadSecret key w
  = match pluginValue with
    | Resolved (Some value) => (Resolved (Some value), cacheSet key value w1)
    | Resolved None => (Resolved None, w1)
    | Rejected e => (Rejected e, w1)
    end.
Proof.
  intros Hi Hc Hp Hg. unfold loadSecret. rewrite Hi, Hc.
  pose proof (providerSecretFor_initialize w key) as Hps.
  destruct (initialize_frame w) as ((Hpl & _) & _).
  rewrite Hi in Hps, Hpl. cbn [snd] in Hps, Hpl.
  rewrite Hps, Hp. simpl. rewrite Hpl, Hg. reflexivity.
Qed.

Lemma loadSecret_cached (key value : string) (w w0 : World) :
  initialize w = (Normal tt, w0) ->
  cache w0 !! key = Some value ->
  loadSecret key w = (Resolved (Some value), w0).
Proof. intros Hi H. unfold loadSecret. rewrite Hi, H. reflexivity. Qed.

Lemma loadSecret_throws (key : string) (w : World) (e : Error) :
  fst (initialize w) = Throw e ->
  loadSecret key w = (Rejected e, snd (initialize w)).
Proof.
  intros H. unfold loadSecret. destruct (initialize w) as [[[]|e'] w0]; cbn in *.
  - discriminate.
  - congruence.
Qed.

Lemma getSecretSync_returned (key : string) (w w0 : World) :
  initialize w = (Normal tt, w0) ->
  getSecretSync key w = (Normal (cache w0 !! key), w0).
Proof. intros H. unfold getSecretSync, bindM. rewrite H. reflexivity. Qed.

Lemma getPublicSync_returned (key : string) (w w0 : World) :
  initialize w = (Normal tt, w0) ->
  getPublicSync key w = (Normal (publicCache w0 !! key), w0).
Proof. intros H. unfold getPublicSync, bindM. rewrite H. reflexivity. Qed.

Lemma getSecretSync_throws (key : string) (w : World) (e : Error) :
  fst (initialize w) = Throw e ->
  getSecretSync key w = (Throw e, snd (initialize w)).
Proof.
  intros H. unfold getSecretSync, bindM.
  destruct (initialize w) as [[[]|e'] w0]; cbn in *; congruence.
Qed.

Lemma getPublicSync_throws (key : string) (w : World) (e : Error) :
  fst (initialize w) = Throw e ->
  getPublicSync key w = (Throw e, snd (initialize w)).
Proof.
  intros H. unfold getPublicSync, bindM.
  destruct (initialize w) as [[[]|e'] w0]; cbn in *; congruence.
Qed.

(** The two outcomes of [initialize]. *)
Lemma initialize_cases (w : World) :
  initialize w = (Normal tt, snd (initialize w))
  \/ exists e, initialize w = (Throw e, snd (initialize w)).
Proof.
  destruct (initialize w) as [[[]|e] w0]; [left | right; exists e]; reflexivity.
Qed.

End ManagerFacts.

(** C10.  When the initialisation of the manager returns, [loadSecret]
    finds the key outside the cache and the plugin answers with a value
    for the key it was handed, the value is stored under the requested
    key, every other entry of the cache stays as it was, and the next
    [loadSecret] or [getSecretSync] for the same key answers from the
    cache without a call of the plugin.  When the initialisation
    throws, the load rejects with its error. *)
Theorem loadSecret_caches_under_requested_key
    (key providerSecret value : string) (msgs pluginMsgs : list string)
    (w : Manager.World) :
  match Manager.initialize w with
  | (Throw e, w0) => Manager.loadSecret key w = (Rejected e, w0)
  | (Normal _, w0) =>
      Manager.cache w0 !! key = None ->
      Manager.providerSecretFor w key = Some (providerSecret, msgs) ->
      Plugin.getSecret (Manager.plugin w) providerSecret
      = (pluginMsgs, Resolved (Some value)) ->
      let w' := snd (Manager.loadSecret key w) in
      fst (Manager.loadSecret key w) = Resolved (Some value)
      /\ Manager.cache w' = <[key := value]> (Manager.cache w0)
      /\ Manager.fetched w' = providerSecret :: Manager.fetched w
      /\ Manager.loadSecret key w' = (Resolved (Some value), w')
      /\ Manager.getSecretSync key w' = (Normal (Some value), w')
  end.
Proof.
  pose proof (loadSecret_throws key w) as Hthrow.
  destruct (Manager.initialize w) as [[[]|e] w0] eqn:Hinit; cbn [fst snd] in *;
    [|exact (Hthrow e eq_refl)].
  intros Hc Hp Hg.
  rewrite (loadSecret_uncached key w w0 providerSecret msgs pluginMsgs _ Hinit Hc Hp Hg).
  simpl.
  destruct (initialize_frame w) as (_ & Hi & Hf & _).
  rewrite Hinit in Hi, Hf. cbn [snd] in Hi, Hf.
  split; [reflexivity|]. split; [reflexivity|]. split; [congruence|].
  match goal with |- Manager.loadSecret key ?x = _ /\ _ =>
    assert (Manager.initialize x = (Normal tt, x)) as Hx
      by (apply initialize_done; exact Hi);
    assert (Manager.cache x !! key = Some value) as Hk
      by (simpl; apply lookup_insert_eq)
  end.
  split.
  - exact (loadSecret_cached key value _ _ Hx Hk).
  - rewrite (getSecretSync_returned key _ _ Hx), Hk. reflexivity.
Qed.

(** A use of the theorem: the key [API_KEY] is fetched from the vault as
    [api-key] and cached as [API_KEY]. *)
Lemma loadSecret_caches_witness :
  Manager.providerSecretFor Examples.withVault "API_KEY"
  = Some ("api-key",
          [Plugin.formatWarning "Azure Key Vault" "API_KEY" "api-key"])
  /\ Manager.cache (snd (Manager.loadSecret "API_KEY" Examples.withVault))
     = <["API_KEY" := "s3cr3t"]> ∅
  /\ Manager.fetched (snd (Manager.loadSecret "API_KEY" Examples.withVault))
     = ["api-key"].
Proof.
  split; [reflexivity|].
  pose proof (loadSecret_caches_under_requested_key
                "API_KEY" "api-key" "s3cr3t"
                [Plugin.formatWarning "Azure Key Vault" "API_KEY" "api-key"] []
                Examples.withVault) as H.
  change (Manager.initialize Examples.withVault)
    with (@Normal unit tt, snd (Manager.initialize Examples.withVault)) in H.
  cbv beta iota zeta in H.
  destruct (H eq_refl eq_refl eq_refl) as (_ & Hc & Hf & _).
  split; [exact Hc | exact Hf].
Defined.

(** ** Provider failures *)

(** C5 as stated fails: with the hosted HashiCorp service unreachable the
    request of the plugin rejects, and so does the promise of
    [loadSecret] and the promise of the wrapper that the proxy returns;
    likewise when the service refuses the credentials of the plugin. *)
Lemma loadSecret_rejects_when_plugin_rejects :
  fst (Manager.loadSecret "db/password" Examples.hcpDown)
  = Rejected Examples.unreachable
  /\ fst (Manager.loadSecret "db/password" Examples.hcpDown) <> Resolved None
  /\ (exists sv, fst (Proxy.secrets "db/password" Examples.hcpDown) = Normal sv
                 /\ SecretValue.await sv = Rejected Examples.unreachable)
  /\ fst (Manager.loadSecret "db/password" Examples.hcpUnauthenticated)
     = Rejected Examples.authFailure.
Proof.
  split; [reflexivity|]. split; [discriminate|].
  split; [eexists; split; reflexivity | reflexivity].
Qed.

(** C5, as amended.  [loadSecret] has no handler of its own: when the
    initialisation of the manager returns and the promise of
    [plugin.getSecret] rejects, the promise of [loadSecret] rejects with
    the same error and the cache is left as it was.  A plugin that wraps
    its request in a [try], such as the AWS one, absorbs the failure
    itself: it writes a warning and resolves to [undefined], and
    [loadSecret] then resolves to [undefined] without a cache write,
    exactly as when the request finds nothing.  When the initialisation
    throws, the promise of [loadSecret] rejects with its error. *)
Theorem loadSecret_propagates_rejection_and_adapters_absorb
    (key : string) (w : Manager.World) :
  match Manager.initialize w with
  | (Throw e, w0) => Manager.loadSecret key w = (Rejected e, w0)
  | (Normal _, w0) =>
      Manager.cache w0 !! key = None ->
      (forall providerSecret msgs pluginMsgs e,
          Manager.providerSecretFor w key = Some (providerSecret, msgs) ->
          Plugin.getSecret (Manager.plugin w) providerSecret = (pluginMsgs, Rejected e) ->
          fst (Manager.loadSecret key w) = Rejected e
          /\ Manager.cache (snd (Manager.loadSecret key w)) = Manager.cache w0)
      /\ (forall send,
            Manager.plugin w = Plugin.AwsSecretsManagerPlugin (Resolved tt) (Some send) ->
            let providerSecret :=
              fst (Plugin.parseSecretName Plugin.awsName Providers.aws key) in
            let sent :=
              fst (Plugin.parseSecretName Plugin.awsName Providers.aws providerSecret) in
            (rejects (send sent) = true \/ send sent = Resolved None) ->
            fst (Manager.loadSecret key w) = Resolved None
            /\ Manager.cache (snd (Manager.loadSecret key w)) = Manager.cache w0
            /\ (rejects (send sent) = true ->
                In (Plugin.notFoundWarning sent)
                   (Manager.warnings (snd (Manager.loadSecret key w)))))
  end.
Proof.
  pose proof (loadSecret_throws key w) as Hthrow.
  destruct (Manager.initialize w) as [[[]|e0] w0] eqn:Hinit;
    [|exact (Hthrow e0 eq_refl)].
  cbv beta iota. intros Hc. split.
  - intros providerSecret msgs pluginMsgs e Hp Hg.
    rewrite (loadSecret_uncached key w w0 providerSecret msgs pluginMsgs _ Hinit Hc Hp Hg).
    split; reflexivity.
  - intros send Hpl providerSecret sent Hsend.
    assert (Manager.providerSecretFor w key
            = Some (Plugin.parseSecretName Plugin.awsName Providers.aws key)) as Hp.
    { unfold Manager.providerSecretFor. rewrite Hpl. reflexivity. }
    destruct (Plugin.parseSecretName Plugin.awsName Providers.aws key)
      as [ps msgs] eqn:Eps.
    simpl in providerSecret. subst providerSecret.
    destruct (Plugin.parseSecretName Plugin.awsName Providers.aws ps)
      as [sent' msgs'] eqn:Esent.
    simpl in sent. subst sent.
    destruct (send sent') as [[v|]|e] eqn:Es.
    + destruct Hsend as [H|H]; discriminate H.
    + assert (Plugin.getSecret (Manager.plugin w) ps = (msgs', Resolved None)) as Hg.
      { rewrite Hpl. simpl. unfold Plugin.awsGetSecret. rewrite Esent, Es. reflexivity. }
      rewrite (loadSecret_uncached key w w0 ps msgs msgs' _ Hinit Hc Hp Hg).
      repeat split. discriminate.
    + assert (Plugin.getSecret (Manager.plugin w) ps
              = ((msgs' ++ [Plugin.notFoundWarning sent'])%list, Resolved None)) as Hg.
      { rewrite Hpl. simpl. unfold Plugin.awsGetSecret. rewrite Esent, Es. reflexivity. }
      rewrite (loadSecret_uncached key w w0 ps msgs _ _ Hinit Hc Hp Hg).
      repeat split. intros _. simpl.
      apply in_or_app. left. rewrite rev_app_distr. simpl. left. reflexivity.
Qed.

(** A use of the theorem: with every AWS request failing, the load of
    [API_KEY] resolves to nothing and the warning is written. *)
Lemma loadSecret_adapter_witness :
  fst (Manager.loadSecret "API_KEY" Examples.awsDown) = Resolved None
  /\ In (Plugin.notFoundWarning "API_KEY")
        (Manager.warnings (snd (Manager.loadSecret "API_KEY" Examples.awsDown))).
Proof.
  pose proof (loadSecret_propagates_rejection_and_adapters_absorb
                "API_KEY" Examples.awsDown) as H0.
  change (Manager.initialize Examples.awsDown)
    with (@Normal unit tt, snd (Manager.initialize Examples.awsDown)) in H0.
  cbv beta iota in H0.
  destruct (H0 eq_refl) as (_ & H).
  destruct (H (fun _ => Rejected Examples.unreachable) eq_refl (or_introl eq_refl))
    as (Hr & _ & Hw).
  split; [exact Hr | exact (Hw eq_refl)].
Defined.

(** ** The access proxy *)

(** C2 as stated fails: in a fresh process whose [.secrets] file does
    not decrypt, the first access of a key with the public prefix runs
    [config] and throws its error; there is no wrapper to coerce.  The
    manager is flagged as initialised all the same, so the next access
    returns, with the empty string for the key that the files
    configure. *)
Lemma public_key_access_throws_when_config_throws :
  JS.startsWith "PUBLIC_APP_NAME" "PUBLIC_" = true
  /\ Manager.initialized Examples.locked = false
  /\ fst (Proxy.secrets "PUBLIC_APP_NAME" Examples.locked) = Throw DecryptionFailed
  /\ fst (Proxy.secrets "PUBLIC_APP_NAME"
            (snd (Proxy.secrets "PUBLIC_APP_NAME" Examples.locked)))
     = Normal (mkWrapper "PUBLIC_APP_NAME" (Some EmptyString) (Resolved EmptyString)).
Proof. repeat split. Qed.

(** C2, as amended.  For a key with the prefix [PUBLIC_], whatever the
    preload flag and the caches hold: when the initialisation of the
    manager returns, the proxy returns a wrapper that coerces
    synchronously without a throw, through [valueOf], [toString] and
    [toPrimitive] alike, to the very value that awaiting it gives, the
    entry of the public cache or the empty string when there is none,
    and no plugin is called; when the initialisation throws, which it
    does on the first access in a process whose [config] throws, the
    access throws the same error and returns no wrapper. *)
Theorem public_key_sync_coercion_equals_await (key : string) (w : Manager.World) :
  JS.startsWith key "PUBLIC_" = true ->
  match Manager.initialize w with
  | (Normal _, w0) =>
      let v := Proxy.orEmpty (Manager.publicCache w0 !! key) in
      exists sv,
        Proxy.secrets key w = (Normal sv, w0)
        /\ SecretValue.valueOf sv = Normal v
        /\ SecretValue.toString sv = Normal v
        /\ SecretValue.toPrimitive sv = Normal v
        /\ SecretValue.await sv = Resolved v
        /\ Manager.fetched w0 = Manager.fetched w
  | (Throw e, w0) =>
      Proxy.secrets key w = (Throw e, w0)
      /\ Manager.initialized w = false
      /\ ConfigFiles.outcome (Manager.configured w) = Throw e
  end.
Proof.
  intros Hpub.
  pose proof (initialize_frame w) as (_ & _ & Hf & _).
  pose proof (initialize_throws w) as Ht.
  unfold Proxy.secrets. rewrite Hpub. unfold Manager.bindM, Manager.getPublicSync, Manager.bindM.
  destruct (Manager.initialize w) as [[[]|e] w0]; cbn [fst snd] in *.
  - eexists. split; [reflexivity|]. repeat split. exact Hf.
  - split; [reflexivity|]. apply Ht. reflexivity.
Qed.

(** A use of the theorem, before any preload: a configured public key
    and one that no file mentions. *)
Lemma public_key_witness :
  JS.startsWith "PUBLIC_APP_NAME" "PUBLIC_" = true
  /\ JS.startsWith "PUBLIC_MISSING" "PUBLIC_" = true
  /\ (exists sv, fst (Proxy.secrets "PUBLIC_APP_NAME" Examples.local) = Normal sv
                 /\ SecretValue.valueOf sv = Normal "demo"
                 /\ SecretValue.await sv = Resolved "demo")
  /\ (exists sv, fst (Proxy.secrets "PUBLIC_MISSING" Examples.local) = Normal sv
                 /\ SecretValue.valueOf sv = Normal EmptyString
                 /\ SecretValue.await sv = Resolved EmptyString).
Proof.
  split; [reflexivity|]. split; [reflexivity|].
  pose proof (public_key_sync_coercion_equals_await
                "PUBLIC_APP_NAME" Examples.local eq_refl) as H1.
  pose proof (public_key_sync_coercion_equals_await
                "PUBLIC_MISSING" Examples.local eq_refl) as H2.
  cbv beta iota zeta in H1, H2.
  change (Manager.initialize Examples.local)
    with (@Normal unit tt, snd (Manager.initialize Examples.local)) in H1, H2.
  cbv beta iota in H1, H2.
  destruct H1 as (sv1 & E1 & V1 & _ & _ & A1 & _).
  destruct H2 as (sv2 & E2 & V2 & _ & _ & A2 & _).
  split.
  - exists sv1. rewrite E1. repeat split; assumption.
  - exists sv2. rewrite E2. repeat split; assumption.
Defined.

(** C3 as stated fails: a preload that finds no reference sets the
    flag without a look into the cache, so the manager is not
    initialised; the first access of a key then runs [config], and in a
    process whose [.secrets] file does not decrypt it throws. *)
Lemma absent_key_access_throws_when_config_throws :
  Preload.preloadAllSecrets [] Examples.locked
  = (Resolved tt, Manager.markPreloadExecuted Examples.locked)
  /\ Manager.preloadExecuted (Manager.markPreloadExecuted Examples.locked) = true
  /\ Manager.cache (Manager.markPreloadExecuted Examples.locked) !! "SHOULD_THROW" = None
  /\ fst (Proxy.secrets "SHOULD_THROW" (Manager.markPreloadExecuted Examples.locked))
     = Throw DecryptionFailed.
Proof. repeat split. Qed.

(** C3, as amended.  With the preload flag set, the access of a key
    without the public prefix: when the initialisation of the manager
    returns and the private cache does not hold the key, the proxy
    returns a wrapper with the empty string as its sync value and as the
    value of its promise, calls no plugin and writes no cache entry;
    when the initialisation throws, which it does on the first access
    in a process whose [config] throws, the access throws the same
    error. *)
Theorem absent_key_after_preload_is_empty_string (key : string) (w : Manager.World) :
  Manager.preloadExecuted w = true ->
  JS.startsWith key "PUBLIC_" = false ->
  match Manager.initialize w with
  | (Normal _, w0) =>
      Manager.cache w0 !! key = None ->
      Proxy.secrets key w
      = (Normal (mkWrapper key (Some EmptyString) (Resolved EmptyString)), w0)
      /\ SecretValue.valueOf (mkWrapper key (Some EmptyString) (Resolved EmptyString))
         = Normal EmptyString
      /\ SecretValue.await (mkWrapper key (Some EmptyString) (Resolved EmptyString))
         = Resolved EmptyString
      /\ Manager.fetched w0 = Manager.fetched w
  | (Throw e, w0) =>
      Proxy.secrets key w = (Throw e, w0)
      /\ Manager.initialized w = false
      /\ ConfigFiles.outcome (Manager.configured w) = Throw e
  end.
Proof.
  intros Hpre Hpriv.
  pose proof (initialize_frame w) as ((_ & Hp & _) & _ & Hf & _).
  pose proof (initialize_throws w) as Ht.
  unfold Proxy.secrets. rewrite Hpriv.
  unfold Manager.bindM, Manager.getSecretSync, Manager.bindM.
  destruct (Manager.initialize w) as [[[]|e] w0]; cbn [fst snd] in *.
  - intros Habsent. rewrite Habsent, Hp, Hpre. repeat split. exact Hf.
  - split; [reflexivity|]. apply Ht. reflexivity.
Qed.

(** A use of the theorem: after [markPreloadExecuted], a key that
    nothing configures reads as the empty string. *)
Lemma absent_key_after_preload_witness :
  Manager.preloadExecuted (Manager.markPreloadExecuted Examples.local) = true
  /\ JS.startsWith "SHOULD_THROW" "PUBLIC_" = false
  /\ fst (Proxy.secrets "SHOULD_THROW" (Manager.markPreloadExecuted Examples.local))
     = Normal (mkWrapper "SHOULD_THROW" (Some EmptyString) (Resolved EmptyString)).
Proof.
  split; [reflexivity|]. split; [reflexivity|].
  pose proof (absent_key_after_preload_is_empty_string "SHOULD_THROW"
                (Manager.markPreloadExecuted Examples.local) eq_refl eq_refl) as H.
  change (Manager.initialize (Manager.markPreloadExecuted Examples.local))
    with (@Normal unit tt,
          snd (Manager.initialize (Manager.markPreloadExecuted Examples.local))) in H.
  cbv beta iota in H.
  destruct (H eq_refl) as (E & _). rewrite E. reflexivity.
Defined.

(** ** Bulk preload *)

Section PreloadFacts.

Import Manager.
Import Spec.

Lemma providerSecretFor_plugin (w w' : World) (key : string) :
  plugin w' = plugin w -> providerSecretFor w' key = providerSecretFor w key.
Proof. unfold providerSecretFor. intros ->. reflexivity. Qed.

Lemma answersNoValue_plugin (w w' : World) (key : string) :
  plugin w' = plugin w -> answersNoValue w key -> answersNoValue w' key.
Proof.
  intros Hpl. unfold answersNoValue.
  rewrite (providerSecretFor_plugin w w' key Hpl), Hpl. exact id.
Qed.

Lemma settled_transfer (w w' : World) (key : string) :
  plugin w' = plugin w ->
  (forall k, is_Some (cache w !! k) -> is_Some (cache w' !! k)) ->
  settled w key -> settled w' key.
Proof.
  intros Hpl Hmono [H | H]; [left; auto | right].
  exact (answersNoValue_plugin w w' key Hpl H).
Qed.

Lemma fetchesFor_transfer (w w' : World) (l : list string) :
  plugin w' = plugin w -> cache w' = cache w -> fetchesFor w' l = fetchesFor w l.
Proof.
  intros Hpl Hc. unfold fetchesFor.
  induction l as [|k l IH]; [reflexivity|].
  cbn [flat_map]. rewrite IH, Hc, (providerSecretFor_plugin w w' k Hpl). reflexivity.
Qed.

Lemma fetchesFor_cons (w : World) (k : string) (l : list string) :
  fetchesFor w (k :: l) = (fetchesFor w [k] ++ fetchesFor w l)%list.
Proof. unfold fetchesFor. cbn [flat_map]. rewrite app_nil_r. reflexivity. Qed.

(** One call of [loadSecret] in an initialised state. *)
Lemma loadSecret_effect (key : string) (w : World) :
  initialized w = true ->
  let w' := snd (loadSecret key w) in
  plugin w' = plugin w /\ initialized w' = true /\ publicCache w' = publicCache w
  /\ (forall k, is_Some (cache w !! k) -> is_Some (cache w' !! k))
  /\ settled w' key
  /\ (settled w key ->
      cache w' = cache w
      /\ fetched w' = (rev (fetchesFor w [key]) ++ fetched w)%list).
Proof.
  intros Hi. unfold loadSecret. rewrite (initialize_done w Hi).
  cbv beta iota.
  destruct (cache w !! key) as [v|] eqn:Hc.
  - simpl. repeat split; auto.
    + left. rewrite Hc. eauto.
    + unfold fetchesFor. simpl. rewrite Hc. reflexivity.
  - destruct (providerSecretFor w key) as [[ps msgs]|] eqn:Hp.
    + simpl. destruct (getSecret (plugin w) ps) as [pm pv] eqn:Hg.
      destruct pv as [[value|]|e]; simpl.
      * repeat split; auto.
        -- intros k Hk. destruct (decide (key = k)) as [->|Hne].
           ++ rewrite lookup_insert_eq. eauto.
           ++ rewrite lookup_insert_ne by assumption. exact Hk.
        -- left. simpl. rewrite lookup_insert_eq. eauto.
        -- exfalso. destruct H as [H|H].
           ++ rewrite Hc in H. destruct H; discriminate.
           ++ unfold answersNoValue in H. rewrite Hp, Hg in H. exact H.
        -- exfalso. destruct H as [H|H].
           ++ rewrite Hc in H. destruct H; discriminate.
           ++ unfold answersNoValue in H. rewrite Hp, Hg in H. exact H.
      * repeat split; auto.
        -- right. unfold answersNoValue, providerSecretFor in *. simpl.
           rewrite Hp, Hg. exact I.
        -- unfold fetchesFor. simpl. rewrite Hc, Hp. reflexivity.
      * repeat split; auto.
        -- right. unfold answersNoValue, providerSecretFor in *. simpl.
           rewrite Hp, Hg. exact I.
        -- unfold fetchesFor. simpl. rewrite Hc, Hp. reflexivity.
    + simpl. repeat split; auto.
      * right. unfold answersNoValue. rewrite Hp. exact I.
      * unfold fetchesFor. simpl. rewrite Hc, Hp. reflexivity.
Qed.

(** The calls of [loadSecret] for a list of keys. *)
Lemma loadEach_effect (ks : list string) (w : World) :
  initialized w = true ->
  let w' := snd (Preload.loadEach ks w) in
  plugin w' = plugin w /\ initialized w' = true /\ publicCache w' = publicCache w
  /\ (forall k, is_Some (cache w !! k) -> is_Some (cache w' !! k))
  /\ Forall (settled w') ks
  /\ (Forall (settled w) ks ->
      cache w' = cache w
      /\ fetched w' = (rev (fetchesFor w ks) ++ fetched w)%list).
Proof.
  revert w. induction ks as [|k ks IH]; intros w Hi; cbn [Preload.loadEach].
  - repeat split; auto.
  - destruct (loadSecret_effect k w Hi) as (Hpl & Hi1 & Hpub & Hmono & Hset & Hkeep).
    destruct (loadSecret k w) as [p w1] eqn:E1. cbn [snd] in *.
    destruct (IH w1 Hi1) as (Hpl2 & Hi2 & Hpub2 & Hmono2 & Hset2 & Hkeep2).
    destruct (Preload.loadEach ks w1) as [ps w2] eqn:E2. cbn [snd] in *.
    repeat split; try congruence.
    + intros k' Hk'. auto.
    + constructor; [|exact Hset2].
      exact (settled_transfer w1 w2 k Hpl2 Hmono2 Hset).
    + inversion H as [|? ? Hk Hks]; subst.
      destruct (Hkeep Hk) as (Hc1 & _).
      assert (Forall (settled w1) ks) as Hks1.
      { eapply Forall_impl; [exact Hks|]. intros k' Hk'.
        exact (settled_transfer w w1 k' Hpl Hmono Hk'). }
      destruct (Hkeep2 Hks1) as (Hc2 & _). congruence.
    + inversion H as [|? ? Hk Hks]; subst.
      destruct (Hkeep Hk) as (Hc1 & Hf1).
      assert (Forall (settled w1) ks) as Hks1.
      { eapply Forall_impl; [exact Hks|]. intros k' Hk'.
        exact (settled_transfer w w1 k' Hpl Hmono Hk'). }
      destruct (Hkeep2 Hks1) as (_ & Hf2).
      rewrite Hf2, Hf1, (fetchesFor_transfer w w1 ks Hpl Hc1).
      rewrite (fetchesFor_cons w k ks), rev_app_distr, <- app_assoc. reflexivity.
Qed.

(** The keys that [preloadAllSecrets] decides to load, and the state in
    which it does: the scan reads the cache, which the first read
    initialises. *)
Lemma keysToLoad_spec (references : list string) (w w0 : World) :
  initialize w = (Normal tt, w0) ->
  Preload.keysToLoad references w
  = (Normal (List.filter (fun k => Preload.falsy (cache w0 !! k)) references),
     match references with [] => w | _ => w0 end).
Proof.
  revert w. induction references as [|k rest IH]; intros w Hi; [reflexivity|].
  cbn [Preload.keysToLoad List.filter]. unfold bindM at 1.
  rewrite (getSecretSync_returned k w w0 Hi). unfold bindM.
  rewrite (IH w0 (initialize_returned w w0 Hi)).
  destruct rest; destruct (Preload.falsy (cache w0 !! k)); reflexivity.
Qed.

(** When the first read throws, so does the loop. *)
Lemma keysToLoad_throws (k : string) (rest : list string) (w : World) (e : Error) :
  fst (initialize w) = Throw e ->
  Preload.keysToLoad (k :: rest) w = (Throw e, snd (initialize w)).
Proof.
  intros H. cbn [Preload.keysToLoad]. unfold bindM at 1.
  rewrite (getSecretSync_throws k w e H). reflexivity.
Qed.

Lemma fetchesFor_falsy (w : World) (l : list string) :
  fetchesFor w (List.filter (fun k => Preload.falsy (cache w !! k)) l)
  = fetchesFor w l.
Proof.
  induction l as [|k l IH]; [reflexivity|].
  cbn [List.filter]. rewrite (fetchesFor_cons w k l).
  destruct (cache w !! k) as [v|] eqn:Hc; cbn [Preload.falsy].
  - assert (fetchesFor w [k] = []) as ->
      by (unfold fetchesFor; cbn [flat_map]; rewrite Hc; reflexivity).
    destruct (JS.isEmpty v); [|exact IH].
    rewrite (fetchesFor_cons w k), IH.
    unfold fetchesFor at 1. cbn [flat_map]. rewrite Hc. reflexivity.
  - rewrite (fetchesFor_cons w k), IH. reflexivity.
Qed.

(** The state that [preloadAllSecrets] leaves is the one after the
    loads, up to the preload flag. *)
Lemma preloadAllSecrets_world (references ks : list string) (w w0 : World) :
  Preload.keysToLoad references w = (Normal ks, w0) ->
  let wl := snd (Preload.loadEach ks w0) in
  let w1 := snd (Preload.preloadAllSecrets references w) in
  cache w1 = cache wl /\ publicCache w1 = publicCache wl
  /\ plugin w1 = plugin wl /\ initialized w1 = initialized wl
  /\ fetched w1 = fetched wl.
Proof.
  intros Hk. unfold Preload.preloadAllSecrets. rewrite Hk.
  destruct ks as [|k ks].
  - cbn. repeat split.
  - destruct (Preload.loadEach (k :: ks) w0) as [ps wl]. cbn [snd].
    destruct (Preload.all ps); cbn; repeat split.
Qed.

(** A preload whose first read throws rejects with that error and
    leaves the caches as they were. *)
Lemma preloadAllSecrets_throws (k : string) (rest : list string) (w : World) (e : Error) :
  fst (initialize w) = Throw e ->
  Preload.preloadAllSecrets (k :: rest) w = (Rejected e, snd (initialize w)).
Proof.
  intros H. unfold Preload.preloadAllSecrets.
  rewrite (keysToLoad_throws k rest w e H). reflexivity.
Qed.

End PreloadFacts.

(** After a run of [preloadAllSecrets] every reference is settled. *)
Lemma preloadAllSecrets_settles (r : string) (rest : list string) (w : Manager.World) :
  fst (Manager.initialize w) = Normal tt ->
  let w1 := snd (Preload.preloadAllSecrets (r :: rest) w) in
  Manager.initialized w1 = true /\ Forall (Spec.settled w1) (r :: rest).
Proof.
  intros Hinit w1.
  assert (Manager.initialize w = (Normal tt, snd (Manager.initialize w))) as Hi0'.
  { destruct (Manager.initialize w) as [c w']. cbn in *. congruence. }
  set (w0 := snd (Manager.initialize w)) in *.
  pose proof (keysToLoad_spec (r :: rest) w w0 Hi0') as Hk.
  cbv iota in Hk.
  destruct (preloadAllSecrets_world (r :: rest) _ w w0 Hk) as (Hc & _ & Hpl & Hi & _).
  fold w1 in Hc, Hpl, Hi.
  set (ks := List.filter (fun k => Preload.falsy (Manager.cache w0 !! k)) (r :: rest)) in *.
  assert (Manager.initialized w0 = true) as Hi0 by apply initialize_frame.
  destruct (loadEach_effect ks w0 Hi0) as (Hpl' & Hi' & _ & Hmono & Hset & _).
  set (wl := snd (Preload.loadEach ks w0)) in *.
  split; [congruence|].
  apply List.Forall_forall. intros k Hk'.
  assert (forall k', is_Some (Manager.cache wl !! k') -> is_Some (Manager.cache w1 !! k'))
    as Hsame by (intros k'; rewrite Hc; exact id).
  destruct (Preload.falsy (Manager.cache w0 !! k)) eqn:Hf.
  - apply (settled_transfer wl w1 k Hpl Hsame).
    rewrite List.Forall_forall in Hset. apply Hset.
    apply List.filter_In. split; assumption.
  - left. apply Hsame, Hmono.
    destruct (Manager.cache w0 !! k); [eauto | discriminate Hf].
Qed.

(** C6 as stated fails: in a fresh process whose [.secrets] file does
    not decrypt, the first call of the bulk preload rejects with the
    error of [config] before it loads anything; the manager is flagged
    as initialised all the same, so the second call goes on to the
    plugin and caches what the plugin answers.  The cache after two
    calls is not the cache after one. *)
Lemma preload_twice_differs_when_config_throws :
  let w1 := snd (Preload.preloadAllSecrets ["API_KEY"] Examples.locked) in
  let w2 := snd (Preload.preloadAllSecrets ["API_KEY"] w1) in
  fst (Preload.preloadAllSecrets ["API_KEY"] Examples.locked) = Rejected DecryptionFailed
  /\ Manager.cache w1 = ∅
  /\ fst (Preload.preloadAllSecrets ["API_KEY"] w1) = Resolved tt
  /\ Manager.cache w2 = <["API_KEY" := "from-env"]> ∅
  /\ Manager.cache w2 <> Manager.cache w1.
Proof.
  repeat split. intros H.
  apply (f_equal (fun m : gmap string string => m !! "API_KEY")) in H.
  vm_compute in H. discriminate H.
Qed.

(** C6, as amended.  When the initialisation of the manager returns, a
    second call of the bulk preload, for the same references and with
    the plugin answering as before, leaves the private and the public
    cache as the first call left them, and calls the plugin only for the
    references that the cache does not hold: once for each of them, with
    the key that the provider accepts.  When the initialisation throws,
    a first call that found a reference rejects with its error, with
    the caches as they were and no call of the plugin. *)
Theorem preload_twice_same_cache_no_refetch_of_cached_keys
    (references : list string) (w : Manager.World) :
  let w1 := snd (Preload.preloadAllSecrets references w) in
  let w2 := snd (Preload.preloadAllSecrets references w1) in
  match Manager.initialize w with
  | (Normal _, _) =>
      Manager.cache w2 = Manager.cache w1
      /\ Manager.publicCache w2 = Manager.publicCache w1
      /\ Manager.fetched w2
         = (rev (Spec.fetchesFor w1 references) ++ Manager.fetched w1)%list
      /\ (forall key value, Manager.cache w1 !! key = Some value ->
            Spec.fetchesFor w1 [key] = [])
  | (Throw e, w0) =>
      references <> [] ->
      Preload.preloadAllSecrets references w = (Rejected e, w0)
      /\ Manager.cache w0 = Manager.cache w
      /\ Manager.publicCache w0 = Manager.publicCache w
      /\ Manager.fetched w0 = Manager.fetched w
  end.
Proof.
  intros w1 w2.
  destruct (Manager.initialize w) as [[[]|e] w0] eqn:Hi.
  2:{ intros Hne. destruct references as [|k rest]; [contradiction|].
      pose proof (preloadAllSecrets_throws k rest w e) as Hp.
      pose proof (initialize_thrown w e) as Hc.
      pose proof (initialize_frame w) as (_ & _ & Hf & _).
      rewrite Hi in Hp, Hc, Hf. cbn [fst snd] in *.
      destruct (Hc eq_refl) as (Hc1 & Hc2).
      split; [exact (Hp eq_refl)|]. repeat split; assumption. }
  assert (fst (Manager.initialize w) = Normal tt) as Hinit by (rewrite Hi; reflexivity).
  clear Hi.
  assert (forall key value, Manager.cache w1 !! key = Some value ->
            Spec.fetchesFor w1 [key] = []) as Hcached.
  { intros key value H. unfold Spec.fetchesFor. cbn [flat_map]. rewrite H. reflexivity. }
  destruct references as [|r rest].
  - repeat split; try reflexivity. exact Hcached.
  - destruct (preloadAllSecrets_settles r rest w Hinit) as (Hi1 & Hset1).
    fold w1 in Hi1, Hset1.
    pose proof (keysToLoad_spec (r :: rest) w1 w1 (initialize_done w1 Hi1)) as Hk.
    cbv iota in Hk.
    destruct (preloadAllSecrets_world (r :: rest) _ w1 w1 Hk) as (Hc & Hpub & _ & _ & Hf).
    fold w2 in Hc, Hpub, Hf.
    set (ks := List.filter (fun k => Preload.falsy (Manager.cache w1 !! k)) (r :: rest)) in *.
    assert (Forall (Spec.settled w1) ks) as Hks.
    { apply List.Forall_forall. intros k Hk'.
      apply List.filter_In in Hk' as [Hk' _].
      rewrite List.Forall_forall in Hset1. exact (Hset1 k Hk'). }
    destruct (loadEach_effect ks w1 Hi1) as (_ & _ & Hpub' & _ & _ & Hkeep).
    destruct (Hkeep Hks) as (Hc' & Hf').
    split; [congruence|]. split; [congruence|]. split; [|exact Hcached].
    rewrite Hf, Hf'. unfold ks. rewrite (fetchesFor_falsy w1 (r :: rest)). reflexivity.
Qed.

(** A use of the theorem: the second preload of a process that refers
    to three keys fetches again only the one that no source holds. *)
Lemma preload_twice_witness :
  let w1 := snd (Preload.preloadAllSecrets ["KIKE"; "DB_HOST"; "MISSING"] Examples.local) in
  let w2 := snd (Preload.preloadAllSecrets ["KIKE"; "DB_HOST"; "MISSING"] w1) in
  fst (Manager.initialize Examples.local) = Normal tt
  /\ Manager.cache w2 = Manager.cache w1
  /\ Manager.fetched w1 = ["MISSING"; "KIKE"]
  /\ Manager.fetched w2 = ["MISSING"; "MISSING"; "KIKE"].
Proof.
  intros w1 w2.
  pose proof (preload_twice_same_cache_no_refetch_of_cached_keys
                ["KIKE"; "DB_HOST"; "MISSING"] Examples.local) as H.
  cbv zeta in H.
  change (Manager.initialize Examples.local)
    with (@Normal unit tt, snd (Manager.initialize Examples.local)) in H.
  cbv beta iota in H.
  destruct H as (Hc & _ & Hf & _).
  split; [reflexivity|]. split; [exact Hc|]. split; [reflexivity|].
  exact Hf.
Defined.

(** ** Variable expansion *)

Section ExpansionFacts.

Import Config.

Lemma append_empty_r (s : string) : s ++ EmptyString = s.
Proof.
  induction s as [|c s IH]; [reflexivity|].
  change (String c (s ++ EmptyString) = String c s). f_equal. exact IH.
Qed.

Lemma append_assoc (a b c : string) : (a ++ b) ++ c = a ++ (b ++ c).
Proof.
  induction a as [|x a IH]; [reflexivity|].
  change (String x ((a ++ b) ++ c) = String x (a ++ (b ++ c))). f_equal. exact IH.
Qed.

Lemma length_append (a b : string) :
  String.length (a ++ b) = (String.length a + String.length b)%nat.
Proof.
  induction a as [|x a IH]; [reflexivity|].
  change (S (String.length (a ++ b)) = S (String.length a + String.length b)).
  f_equal. exact IH.
Qed.

(** Text without a [$] is copied. *)
Lemma replaceFrom_plain (f : string -> string) (pre rest : string) :
  Spec.without dollar pre = true ->
  replaceFrom f Outside (pre ++ rest) = pre ++ replaceFrom f Outside rest.
Proof.
  induction pre as [|c pre IH]; simpl; [reflexivity|].
  intros H. apply andb_true_iff in H as [Hc Hpre].
  apply negb_true_iff in Hc. rewrite Hc, (IH Hpre). reflexivity.
Qed.



Lemma replaceReferences_plain (vars : Record_) (v : string) :
  Spec.without dollar v = true -> replaceReferences vars v = v.
Proof.
  intros Hplain. unfold replaceReferences.
  pose proof (replaceFrom_plain (valueOrEmpty vars) v EmptyString Hplain) as E.
  rewrite append_empty_r in E. simpl in E. rewrite append_empty_r in E. exact E.
Qed.

(** *** Reading and writing a record *)

Lemma get_replace_same (vars : Record_) (k v v0 : string) :
  get vars k = Some v0 -> get (replace vars k v) k = Some v.
Proof.
  induction vars as [|[k0 v1] rest IH]; simpl; [discriminate|].
  destruct (String.eqb_spec k0 k) as [-> | Hne]; simpl.
  - rewrite String.eqb_refl. reflexivity.
  - destruct (String.eqb_spec k0 k) as [E | _]; [contradiction | exact IH].
Qed.

Lemma get_replace_other (vars : Record_) (k k' v : string) :
  k <> k' -> get (replace vars k v) k' = get vars k'.
Proof.
  intros Hne. induction vars as [|[k0 v0] rest IH]; simpl; [reflexivity|].
  destruct (String.eqb_spec k0 k) as [-> | Hne0]; simpl.
  - destruct (String.eqb_spec k k') as [E | _]; [contradiction | reflexivity].
  - destruct (String.eqb_spec k0 k'); [reflexivity | exact IH].
Qed.

Lemma keys_replace (vars : Record_) (k v : string) :
  keys (replace vars k v) = keys vars.
Proof.
  induction vars as [|[k0 v1] rest IH]; simpl; [reflexivity|].
  destruct (String.eqb_spec k0 k) as [-> | Hne]; [reflexivity|].
  unfold keys in *. simpl. f_equal. exact IH.
Qed.


Lemma get_app (a b : Record_) (k : string) :
  get (a ++ b)%list k = match get a k with Some v => Some v | None => get b k end.
Proof.
  induction a as [|[k0 v0] a IH]; simpl; [reflexivity|].
  destruct (String.eqb k0 k); [reflexivity | exact IH].
Qed.

Lemma get_insertIndex_same (i : Z) (vars : Record_) (k v : string) :
  get vars k = None -> get (insertIndex i k v vars) k = Some v.
Proof.
  induction vars as [|[k0 v0] rest IH]; simpl.
  - rewrite String.eqb_refl. reflexivity.
  - destruct (String.eqb_spec k0 k) as [-> | Hne]; [discriminate|]. intros H.
    destruct (JS.arrayIndex k0) as [j|].
    + destruct (j <? i)%Z; simpl.
      * destruct (String.eqb_spec k0 k) as [E | _]; [contradiction | exact (IH H)].
      * rewrite String.eqb_refl. reflexivity.
    + simpl. rewrite String.eqb_refl. reflexivity.
Qed.

Lemma get_insertIndex_other (i : Z) (vars : Record_) (k k' v : string) :
  k <> k' -> get (insertIndex i k v vars) k' = get vars k'.
Proof.
  intros Hne. induction vars as [|[k0 v0] rest IH]; simpl.
  - destruct (String.eqb_spec k k') as [E | _]; [contradiction | reflexivity].
  - destruct (JS.arrayIndex k0) as [j|].
    + destruct (j <? i)%Z; simpl.
      * destruct (String.eqb k0 k'); [reflexivity | exact IH].
      * destruct (String.eqb_spec k k') as [E | _]; [contradiction | reflexivity].
    + simpl. destruct (String.eqb_spec k k') as [E | _]; [contradiction | reflexivity].
Qed.

Lemma get_add_same (vars : Record_) (k v : string) :
  get vars k = None -> get (add vars k v) k = Some v.
Proof.
  intros H. unfold add. destruct (JS.arrayIndex k) as [i|].
  - exact (get_insertIndex_same i vars k v H).
  - rewrite get_app, H. simpl. rewrite String.eqb_refl. reflexivity.
Qed.

Lemma get_add_other (vars : Record_) (k k' v : string) :
  k <> k' -> get (add vars k v) k' = get vars k'.
Proof.
  intros Hne. unfold add. destruct (JS.arrayIndex k) as [i|].
  - exact (get_insertIndex_other i vars k k' v Hne).
  - rewrite get_app. destruct (get vars k'); [reflexivity|]. simpl.
    destruct (String.eqb_spec k k') as [E | _]; [contradiction | reflexivity].
Qed.

Lemma set_present (vars : Record_) (k v v0 : string) :
  get vars k = Some v0 -> set vars k v = replace vars k v.
Proof. intros H. unfold set. rewrite H. reflexivity. Qed.

(** A write under a key other than [__proto__] is read back. *)
Lemma get_set_same (vars : Record_) (k v : string) :
  k <> "__proto__" -> get (set vars k v) k = Some v.
Proof.
  intros Hk. unfold set. destruct (get vars k) as [v0|] eqn:Hg.
  - exact (get_replace_same vars k v v0 Hg).
  - destruct (String.eqb_spec k "__proto__") as [E | _]; [contradiction|].
    exact (get_add_same vars k v Hg).
Qed.

Lemma get_set_present (vars : Record_) (k v v0 : string) :
  get vars k = Some v0 -> get (set vars k v) k = Some v.
Proof.
  intros H. rewrite (set_present vars k v v0 H). exact (get_replace_same vars k v v0 H).
Qed.

Lemma get_set_other (vars : Record_) (k k' v : string) :
  k <> k' -> get (set vars k v) k' = get vars k'.
Proof.
  intros Hne. unfold set. destruct (get vars k) as [v0|].
  - exact (get_replace_other vars k k' v Hne).
  - destruct (String.eqb k "__proto__"); [reflexivity|].
    exact (get_add_other vars k k' v Hne).
Qed.

Lemma keys_set (vars : Record_) (k v v0 : string) :
  get vars k = Some v0 -> keys (set vars k v) = keys vars.
Proof.
  intros H. rewrite (set_present vars k v v0 H). apply keys_replace.
Qed.


(** No write makes [__proto__] a property of the record. *)
Lemma plainKeys_set (vars : Record_) (k v : string) :
  Laws.plainKeys vars -> Laws.plainKeys (set vars k v).
Proof.
  unfold Laws.plainKeys. intros H.
  destruct (String.eqb_spec k "__proto__") as [-> | Hne].
  - unfold set. rewrite H. rewrite String.eqb_refl. exact H.
  - rewrite (get_set_other vars k "__proto__" v Hne). exact H.
Qed.


(** *** The sweep *)

Variable maxLength : nat.







Lemma sweep_keys (ks : list string) (vars vars' : Record_) (changed changed' : bool) :
  sweep maxLength ks vars changed = Normal (vars', changed') ->
  keys vars' = keys vars.
Proof.
  revert vars changed. induction ks as [|k ks IH]; intros vars changed; simpl.
  - intros [= <- _]. reflexivity.
  - destruct (get vars k) as [v|] eqn:Hg; [|apply IH].
    destruct (maxLength <? String.length (replaceReferences vars v))%nat;
      [discriminate|].
    destruct (String.eqb (replaceReferences vars v) v); [apply IH|].
    intros H. rewrite (IH _ _ H). exact (keys_set vars k _ v Hg).
Qed.

Lemma sweep_keeps_plain (ks : list string) (vars vars' : Record_)
    (changed changed' : bool) (key value : string) :
  sweep maxLength ks vars changed = Normal (vars', changed') ->
  get vars key = Some value -> Spec.without dollar value = true ->
  get vars' key = Some value.
Proof.
  intros Hs Hg Hplain. revert vars changed Hs Hg.
  induction ks as [|k ks IH]; intros vars changed; simpl.
  - intros [= <- _] Hg. exact Hg.
  - destruct (get vars k) as [v|] eqn:Hk; [|exact (IH vars changed)].
    destruct (maxLength <? String.length (replaceReferences vars v))%nat;
      [discriminate|].
    destruct (String.eqb_spec (replaceReferences vars v) v) as [_ | Hne];
      [exact (IH vars changed)|].
    intros Hs Hg. apply (IH _ _ Hs).
    destruct (String.eqb_spec k key) as [-> | Hkey].
    + rewrite Hg in Hk. injection Hk as <-.
      exfalso. exact (Hne (replaceReferences_plain vars value Hplain)).
    + rewrite (get_set_other vars k key _ Hkey). exact Hg.
Qed.

Lemma expandVariables_keys (fuel : nat) (vars out : Record_) :
  expandVariables maxLength fuel vars = Some (Normal out) ->
  keys out = keys vars
  /\ (forall key value, get vars key = Some value ->
        Spec.without dollar value = true -> get out key = Some value).
Proof.
  revert vars. induction fuel as [|fuel IH]; intros vars; simpl; [discriminate|].
  destruct (sweep maxLength (keys vars) vars false) as [[vars' changed]|e] eqn:E;
    [|discriminate].
  pose proof (sweep_keys _ _ _ _ _ E) as Hkeys.
  pose proof (fun key value => sweep_keeps_plain _ _ _ _ _ key value E) as Hplain.
  destruct changed.
  - intros H. destruct (IH vars' H) as (Hk & Hv). split; [congruence|].
    intros key value Hg Hp. exact (Hv key value (Hplain key value Hg Hp) Hp).
  - intros H. injection H as <-. split; [exact Hkeys | exact Hplain].
Qed.

End ExpansionFacts.

(** *** Values of text and references *)

Section TemplateFacts.

Import Config.
Import Spec.
Import Laws.










(** *** One substitution, on the pieces *)



















(** *** The strings and the pieces move together *)



Variable maxLength : nat.



(** *** References without a cycle *)

Variable rank : string -> nat.












(** *** The result and the input *)

Lemma fill_ext (f g : string -> string) (ps : list Piece) :
  (forall name, In name (refs ps) -> f name = g name) -> fill f ps = fill g ps.
Proof.
  induction ps as [|[t|name] ps IH]; cbn [fill refs flat_map app];
    [|fold (refs ps)..]; intros H.
  - reflexivity.
  - f_equal. exact (IH H).
  - rewrite (H name (or_introl eq_refl)). f_equal.
    apply IH. intros m Hm. apply H. right. exact Hm.
Qed.






(** *** The loop *)




End TemplateFacts.











(** ** Key normalisation *)

Section NormalizerFacts.

Import Providers.

Lemma allString_filter (p : ascii -> bool) (s : string) :
  JS.allString p (JS.filterString p s) = true.
Proof.
  induction s as [|c s IH]; simpl; [reflexivity|].
  destruct (p c) eqn:E; simpl; [rewrite E|]; exact IH.
Qed.

Lemma allString_slice0 (p : ascii -> bool) (n : nat) (s : string) :
  JS.allString p s = true -> JS.allString p (JS.slice0 n s) = true.
Proof.
  revert s. induction n as [|n IH]; intros [|c s]; simpl; try reflexivity.
  intros H. apply andb_true_iff in H as [Hc Hs]. rewrite Hc. exact (IH s Hs).
Qed.

Lemma allString_impl (p q : ascii -> bool) (s : string) :
  (forall c, p c = true -> q c = true) ->
  JS.allString p s = true -> JS.allString q s = true.
Proof.
  intros Hpq. induction s as [|c s IH]; simpl; [reflexivity|].
  intros H. apply andb_true_iff in H as [Hc Hs]. rewrite (Hpq c Hc). exact (IH Hs).
Qed.

Lemma allString_map (p q : ascii -> bool) (f : ascii -> ascii) (s : string) :
  (forall c, p c = true -> q (f c) = true) ->
  JS.allString p s = true -> JS.allString q (JS.mapString f s) = true.
Proof.
  intros Hpq. induction s as [|c s IH]; simpl; [reflexivity|].
  intros H. apply andb_true_iff in H as [Hc Hs]. rewrite (Hpq c Hc). exact (IH Hs).
Qed.

Lemma length_slice0 (n : nat) (s : string) : (String.length (JS.slice0 n s) <= n)%nat.
Proof.
  revert s. induction n as [|n IH]; intros [|c s]; simpl; try lia.
  specialize (IH s). lia.
Qed.

Lemma lengthIn_spec (lo hi : nat) (s : string) :
  lengthIn lo hi s = true <-> (lo <= String.length s <= hi)%nat.
Proof. unfold lengthIn. rewrite andb_true_iff, !Nat.leb_le. reflexivity. Qed.

Lemma nonempty_length (s : string) : s <> EmptyString -> (1 <= String.length s)%nat.
Proof. destruct s; [contradiction | simpl; lia]. Qed.

(** The characters that the normaliser of [akeyless] keeps end no line. *)
Lemma hashicorpChar_not_terminator (c : ascii) :
  hashicorpChar c = true -> negb (JS.isLineTerminator c) = true.
Proof.
  destruct c as [[] [] [] [] [] [] [] []]; vm_compute; congruence.
Qed.

(** The replacement of the hyphen by the underscore stays inside the
    class of [aws]. *)
Lemma awsChar_after_replace (c : ascii) :
  awsChar c = true -> awsChar (if isChar "-" c then underscore else c) = true.
Proof. destruct (isChar "-" c); [reflexivity | exact id]. Qed.

Lemma validate_empty (provider : Provider) :
  validateSecretName provider EmptyString = false.
Proof. destruct provider; reflexivity. Qed.

Lemma gcp_normalized_valid (key : string) :
  normalizeSecretName gcp key <> EmptyString ->
  validateSecretName gcp (normalizeSecretName gcp key) = true.
Proof.
  intros Hne. unfold validateSecretName. apply andb_true_iff. split.
  - apply lengthIn_spec. split; [exact (nonempty_length _ Hne)|].
    unfold normalizeSecretName. apply length_slice0.
  - unfold normalizeSecretName. apply allString_slice0, allString_filter.
Qed.

Lemma cyberark_normalized_valid (key : string) :
  normalizeSecretName cyberark key <> EmptyString ->
  validateSecretName cyberark (normalizeSecretName cyberark key) = true.
Proof.
  intros Hne. unfold validateSecretName. apply andb_true_iff. split.
  - apply lengthIn_spec. split; [exact (nonempty_length _ Hne)|].
    unfold normalizeSecretName. apply length_slice0.
  - unfold normalizeSecretName. apply allString_slice0, allString_filter.
Qed.

Lemma akeyless_normalized_valid (key : string) :
  normalizeSecretName akeyless key <> EmptyString ->
  validateSecretName akeyless (normalizeSecretName akeyless key) = true.
Proof.
  intros Hne. unfold validateSecretName, anyLine. apply andb_true_iff. split.
  - destruct (normalizeSecretName akeyless key); [contradiction | reflexivity].
  - unfold normalizeSecretName, keepOnly.
    apply (allString_impl hashicorpChar); [exact hashicorpChar_not_terminator|].
    apply allString_filter.
Qed.

Lemma aws_normalized_valid (key : string) :
  normalizeSecretName aws key <> EmptyString ->
  (String.length (normalizeSecretName aws key) <= 512)%nat ->
  validateSecretName aws (normalizeSecretName aws key) = true.
Proof.
  intros Hne Hlen. unfold validateSecretName. apply andb_true_iff. split.
  - apply lengthIn_spec. split; [exact (nonempty_length _ Hne) | exact Hlen].
  - unfold normalizeSecretName, replaceChar, keepOnly.
    apply (allString_map awsChar); [exact awsChar_after_replace|].
    apply allString_filter.
Qed.

Lemma allString_dropWhileStart (p q : ascii -> bool) (s : string) :
  JS.allString q s = true -> JS.allString q (JS.dropWhileStart p s) = true.
Proof.
  induction s as [|c s IH]; simpl; [reflexivity|].
  intros H. destruct (p c); [|exact H].
  apply andb_true_iff in H as [_ Hs]. exact (IH Hs).
Qed.

Lemma allString_dropWhileEnd (p q : ascii -> bool) (s : string) :
  JS.allString q s = true -> JS.allString q (JS.dropWhileEnd p s) = true.
Proof.
  induction s as [|c s IH]; simpl; [reflexivity|].
  intros H. apply andb_true_iff in H as [Hc Hs]. specialize (IH Hs).
  destruct (JS.dropWhileEnd p s) as [|d r].
  - destruct (p c); simpl; [reflexivity | rewrite Hc; reflexivity].
  - simpl in *. rewrite Hc. exact IH.
Qed.

Lemma allString_replaceRunsFrom (p q : ascii -> bool) (by_ : ascii) (inRun : bool)
    (s : string) :
  q by_ = true ->
  JS.allString q s = true -> JS.allString q (replaceRunsFrom p by_ inRun s) = true.
Proof.
  intros Hby. revert inRun. induction s as [|c s IH]; intros inRun; simpl; [reflexivity|].
  intros H. apply andb_true_iff in H as [Hc Hs].
  destruct (p c); [destruct inRun|]; simpl; rewrite ?Hby, ?Hc; exact (IH _ Hs).
Qed.

Lemma allString_dropLastIf (p q : ascii -> bool) (s : string) :
  JS.allString q s = true -> JS.allString q (dropLastIf p s) = true.
Proof.
  induction s as [|c s IH]; [reflexivity|].
  intros H. pose proof H as H'. simpl in H'. apply andb_true_iff in H' as [Hc Hs].
  destruct s as [|d r].
  - simpl. destruct (p c); [reflexivity | exact H].
  - change (dropLastIf p (String c (String d r)))
      with (String c (dropLastIf p (String d r))).
    simpl. rewrite Hc. exact (IH Hs).
Qed.

(** What is left of a string after its ends are stripped begins and ends
    outside of the stripped class. *)
Lemma dropWhileStart_head (p : ascii -> bool) (s : string) (c : ascii) (r : string) :
  JS.dropWhileStart p s = String c r -> p c = false.
Proof.
  induction s as [|d s IH]; simpl; [discriminate|].
  destruct (p d) eqn:E; [exact IH|]. intros H. injection H as <- _. exact E.
Qed.

Lemma dropWhileEnd_head (p : ascii -> bool) (c : ascii) (r : string) :
  p c = false -> exists r', JS.dropWhileEnd p (String c r) = String c r'.
Proof.
  intros Hc. simpl. destruct (JS.dropWhileEnd p r); [rewrite Hc|]; eauto.
Qed.

Lemma dropWhileEnd_last (p : ascii -> bool) (s : string) (d : ascii) :
  lastChar (JS.dropWhileEnd p s) = Some d -> p d = false.
Proof.
  induction s as [|c s IH]; simpl; [discriminate|].
  destruct (JS.dropWhileEnd p s) as [|e r] eqn:E.
  - destruct (p c) eqn:Hc; simpl; [discriminate|]. intros H. injection H as <-. exact Hc.
  - intros H. apply IH. exact H.
Qed.

Lemma stripEnds_ends (p : ascii -> bool) (s : string) (c : ascii) (r : string) :
  stripEnds p s = String c r ->
  p c = false /\ (forall d, lastChar (String c r) = Some d -> p d = false).
Proof.
  unfold stripEnds. intros H. split.
  - destruct (JS.dropWhileStart p s) as [|c' r'] eqn:E; [discriminate H|].
    pose proof (dropWhileStart_head p s c' r' E) as Hc'.
    destruct (dropWhileEnd_head p c' r' Hc') as (r'' & E').
    rewrite E' in H. injection H as <- _. exact Hc'.
  - intros d Hd. rewrite <- H in Hd. exact (dropWhileEnd_last p _ d Hd).
Qed.

Lemma lastChar_cons (c d : ascii) (r : string) :
  lastChar (String c (String d r)) = lastChar (String d r).
Proof. reflexivity. Qed.

Lemma lastChar_some (c : ascii) (r : string) : exists d, lastChar (String c r) = Some d.
Proof.
  revert c. induction r as [|e r IH]; intros c; [eexists; reflexivity|].
  rewrite lastChar_cons. apply IH.
Qed.

(** A string of a class that begins and ends outside of a set of edge
    characters matches a pattern of the shape
    [first inner* last], once the lengths agree. *)
Lemma first_inner_last (class edge inner good : ascii -> bool) (c : ascii) (r : string) :
  (forall x, class x = true -> inner x = true) ->
  (forall x, class x = true -> edge x = false -> good x = true) ->
  JS.allString class (String c r) = true ->
  edge c = false ->
  (forall d, lastChar (String c r) = Some d -> edge d = false) ->
  good c = true
  /\ JS.allString inner r = true
  /\ (r <> EmptyString -> endsIn good r = true).
Proof.
  intros Hinner Hgood Hall Hc Hlast.
  simpl in Hall. apply andb_true_iff in Hall as [Hcc Hr].
  split; [exact (Hgood c Hcc Hc)|].
  split; [exact (allString_impl class inner r Hinner Hr)|].
  intros Hne. destruct r as [|e r]; [contradiction|].
  rewrite lastChar_cons in Hlast.
  destruct (lastChar_some e r) as (d & Hd). unfold endsIn. rewrite Hd.
  apply Hgood; [|exact (Hlast d Hd)].
  clear -Hr Hd. revert e Hr Hd. induction r as [|x r IH]; intros e Hr Hd.
  - simpl in Hd. injection Hd as <-. simpl in Hr.
    apply andb_true_iff in Hr as [He _]. exact He.
  - rewrite lastChar_cons in Hd. simpl in Hr. apply andb_true_iff in Hr as [_ Hr].
    exact (IH x Hr Hd).
Qed.

Lemma lowerDigitHyphen_alnumHyphen (c : ascii) :
  lowerDigitHyphen c = true -> alnumHyphen c = true.
Proof. destruct c as [[] [] [] [] [] [] [] []]; vm_compute; congruence. Qed.

Lemma lowerDigitHyphen_alnum (c : ascii) :
  lowerDigitHyphen c = true -> isChar "-" c = false -> JS.isAlnum c = true.
Proof. destruct c as [[] [] [] [] [] [] [] []]; vm_compute; congruence. Qed.

Lemma ibmLowerChar_ibmChar (c : ascii) : ibmLowerChar c = true -> ibmChar c = true.
Proof. destruct c as [[] [] [] [] [] [] [] []]; vm_compute; congruence. Qed.

Lemma ibmLowerChar_alnum (c : ascii) :
  ibmLowerChar c = true -> ibmEdge c = false -> JS.isAlnum c = true.
Proof. destruct c as [[] [] [] [] [] [] [] []]; vm_compute; congruence. Qed.

Lemma hashicorpLowerChar_hashicorpChar (c : ascii) :
  hashicorpLowerChar c = true -> hashicorpChar c = true.
Proof. destruct c as [[] [] [] [] [] [] [] []]; vm_compute; congruence. Qed.

Lemma hashicorpLowerChar_alnum (c : ascii) :
  hashicorpLowerChar c = true -> hashicorpEdge c = false -> JS.isAlnum c = true.
Proof. destruct c as [[] [] [] [] [] [] [] []]; vm_compute; congruence. Qed.

Lemma kebab_class (key : string) : JS.allString lowerDigitHyphen (kebab key) = true.
Proof.
  unfold kebab, stripEnds, replaceRuns, keepOnly.
  apply allString_dropWhileEnd, allString_dropWhileStart.
  apply allString_replaceRunsFrom; [reflexivity|]. apply allString_filter.
Qed.

Lemma kebab_valid (key : string) :
  kebab key <> EmptyString ->
  (String.length (kebab key) <= 127)%nat ->
  match kebab key with
  | EmptyString => false
  | String c r =>
      JS.isAlnum c &&
      (JS.isEmpty r ||
       (lengthIn 1 126 r && JS.allString alnumHyphen r && endsIn JS.isAlnum r))
  end = true.
Proof.
  intros Hne Hlen. pose proof (kebab_class key) as Hclass.
  destruct (kebab key) as [|c r] eqn:E; [contradiction|].
  destruct (stripEnds_ends _ _ c r E) as (Hc & Hlast).
  destruct (first_inner_last lowerDigitHyphen (isChar "-") alnumHyphen JS.isAlnum c r
              lowerDigitHyphen_alnumHyphen lowerDigitHyphen_alnum Hclass Hc Hlast)
    as (Hfirst & Hinner & Hend).
  rewrite Hfirst. simpl. destruct r as [|d r]; [reflexivity|].
  rewrite Hinner, (Hend ltac:(discriminate)). simpl JS.isEmpty. simpl orb.
  rewrite !andb_true_r. apply lengthIn_spec. simpl in *. lia.
Qed.

Lemma azure_normalized_valid (provider : Provider) (key : string) :
  provider = azure \/ provider = bytehide ->
  normalizeSecretName provider key <> EmptyString ->
  (String.length (normalizeSecretName provider key) <= 127)%nat ->
  validateSecretName provider (normalizeSecretName provider key) = true.
Proof. intros [-> | ->]; exact (kebab_valid (JS.trim key)). Qed.

Lemma ibm_normalized_valid (key : string) :
  (2 <= String.length (normalizeSecretName ibm key) <= 256)%nat ->
  validateSecretName ibm (normalizeSecretName ibm key) = true.
Proof.
  intros Hlen.
  assert (JS.allString ibmLowerChar (normalizeSecretName ibm key) = true) as Hclass.
  { unfold normalizeSecretName, stripEnds, keepOnly.
    apply allString_dropWhileEnd, allString_dropWhileStart, allString_filter. }
  unfold validateSecretName.
  destruct (normalizeSecretName ibm key) as [|c r] eqn:E; [simpl in Hlen; lia|].
  destruct (stripEnds_ends _ _ c r E) as (Hc & Hlast).
  destruct (first_inner_last ibmLowerChar ibmEdge ibmChar JS.isAlnum c r
              ibmLowerChar_ibmChar ibmLowerChar_alnum Hclass Hc Hlast)
    as (Hfirst & Hinner & Hend).
  assert (r <> EmptyString) as Hr by (destruct r; [simpl in Hlen; lia | discriminate]).
  rewrite Hfirst, Hinner, (Hend Hr), !andb_true_r. simpl.
  apply lengthIn_spec. simpl in Hlen. lia.
Qed.

Lemma hashicorp_normalized_valid (key : string) :
  (2 <= String.length (normalizeSecretName hashicorp key))%nat ->
  validateSecretName hashicorp (normalizeSecretName hashicorp key) = true.
Proof.
  intros Hlen.
  assert (JS.allString hashicorpLowerChar (normalizeSecretName hashicorp key) = true)
    as Hclass.
  { unfold normalizeSecretName, stripEnds, keepOnly.
    apply allString_dropWhileEnd, allString_dropWhileStart, allString_filter. }
  unfold validateSecretName.
  destruct (normalizeSecretName hashicorp key) as [|c r] eqn:E; [simpl in Hlen; lia|].
  destruct (stripEnds_ends _ _ c r E) as (Hc & Hlast).
  destruct (first_inner_last hashicorpLowerChar hashicorpEdge hashicorpChar JS.isAlnum c r
              hashicorpLowerChar_hashicorpChar hashicorpLowerChar_alnum Hclass Hc Hlast)
    as (Hfirst & Hinner & Hend).
  assert (r <> EmptyString) as Hr by (destruct r; [simpl in Hlen; lia | discriminate]).
  rewrite Hfirst, Hinner, (Hend Hr). reflexivity.
Qed.

Lemma doppler_normalized_valid (key : string) :
  startsIn JS.isUpper (normalizeSecretName doppler key) = true ->
  validateSecretName doppler (normalizeSecretName doppler key) = true.
Proof.
  intros Hstart.
  assert (JS.allString upperDigitUnderscore (normalizeSecretName doppler key) = true)
    as Hclass.
  { unfold normalizeSecretName, replaceOutside.
    set (s := JS.mapString _ _).
    assert (JS.allString upperDigitUnderscore s = true) as Hs.
    { unfold s. apply (allString_map (fun _ => true)).
      - intros c _. destruct (upperDigitUnderscore c) eqn:E; [exact E | reflexivity].
      - clear. induction (JS.toUpperCase (JS.trim key)) as [|c r IH];
          [reflexivity | exact IH]. }
    clearbody s. unfold dopplerStrip. destruct s as [|c r]; [reflexivity|].
    simpl in Hs. apply andb_true_iff in Hs as [Hc Hr].
    pose proof (allString_dropLastIf (fun d => negb (upperDigitUnderscore d))
                  upperDigitUnderscore r Hr) as Hr'.
    destruct (JS.isUpper c); [simpl; rewrite Hc|]; exact Hr'. }
  unfold validateSecretName.
  destruct (normalizeSecretName doppler key) as [|c r]; [discriminate Hstart|].
  simpl in Hstart, Hclass. apply andb_true_iff in Hclass as [_ Hr].
  rewrite Hstart, Hr. reflexivity.
Qed.

Lemma allString_append (p : ascii -> bool) (a b : string) :
  JS.allString p (a ++ b) = JS.allString p a && JS.allString p b.
Proof.
  induction a as [|c a IH]; [reflexivity|].
  change (p c && JS.allString p (a ++ b) = p c && JS.allString p a && JS.allString p b).
  rewrite IH, andb_assoc. reflexivity.
Qed.

(** The capital of a character is allowed in the name of an environment
    variable exactly when the character is. *)
Lemma envStart_upperChar (c : ascii) : envStart (JS.upperChar c) = envStart c.
Proof. destruct c as [[] [] [] [] [] [] [] []]; vm_compute; congruence. Qed.

Lemma envChar_upperChar (c : ascii) : envChar (JS.upperChar c) = envChar c.
Proof. destruct c as [[] [] [] [] [] [] [] []]; vm_compute; congruence. Qed.

Lemma sharpS_outside (c : ascii) :
  Ascii.eqb c JS.sharpS = true -> envStart c = false /\ envChar c = false.
Proof. destruct c as [[] [] [] [] [] [] [] []]; vm_compute; split; congruence. Qed.

Lemma envChar_toUpperCase (s : string) :
  JS.allString envChar (JS.toUpperCase s)
  = JS.allString (fun d => envChar d || Ascii.eqb d JS.sharpS) s.
Proof.
  induction s as [|c s IH]; [reflexivity|].
  cbn [JS.toUpperCase JS.allString]. rewrite allString_append, IH. f_equal.
  unfold JS.upperString. destruct (Ascii.eqb c JS.sharpS) eqn:E.
  - rewrite orb_true_r. reflexivity.
  - cbn [JS.allString]. rewrite envChar_upperChar, andb_true_r, orb_false_r. reflexivity.
Qed.

(** The upper case of a key is the name of an environment variable
    exactly when the key is one of the sources of such names. *)
Lemma env_toUpperCase_valid (s : string) :
  validateSecretName env (JS.toUpperCase s) = Laws.envSource s.
Proof.
  destruct s as [|c s]; [reflexivity|].
  unfold Laws.envSource. rewrite <- envChar_toUpperCase.
  cbn [JS.toUpperCase]. unfold JS.upperString.
  destruct (Ascii.eqb c JS.sharpS) eqn:E.
  - rewrite orb_true_r. reflexivity.
  - rewrite orb_false_r.
    change (envStart (JS.upperChar c) && JS.allString envChar (JS.toUpperCase s)
            = envStart c && JS.allString envChar (JS.toUpperCase s)).
    rewrite envStart_upperChar. reflexivity.
Qed.

Lemma envSource_valid (s : string) :
  validateSecretName env s = true -> Laws.envSource s = true.
Proof.
  destruct s as [|c s]; [discriminate|].
  cbn [validateSecretName Laws.envSource]. intros H.
  apply andb_true_iff in H as [Hc Hs]. rewrite Hc. cbn [orb andb].
  apply (allString_impl envChar); [|exact Hs].
  intros d ->. reflexivity.
Qed.

Lemma envSource_plain (s : string) :
  Spec.without JS.sharpS s = true -> Laws.envSource s = validateSecretName env s.
Proof.
  destruct s as [|c s]; [reflexivity|].
  unfold Spec.without. cbn [JS.allString validateSecretName Laws.envSource].
  intros H. apply andb_true_iff in H as [Hc Hs].
  apply negb_true_iff in Hc. rewrite Hc, orb_false_r. f_equal.
  induction s as [|d s IH]; [reflexivity|].
  cbn [JS.allString] in *. apply andb_true_iff in Hs as [Hd Hs].
  apply negb_true_iff in Hd. rewrite Hd, orb_false_r, (IH Hs). reflexivity.
Qed.

End NormalizerFacts.

(** C4 as stated fails: for the local provider the normaliser only trims
    and upper-cases, so the dot of [my.key] stays and the normalised key
    is rejected by the pattern of the provider. *)
Lemma normalized_env_key_is_not_valid :
  Providers.normalizeSecretName Providers.env "my.key" = "MY.KEY"
  /\ Providers.validateSecretName Providers.env
       (Providers.normalizeSecretName Providers.env "my.key") = false
  /\ ~ (forall provider key,
          Providers.validateSecretName provider
            (Providers.normalizeSecretName provider key) = true).
Proof.
  split; [reflexivity|]. split; [reflexivity|].
  intros H. specialize (H Providers.env "my.key"). discriminate H.
Qed.

(** C4, as amended, for keys in the Latin-1 range.
    [normalizeSecretName] returns a string for every
    provider and key, and an empty result satisfies the pattern of no
    provider.  The result satisfies the pattern of its provider: for
    [gcp], [cyberark] and [akeyless] whenever it is not empty; for [aws]
    whenever it is not empty and at most 512 characters long; for
    [azure] and [bytehide] whenever it is not empty and at most 127
    characters long; for [ibm] whenever it is 2 to 256 characters long;
    for [hashicorp] whenever it is at least 2 characters long; for
    [doppler] whenever it begins with a capital letter.  For [keeper]
    and [onepassword] the result is the trimmed key, valid exactly when
    it is not empty and holds no line terminator.  For [env] the result
    is the upper case of the trimmed key, valid exactly when the
    trimmed key begins with a letter, an underscore or a sharp s and goes
    on with letters, digits, underscores and sharp s, whose upper case
    is [SS]: a valid trimmed key stays valid, and without a sharp s the
    result is valid only when the trimmed key is. *)
Theorem normalizeSecretName_valid_unless_empty (key : string) :
  let normalized provider := Providers.normalizeSecretName provider key in
  let valid provider :=
    Providers.validateSecretName provider (normalized provider) = true in
  (forall provider, normalized provider = EmptyString ->
     Providers.validateSecretName provider (normalized provider) = false)
  /\ (normalized Providers.gcp <> EmptyString -> valid Providers.gcp)
  /\ (normalized Providers.cyberark <> EmptyString -> valid Providers.cyberark)
  /\ (normalized Providers.akeyless <> EmptyString -> valid Providers.akeyless)
  /\ (normalized Providers.aws <> EmptyString ->
      (String.length (normalized Providers.aws) <= 512)%nat -> valid Providers.aws)
  /\ (forall provider, provider = Providers.azure \/ provider = Providers.bytehide ->
        normalized provider <> EmptyString ->
        (String.length (normalized provider) <= 127)%nat -> valid provider)
  /\ ((2 <= String.length (normalized Providers.ibm) <= 256)%nat -> valid Providers.ibm)
  /\ ((2 <= String.length (normalized Providers.hashicorp))%nat ->
      valid Providers.hashicorp)
  /\ (Providers.startsIn JS.isUpper (normalized Providers.doppler) = true ->
      valid Providers.doppler)
  /\ (forall provider,
        provider = Providers.keeper \/ provider = Providers.onepassword ->
        normalized provider = JS.trim key
        /\ Providers.validateSecretName provider (normalized provider)
           = negb (JS.isEmpty (JS.trim key))
             && JS.allString (fun c => negb (JS.isLineTerminator c)) (JS.trim key))
  /\ (normalized Providers.env = JS.toUpperCase (JS.trim key)
      /\ Providers.validateSecretName Providers.env (normalized Providers.env)
         = Laws.envSource (JS.trim key)
      /\ (Providers.validateSecretName Providers.env (JS.trim key) = true ->
          valid Providers.env)
      /\ (Spec.without JS.sharpS (JS.trim key) = true ->
          Providers.validateSecretName Providers.env (normalized Providers.env)
          = Providers.validateSecretName Providers.env (JS.trim key))).
Proof.
  cbv zeta.
  split; [intros provider ->; apply validate_empty|].
  split; [exact (gcp_normalized_valid key)|].
  split; [exact (cyberark_normalized_valid key)|].
  split; [exact (akeyless_normalized_valid key)|].
  split; [exact (aws_normalized_valid key)|].
  split; [intros provider; exact (azure_normalized_valid provider key)|].
  split; [exact (ibm_normalized_valid key)|].
  split; [exact (hashicorp_normalized_valid key)|].
  split; [exact (doppler_normalized_valid key)|].
  split.
  - intros provider [-> | ->]; split; reflexivity.
  - split; [reflexivity|].
    split; [exact (env_toUpperCase_valid (JS.trim key))|].
    split.
    + intros H. unfold Providers.normalizeSecretName.
      rewrite env_toUpperCase_valid. exact (envSource_valid _ H).
    + intros H. unfold Providers.normalizeSecretName.
      rewrite env_toUpperCase_valid. exact (envSource_plain _ H).
Qed.

(** A use of the theorem: [my.key] becomes the valid [mykey] for [gcp],
    the blank key becomes the empty string, which is not valid, and the
    valid [db_host] becomes the valid [DB_HOST] for [env]. *)
Lemma normalizeSecretName_witness :
  Providers.normalizeSecretName Providers.gcp "my.key" = "mykey"
  /\ Providers.validateSecretName Providers.gcp
       (Providers.normalizeSecretName Providers.gcp "my.key") = true
  /\ Providers.validateSecretName Providers.keeper
       (Providers.normalizeSecretName Providers.keeper " ") = false
  /\ Providers.validateSecretName Providers.env (JS.trim " db_host ") = true
  /\ Providers.validateSecretName Providers.env
       (Providers.normalizeSecretName Providers.env " db_host ") = true.
Proof.
  split; [reflexivity|].
  destruct (normalizeSecretName_valid_unless_empty "my.key") as (_ & Hgcp & _).
  destruct (normalizeSecretName_valid_unless_empty " ") as (Hempty & _).
  destruct (normalizeSecretName_valid_unless_empty " db_host ")
    as (_ & _ & _ & _ & _ & _ & _ & _ & _ & _ & _ & _ & Henv & _).
  split; [apply Hgcp; discriminate|].
  split; [apply Hempty; reflexivity|].
  split; [reflexivity | apply Henv; reflexivity].
Defined.

(** ** Scenarios of the specification *)

(** Before any preload the key [KIKE], which only the environment holds,
    has no sync value; awaiting [secrets.KIKE.required()] gives its
    value, and the value is cached from then on. *)
Example kike_required_resolves :
  exists sv w,
    Proxy.secrets "KIKE" Examples.local = (Normal sv, w)
    /\ syncValue sv = None
    /\ SecretValue.valueOf sv = Throw (SyncAccessWithoutPreload "KIKE" EmptyString)
    /\ (exists sv', SecretValue.required sv = Normal sv'
                    /\ SecretValue.await sv' = Resolved "12345")
    /\ Manager.cache w !! "KIKE" = Some "12345".
Proof.
  eexists. eexists. split; [reflexivity|].
  repeat split. eexists. split; reflexivity.
Qed.

(** After a preload of the references [KIKE] and [DB_HOST] the first is
    fetched once and the second, which the files configure, is not; a
    second preload fetches nothing. *)
Example preload_fetches_uncached_references_once :
  let w1 := snd (Preload.preloadAllSecrets ["KIKE"; "DB_HOST"] Examples.local) in
  let w2 := snd (Preload.preloadAllSecrets ["KIKE"; "DB_HOST"] w1) in
  Manager.fetched w1 = ["KIKE"]
  /\ Manager.preloadExecuted w1 = true
  /\ Manager.cache w1 !! "KIKE" = Some "12345"
  /\ Manager.fetched w2 = ["KIKE"].
Proof. repeat split. Qed.

(** [DEBUG="true"]: [boolean().true()] gives [true]; a token checked
    against a pattern that it does not match fails with the message of
    the caller. *)
Example debug_boolean_true :
  (w <- SecretValue.boolean (Spec.cachedView "DEBUG" "true") ;;
   BooleanSecretValue.true_ w)
  = Normal (Spec.cachedView "DEBUG" true).
Proof. reflexivity. Qed.

Example token_regex_mismatch :
  SecretValue.regex Examples.digits (Some "msg") (Spec.awaitedView "TOKEN" "abc-123")
  = Normal (mkWrapper "TOKEN" None (Rejected (CustomMessage "msg"))).
Proof. reflexivity. Qed.

(** A pattern with the flag [g] keeps the index at which its last
    match ended.  [regex(/1/g)] on the cached value [1] tests twice:
    the first test matches and moves the index to the end, the second
    starts there, finds nothing, and the promise rejects, although the
    sync value has passed. *)
Example global_pattern_tests_differ :
  SecretValue.regex Examples.globalOne None (Spec.cachedView "ONE" "1")
  = Normal (mkWrapper "ONE" (Some "1") (Rejected DoesNotMatchRegex)).
Proof. reflexivity. Qed.

(** The sharp s has the two-letter upper case [SS]: as a key of the
    local provider it is no valid name, and its normalised form is. *)
Example sharp_s_becomes_valid :
  Providers.normalizeSecretName Providers.env (String JS.sharpS EmptyString) = "SS"
  /\ Providers.validateSecretName Providers.env (String JS.sharpS EmptyString) = false
  /\ Providers.validateSecretName Providers.env "SS" = true.
Proof. repeat split. Qed.

(** Two keys that differ can have one normalised name. *)
Example normalisation_collides :
  Providers.normalizeSecretName Providers.azure "A-B"
  = Providers.normalizeSecretName Providers.azure "A_B".
Proof. reflexivity. Qed.

(** The digits that lead a key for [doppler]: only the first goes. *)
Example doppler_leading_digits :
  Providers.normalizeSecretName Providers.doppler "12ab" = "2AB"
  /\ Providers.validateSecretName Providers.doppler "2AB" = false.
Proof. split; reflexivity. Qed.

(** * Further properties *)

(** ** Laws of the wrappers *)

Section WrapperLaws.

Import Laws.






Lemma number_preserves (Number : string -> JS.number) :
  Preserves consistent numeric (SecretValue.number Number).
Proof.
  intros [n [v|] p] w' Hc H; unfold numeric, consistent, SecretValue.number in *;
    simpl in *.
  - subst p. destruct (JS.isNaN (Number v)) eqn:E; simpl in H; [discriminate|].
    injection H as <-. simpl. rewrite E. split; [reflexivity|].
    split; intros v' Hv'; injection Hv' as <-; exact E.
  - injection H as <-. simpl. split; [exact I|]. split; [discriminate|].
    intros v Hv. destruct p as [a|e]; simpl in Hv; [|discriminate].
    destruct (JS.isNaN (Number a)) eqn:E; simpl in Hv; [discriminate|].
    injection Hv as <-. exact E.
Qed.


(** On a numeric wrapper [required()] has nothing to reject. *)
Lemma number_required_identity (w : NumberSecretValue.t) :
  numeric w -> NumberSecretValue.required w = Normal w.
Proof.
  destruct w as [nm sv p]. intros (_ & _ & Ha). unfold NumberSecretValue.required.
  simpl in *. do 2 f_equal. destruct p as [a|e]; simpl; [|reflexivity].
  rewrite (Ha a eq_refl). reflexivity.
Qed.







End WrapperLaws.



(** X2.  Validation operators compose: when [op1] enforces a rule and
    [op2] enforces another, the chain [w.op1().op2()] enforces their
    disjunction; it throws synchronously, or rejects, as soon as one of
    the rules is violated, and alike on both channels. *)
Theorem validation_chain_enforces_both_rules {T : Type}
    (op1 op2 : Wrapper T -> Completion (Wrapper T)) (rule1 rule2 : T -> bool) :
  Spec.Enforces op1 rule1 -> Spec.Enforces op2 rule2 ->
  Spec.Enforces (Laws.andThen op1 op2) (fun v => rule1 v || rule2 v).
Proof.
  intros (F1 & P1 & A1 & G1) (F2 & P2 & A2 & G2). unfold Laws.andThen.
  split; [|split; [|split]].
  - intros w v Hs Hv. destruct (rule1 v) eqn:E1.
    + specialize (F1 w v Hs E1). destruct (op1 w); [discriminate F1 | reflexivity].
    + destruct (P1 w v Hs E1) as (w1 & H1 & Hs1). rewrite H1. simpl.
      exact (F2 w1 v Hs1 Hv).
  - intros w v Hs Hv. apply orb_false_iff in Hv as [E1 E2].
    destruct (P1 w v Hs E1) as (w1 & H1 & Hs1). rewrite H1. simpl.
    exact (P2 w1 v Hs1 E2).
  - intros w Hs. destruct (A1 w Hs) as (w1 & H1 & Hs1). rewrite H1. simpl.
    exact (A2 w1 Hs1).
  - intros w w' H. destruct (op1 w) as [w1|e] eqn:H1; simpl in H; [|discriminate].
    specialize (G1 w w1 H1). specialize (G2 w1 w' H).
    unfold Spec.guarded in *. destruct (asyncValue w) as [v|e].
    + destruct (rule1 v); simpl.
      * destruct (asyncValue w1) as [x|e]; [discriminate G1|]. rewrite G2. reflexivity.
      * rewrite G1 in G2. exact G2.
    + rewrite G1 in G2. exact G2.
Qed.

(** A use of X2: [required().lengthBetween(8, 20)] rejects the awaited
    password [abc], which is too short. *)
Lemma validation_chain_witness :
  Spec.fails (Laws.andThen SecretValue.required
                (SecretValue.lengthBetween (JS.ofZ 8) (JS.ofZ 20))
                (Spec.awaitedView "PASSWORD" "abc")) = true.
Proof.
  pose proof (validation_chain_enforces_both_rules
                SecretValue.required (SecretValue.lengthBetween (JS.ofZ 8) (JS.ofZ 20))
                JS.isEmpty (SecretValue.lengthOutside (JS.ofZ 8) (JS.ofZ 20))
                (check_both_channels_enforces _ _ _)
                (check_both_channels_enforces _ _ _)) as H.
  exact (proj2 (Enforces_views_agree _ _ "PASSWORD" "abc" H)).
Defined.

(** X3.  On a numeric wrapper, such as [number()] and the numeric
    validators return, [required()] is the identity: it rejects
    nothing.  In particular, [Number] turning the empty string into zero,
    [number().required()] on an empty secret gives zero on both
    channels and does not fail. *)
Theorem number_required_accepts_every_parsed_number (Number : string -> JS.number) :
  (forall w, Laws.numeric w -> NumberSecretValue.required w = Normal w)
  /\ (forall name s w, SecretValue.number Number (Spec.cachedView name s) = Normal w ->
        NumberSecretValue.required w = Normal w)
  /\ (forall name s w, SecretValue.number Number (Spec.awaitedView name s) = Normal w ->
        NumberSecretValue.required w = Normal w)
  /\ (Number EmptyString = JS.zero ->
      forall name,
        Laws.andThen (SecretValue.number Number) NumberSecretValue.required
          (Spec.cachedView name EmptyString) = Normal (Spec.cachedView name JS.zero)
        /\ Laws.andThen (SecretValue.number Number) NumberSecretValue.required
             (Spec.awaitedView name EmptyString) = Normal (Spec.awaitedView name JS.zero)).
Proof.
  split; [exact number_required_identity|].
  split; [|split].
  - intros name s w H. apply number_required_identity.
    exact (number_preserves Number (Spec.cachedView name s) w eq_refl H).
  - intros name s w H. apply number_required_identity.
    exact (number_preserves Number (Spec.awaitedView name s) w I H).
  - intros Hzero name. unfold Laws.andThen, SecretValue.number. simpl.
    rewrite Hzero. split; reflexivity.
Qed.

(** A use of X3, with a conversion that reads the empty string as
    zero. *)
Lemma number_required_witness :
  Laws.andThen (SecretValue.number (fun s => if JS.isEmpty s then JS.zero else JS.decimalNumber s))
    NumberSecretValue.required (Spec.cachedView "DB_PORT" EmptyString)
  = Normal (Spec.cachedView "DB_PORT" JS.zero).
Proof.
  destruct (number_required_accepts_every_parsed_number
              (fun s => if JS.isEmpty s then JS.zero else JS.decimalNumber s))
    as (_ & _ & _ & H).
  exact (proj1 (H eq_refl "DB_PORT")).
Defined.

Section AbsenceFacts.

Import Laws.

Lemma andThen_keeps_absence {A B C : Type}
    (op1 : Wrapper A -> Completion (Wrapper B))
    (op2 : Wrapper B -> Completion (Wrapper C)) :
  KeepsAbsence op1 -> KeepsAbsence op2 -> KeepsAbsence (andThen op1 op2).
Proof.
  intros H1 H2 w Hw. destruct (H1 w Hw) as (w1 & E1 & Hs1 & Hn1).
  destruct (H2 w1 Hs1) as (w2 & E2 & Hs2 & Hn2).
  exists w2. unfold andThen. rewrite E1. simpl.
  split; [exact E2|]. split; [exact Hs2 | congruence].
Qed.

End AbsenceFacts.

(** X4.  Absence travels along the chain: on a wrapper without sync
    value every operator of the four wrapper classes, the [required()]
    of the boolean and of the JSON wrapper apart, returns a wrapper
    without sync value for the same secret, and so does every chain of
    them; the sync coercion of such a wrapper throws the error that
    names the secret and the type of the wrapper.  The two [required()]
    set apart throw on such a wrapper. *)
Theorem absent_sync_value_stays_absent
    (Number : string -> JS.number) (min max n : JS.number)
    (pattern : JS.RegExp) (msg : option string)
    (T : Type) (parse : string -> option T) :
  (Laws.KeepsAbsence SecretValue.required
   /\ Laws.KeepsAbsence SecretValue.notEmpty
   /\ Laws.KeepsAbsence SecretValue.trim
   /\ Laws.KeepsAbsence (SecretValue.lengthBetween min max)
   /\ Laws.KeepsAbsence (SecretValue.regex pattern msg)
   /\ Laws.KeepsAbsence SecretValue.toLowerCase
   /\ Laws.KeepsAbsence SecretValue.toUpperCase
   /\ Laws.KeepsAbsence (SecretValue.number Number)
   /\ Laws.KeepsAbsence SecretValue.boolean
   /\ Laws.KeepsAbsence (SecretValue.json T parse))
  /\ (Laws.KeepsAbsence NumberSecretValue.required
      /\ Laws.KeepsAbsence (NumberSecretValue.min n)
      /\ Laws.KeepsAbsence (NumberSecretValue.max n)
      /\ Laws.KeepsAbsence (NumberSecretValue.between min max)
      /\ Laws.KeepsAbsence NumberSecretValue.positive
      /\ Laws.KeepsAbsence NumberSecretValue.negative
      /\ Laws.KeepsAbsence NumberSecretValue.integer)
  /\ (Laws.KeepsAbsence BooleanSecretValue.true_
      /\ Laws.KeepsAbsence BooleanSecretValue.false_)
  /\ (forall (A B C : Type) (op1 : Wrapper A -> Completion (Wrapper B))
             (op2 : Wrapper B -> Completion (Wrapper C)),
        Laws.KeepsAbsence op1 -> Laws.KeepsAbsence op2 ->
        Laws.KeepsAbsence (Laws.andThen op1 op2))
  /\ (forall w, syncValue w = None ->
        SecretValue.valueOf w
        = Throw (SyncAccessWithoutPreload (secretName w) EmptyString)
        /\ SecretValue.toString w = SecretValue.valueOf w
        /\ SecretValue.toPrimitive w = SecretValue.valueOf w)
  /\ (forall w, syncValue w = None ->
        NumberSecretValue.valueOf w
        = Throw (SyncAccessWithoutPreload (secretName w) "number"))
  /\ (forall w, syncValue w = None ->
        BooleanSecretValue.valueOf w
        = Throw (SyncAccessWithoutPreload (secretName w) "boolean"))
  /\ (forall w, syncValue w = None ->
        JsonSecretValue.valueOf T w
        = Throw (SyncAccessWithoutPreload (secretName w) "JSON"))
  /\ (forall w, syncValue w = None ->
        BooleanSecretValue.required w = Throw BooleanRequired)
  /\ (forall w, syncValue w = None ->
        JsonSecretValue.required T w = Throw JsonRequired).
Proof.
  repeat match goal with |- _ /\ _ => split end;
    try (intros [nm sv p] H; simpl in H; subst sv; eexists;
         split; [reflexivity | split; reflexivity]);
    try (intros [nm sv p] H; simpl in H; subst sv; reflexivity).
  intros A B C op1 op2. exact (andThen_keeps_absence op1 op2).
Qed.

(** A use of X4: before it is loaded, [PORT] has no sync value, and
    neither has [PORT.trim().number().integer()], whose coercion names
    [PORT] and the type [number]. *)
Lemma absent_sync_value_witness :
  exists w',
    Laws.andThen SecretValue.trim
      (Laws.andThen (SecretValue.number JS.decimalNumber) NumberSecretValue.integer)
      (Spec.awaitedView "PORT" "8080") = Normal w'
    /\ NumberSecretValue.valueOf w' = Throw (SyncAccessWithoutPreload "PORT" "number").
Proof.
  destruct (absent_sync_value_stays_absent
              JS.decimalNumber JS.zero JS.zero JS.zero Examples.globalOne None
              bool Examples.parseFlag)
    as ((_ & _ & Htrim & _ & _ & _ & _ & Hnum & _)
        & (_ & _ & _ & _ & _ & _ & Hint) & _ & Hchain & _ & Hvalue & _).
  destruct (Hchain _ _ _ _ _ Htrim (Hchain _ _ _ _ _ Hnum Hint)
              (Spec.awaitedView "PORT" "8080") eq_refl) as (w' & E & Hs & Hn).
  exists w'. split; [exact E|]. rewrite (Hvalue w' Hs), Hn. reflexivity.
Defined.

(** ** The proxy and the cache, further *)

Section AccessFacts.

Import Manager.

Lemma loadSecret_flag (key : string) (w : World) :
  preloadExecuted (snd (loadSecret key w)) = preloadExecuted w.
Proof.
  unfold loadSecret. destruct (initialize_frame w) as ((_ & Hf & _) & _).
  destruct (initialize w) as [[[]|e] w0]; cbn [snd] in *; [|exact Hf].
  destruct (cache w0 !! key); [exact Hf|].
  destruct (providerSecretFor w0 key) as [[ps msgs]|]; [|exact Hf].
  simpl. destruct (getSecret (plugin w0) ps) as [pm [[v|]|e]]; exact Hf.
Qed.

Lemma loadSecret_initialized (key : string) (w : World) :
  initialized (snd (loadSecret key w)) = true.
Proof.
  unfold loadSecret. destruct (initialize_frame w) as (_ & Hi & _).
  destruct (initialize w) as [[[]|e] w0]; cbn [snd] in *; [|exact Hi].
  destruct (cache w0 !! key); [exact Hi|].
  destruct (providerSecretFor w0 key) as [[ps msgs]|]; [|exact Hi].
  simpl. destruct (getSecret (plugin w0) ps) as [pm [[v|]|e]]; exact Hi.
Qed.

(** A call of [loadSecret] changes the private cache at most at its
    key, and only from absent to present; it leaves the public cache. *)
Lemma loadSecret_keeps_entries (key : string) (w : World) :
  publicCache (snd (loadSecret key w)) = publicCache (snd (initialize w))
  /\ (forall k v, cache (snd (initialize w)) !! k = Some v ->
        cache (snd (loadSecret key w)) !! k = Some v)
  /\ (forall k, k <> key ->
        cache (snd (loadSecret key w)) !! k = cache (snd (initialize w)) !! k).
Proof.
  unfold loadSecret.
  destruct (initialize w) as [[[]|e] w0]; cbn [snd]; [|repeat split; auto].
  destruct (cache w0 !! key) as [c|] eqn:Hc; [repeat split; auto|].
  destruct (providerSecretFor w0 key) as [[ps msgs]|]; [|repeat split; auto].
  simpl. destruct (getSecret (plugin w0) ps) as [pm [[v|]|e]]; simpl;
    repeat split; auto.
  - intros k x Hk. destruct (decide (key = k)) as [->|Hne]; [congruence|].
    rewrite lookup_insert_ne by assumption. exact Hk.
  - intros k Hne. rewrite lookup_insert_ne by congruence. reflexivity.
Qed.

Lemma split_setSecretsPlugin (p : ISecretsPlugin) (secrets : Config.Record_) (w : World) :
  split secrets (setSecretsPlugin p w) = setSecretsPlugin p (split secrets w).
Proof.
  revert w. induction secrets as [|[k v] rest IH]; intros w; simpl; [reflexivity|].
  destruct (JS.startsWith k "PUBLIC_").
  - rewrite <- IH. reflexivity.
  - rewrite <- IH. reflexivity.
Qed.

Lemma initialize_setSecretsPlugin (p : ISecretsPlugin) (w : World) :
  initialize (setSecretsPlugin p w)
  = (fst (initialize w), setSecretsPlugin p (snd (initialize w))).
Proof.
  unfold initialize. simpl. destruct (initialized w); [reflexivity|].
  destruct (ConfigFiles.outcome (configured w)) as [secrets|e]; [|reflexivity].
  cbn [fst snd]. rewrite <- split_setSecretsPlugin. reflexivity.
Qed.

(** With the preload flag set, or for a public key, the proxy returns a
    wrapper with a sync value, and calls no plugin. *)
Lemma secrets_sync_when_flag_set (key : string) (w w0 : World) :
  preloadExecuted w = true ->
  initialize w = (Normal tt, w0) ->
  exists v, Proxy.secrets key w = (Normal (mkWrapper key (Some v) (Resolved v)), w0).
Proof.
  intros Hflag Hi.
  destruct (initialize_frame w) as ((_ & Hf & _) & _). rewrite Hi in Hf. cbn [snd] in Hf.
  unfold Proxy.secrets.
  destruct (JS.startsWith key "PUBLIC_").
  - unfold bindM. rewrite (getPublicSync_returned key w w0 Hi). eexists. reflexivity.
  - unfold bindM. rewrite (getSecretSync_returned key w w0 Hi).
    destruct (cache w0 !! key) as [c|]; [eexists; reflexivity|].
    rewrite Hf, Hflag. eexists. reflexivity.
Qed.

Lemma secrets_throws (key : string) (w : World) (e : Error) :
  fst (initialize w) = Throw e ->
  Proxy.secrets key w = (Throw e, snd (initialize w)).
Proof.
  intros H. unfold Proxy.secrets.
  destruct (JS.startsWith key "PUBLIC_"); unfold bindM.
  - rewrite (getPublicSync_throws key w e H). reflexivity.
  - rewrite (getSecretSync_throws key w e H). reflexivity.
Qed.

(** The access of a key without the public prefix that the cache does
    not hold, before a preload. *)
Lemma secrets_loads (key : string) (w w0 : World) :
  JS.startsWith key "PUBLIC_" = false ->
  preloadExecuted w = false ->
  initialize w = (Normal tt, w0) ->
  cache w0 !! key = None ->
  Proxy.secrets key w
  = (Normal (mkWrapper key None
               (then_ (fst (loadSecret key w)) (fun val => Normal (Proxy.orEmpty val)))),
     snd (loadSecret key w)).
Proof.
  intros Hpriv Hflag Hi Hc.
  destruct (initialize_frame w) as ((_ & Hf & _) & _). rewrite Hi in Hf. cbn [snd] in Hf.
  assert (loadSecret key w0 = loadSecret key w) as Hl.
  { unfold loadSecret. rewrite Hi, (initialize_returned w w0 Hi). reflexivity. }
  unfold Proxy.secrets. rewrite Hpriv. unfold bindM.
  rewrite (getSecretSync_returned key w w0 Hi), Hc.
  rewrite Hf, Hflag, Hl. destruct (loadSecret key w). reflexivity.
Qed.

End AccessFacts.

(** X5.  Before any preload, for a key without the public prefix that
    the cache does not hold once the manager is initialised, and a
    plugin that answers: the wrapper of the proxy has no sync value, so
    its sync coercion throws the error that names the key; awaiting it
    gives the value of the plugin, or the empty string when the plugin
    has none; the plugin is called once, and its value, if any, is in the
    cache afterwards.  When the initialisation of the manager throws,
    the access throws its error. *)
Theorem uncached_key_before_preload_is_async_only
    (key providerSecret : string) (msgs pluginMsgs : list string)
    (pluginValue : option string) (w : Manager.World) :
  JS.startsWith key "PUBLIC_" = false ->
  Manager.preloadExecuted w = false ->
  match Manager.initialize w with
  | (Throw e, w0) => Proxy.secrets key w = (Throw e, w0)
  | (Normal _, w0) =>
      Manager.cache w0 !! key = None ->
      Manager.providerSecretFor w key = Some (providerSecret, msgs) ->
      Plugin.getSecret (Manager.plugin w) providerSecret
      = (pluginMsgs, Resolved pluginValue) ->
      exists sv w',
        Proxy.secrets key w = (Normal sv, w')
        /\ syncValue sv = None
        /\ SecretValue.valueOf sv = Throw (SyncAccessWithoutPreload key EmptyString)
        /\ SecretValue.await sv = Resolved (Proxy.orEmpty pluginValue)
        /\ Manager.cache w' !! key = pluginValue
        /\ Manager.fetched w' = providerSecret :: Manager.fetched w
  end.
Proof.
  intros Hpriv Hflag.
  pose proof (secrets_throws key w) as Hthrow.
  destruct (Manager.initialize w) as [[[]|e] w0] eqn:Hi; cbn [fst snd] in *;
    [|exact (Hthrow e eq_refl)].
  intros Hc Hp Hg.
  destruct (initialize_frame w) as (_ & _ & Hf & _). rewrite Hi in Hf. cbn [snd] in Hf.
  rewrite (secrets_loads key w w0 Hpriv Hflag Hi Hc).
  rewrite (loadSecret_uncached key w w0 providerSecret msgs pluginMsgs _ Hi Hc Hp Hg).
  eexists. eexists. split; [reflexivity|].
  destruct pluginValue as [v|]; simpl; repeat split; try congruence.
  apply lookup_insert_eq.
Qed.

(** A use of X5: [KIKE], which only the environment holds. *)
Lemma uncached_key_witness :
  exists sv w',
    Proxy.secrets "KIKE" Examples.local = (Normal sv, w')
    /\ SecretValue.valueOf sv = Throw (SyncAccessWithoutPreload "KIKE" EmptyString)
    /\ SecretValue.await sv = Resolved "12345".
Proof.
  pose proof (uncached_key_before_preload_is_async_only "KIKE" "KIKE" [] [] (Some "12345")
                Examples.local eq_refl eq_refl) as H.
  change (Manager.initialize Examples.local)
    with (@Normal unit tt, snd (Manager.initialize Examples.local)) in H.
  cbv beta iota in H.
  destruct (H eq_refl eq_refl eq_refl) as (sv & w' & E & _ & H1 & H2 & _).
  exists sv, w'. split; [exact E|]. split; [exact H1 | exact H2].
Defined.

(** X6.  A key that the private cache holds is read synchronously: the
    wrapper of the proxy has the cached value on both channels, whatever
    the preload flag, and no plugin is called.  This is so in particular
    for the second access of a key whose first access loaded it.  When
    the initialisation of the manager throws, the access throws its
    error. *)
Theorem cached_key_is_read_synchronously (key value : string) (w : Manager.World) :
  JS.startsWith key "PUBLIC_" = false ->
  match Manager.initialize w with
  | (Throw e, w0) => Proxy.secrets key w = (Throw e, w0)
  | (Normal _, w0) =>
      (Manager.cache w0 !! key = Some value ->
       Proxy.secrets key w = (Normal (mkWrapper key (Some value) (Resolved value)), w0)
       /\ Manager.fetched w0 = Manager.fetched w)
      /\ (Manager.cache w0 !! key = None ->
          (exists providerSecret msgs pluginMsgs,
              Manager.providerSecretFor w key = Some (providerSecret, msgs)
              /\ Plugin.getSecret (Manager.plugin w) providerSecret
                 = (pluginMsgs, Resolved (Some value))) ->
          Manager.preloadExecuted w = false ->
          let w' := snd (Proxy.secrets key w) in
          Proxy.secrets key w'
          = (Normal (mkWrapper key (Some value) (Resolved value)), w'))
  end.
Proof.
  intros Hpriv.
  pose proof (secrets_throws key w) as Hthrow.
  destruct (Manager.initialize w) as [[[]|e] w0] eqn:Hi;
    [|exact (Hthrow e eq_refl)].
  cbv beta iota. split.
  - intros Hc. unfold Proxy.secrets. rewrite Hpriv. unfold Manager.bindM.
    rewrite (getSecretSync_returned key w w0 Hi), Hc.
    split; [reflexivity|].
    destruct (initialize_frame w) as (_ & _ & Hf & _). rewrite Hi in Hf. exact Hf.
  - intros Hc (ps & msgs & pm & Hp & Hg) Hflag w'.
    assert (w' = snd (Manager.loadSecret key w)) as Hw'.
    { unfold w'. rewrite (secrets_loads key w w0 Hpriv Hflag Hi Hc). reflexivity. }
    assert (Manager.initialize w' = (Normal tt, w')) as Hi'
      by (apply initialize_done; rewrite Hw'; apply loadSecret_initialized).
    assert (Manager.cache w' !! key = Some value) as Hk.
    { rewrite Hw', (loadSecret_uncached key w w0 ps msgs pm _ Hi Hc Hp Hg). simpl.
      apply lookup_insert_eq. }
    unfold Proxy.secrets. rewrite Hpriv. unfold Manager.bindM.
    rewrite (getSecretSync_returned key w' w' Hi'), Hk. reflexivity.
Qed.

(** A use of X6: [DB_HOST] comes from the files; [KIKE] is synchronous
    from its second access on. *)
Lemma cached_key_witness :
  fst (Proxy.secrets "DB_HOST" Examples.local)
  = Normal (mkWrapper "DB_HOST" (Some "localhost") (Resolved "localhost"))
  /\ fst (Proxy.secrets "KIKE" (snd (Proxy.secrets "KIKE" Examples.local)))
     = Normal (mkWrapper "KIKE" (Some "12345") (Resolved "12345")).
Proof.
  pose proof (cached_key_is_read_synchronously "DB_HOST" "localhost"
                Examples.local eq_refl) as H1.
  pose proof (cached_key_is_read_synchronously "KIKE" "12345"
                Examples.local eq_refl) as H2.
  change (Manager.initialize Examples.local)
    with (@Normal unit tt, snd (Manager.initialize Examples.local)) in H1, H2.
  cbv beta iota in H1, H2.
  destruct H1 as (H1 & _). destruct H2 as (_ & H2).
  split.
  - rewrite (proj1 (H1 eq_refl)). reflexivity.
  - specialize (H2 eq_refl
                  (ex_intro _ "KIKE" (ex_intro _ [] (ex_intro _ [] (conj eq_refl eq_refl))))
                  eq_refl).
    cbv zeta in H2. rewrite H2. reflexivity.
Defined.

(** X7.  Replacing the active plugin does not clear the caches: a key
    that the cache holds is still answered from the cache, with its old
    value and without a call of the new plugin.  The initialisation of
    the manager does not depend on the plugin: when it throws, the load
    rejects with its error under the new plugin as under the old. *)
Theorem setSecretsPlugin_keeps_cached_entries
    (p : Plugin.ISecretsPlugin) (key value : string) (w : Manager.World) :
  let w' := Manager.setSecretsPlugin p w in
  match Manager.initialize w with
  | (Throw e, w0) =>
      Manager.loadSecret key w' = (Rejected e, Manager.setSecretsPlugin p w0)
  | (Normal _, w0) =>
      Manager.cache w0 !! key = Some value ->
      Manager.cache (snd (Manager.initialize w')) = Manager.cache w0
      /\ Manager.publicCache (snd (Manager.initialize w')) = Manager.publicCache w0
      /\ fst (Manager.loadSecret key w') = Resolved (Some value)
      /\ Manager.fetched (snd (Manager.loadSecret key w')) = Manager.fetched w
      /\ Manager.plugin (snd (Manager.loadSecret key w')) = p
  end.
Proof.
  intros w'. unfold w'.
  pose proof (initialize_setSecretsPlugin p w) as Hset.
  pose proof (initialize_frame w) as (_ & _ & Hf & _).
  pose proof (loadSecret_throws key (Manager.setSecretsPlugin p w)) as Hthrow.
  destruct (Manager.initialize w) as [[[]|e] w0] eqn:Hi; cbn [fst snd] in *.
  - intros Hc. rewrite (loadSecret_cached key value _ _ Hset Hc), Hset. simpl.
    repeat split. exact Hf.
  - rewrite (Hthrow e); rewrite Hset; reflexivity.
Qed.

(** A use of X7: [DB_HOST] after the switch to a vault. *)
Lemma setSecretsPlugin_witness :
  fst (Manager.loadSecret "DB_HOST"
         (Manager.setSecretsPlugin Examples.vaultWithApiKey Examples.local))
  = Resolved (Some "localhost").
Proof.
  pose proof (setSecretsPlugin_keeps_cached_entries
                Examples.vaultWithApiKey "DB_HOST" "localhost" Examples.local) as H.
  cbv zeta in H.
  change (Manager.initialize Examples.local)
    with (@Normal unit tt, snd (Manager.initialize Examples.local)) in H.
  cbv beta iota in H.
  exact (proj1 (proj2 (proj2 (H eq_refl)))).
Defined.

Section InitializeFacts.

Import Manager.

Lemma get_absent (vars : Config.Record_) (k : string) :
  ~ List.In k (Config.keys vars) -> Config.get vars k = None.
Proof.
  induction vars as [|[k0 v0] rest IH]; simpl; [reflexivity|].
  intros H. destruct (String.eqb_spec k0 k) as [-> | _]; [exfalso; auto | auto].
Qed.

(** The caches after the loop of [initialize], entry by entry. *)
Lemma split_lookup (secrets : Config.Record_) (w : World) (k : string) :
  List.NoDup (Config.keys secrets) ->
  cache (split secrets w) !! k
  = (if JS.startsWith k "PUBLIC_" then cache w !! k
     else match Config.get secrets k with
          | Some v => Some v
          | None => cache w !! k
          end)
  /\ publicCache (split secrets w) !! k
     = (if JS.startsWith k "PUBLIC_"
        then match Config.get secrets k with
             | Some v => Some v
             | None => publicCache w !! k
             end
        else publicCache w !! k).
Proof.
  revert w. induction secrets as [|[k0 v0] rest IH]; intros w Hnd.
  - simpl. destruct (JS.startsWith k "PUBLIC_"); split; reflexivity.
  - apply List.NoDup_cons_iff in Hnd as [Hnotin Hnd].
    cbn [split Config.get].
    destruct (String.eqb_spec k0 k) as [-> | Hne].
    + rewrite (get_absent rest k Hnotin) in IH.
      destruct (JS.startsWith k "PUBLIC_") eqn:Hp.
      * destruct (IH (publicCacheSet k v0 w) Hnd) as (-> & ->). simpl.
        rewrite lookup_insert_eq. split; reflexivity.
      * destruct (IH (cacheSet k v0 w) Hnd) as (-> & ->). simpl.
        rewrite lookup_insert_eq. split; reflexivity.
    + destruct (JS.startsWith k0 "PUBLIC_").
      * destruct (IH (publicCacheSet k0 v0 w) Hnd) as (-> & ->). simpl.
        rewrite lookup_insert_ne by assumption. split; reflexivity.
      * destruct (IH (cacheSet k0 v0 w) Hnd) as (-> & ->). simpl.
        rewrite lookup_insert_ne by assumption. split; reflexivity.
Qed.

End InitializeFacts.

(** X8.  The first initialisation, when [config] returns, partitions
    the configured record by the public prefix: a key with the prefix is
    found in the public cache with its configured value and never in the
    private cache, a key without it in the private cache and never in
    the public one. *)
Theorem initialize_partitions_by_public_prefix
    (written : list string) (configured : Config.Record_)
    (processEnv : gmap string string) (key : string) :
  List.NoDup (Config.keys configured) ->
  let w := snd (Manager.initialize
                  (Manager.fresh (ConfigFiles.mkRun written (Normal configured))
                     processEnv)) in
  if JS.startsWith key "PUBLIC_"
  then Manager.publicCache w !! key = Config.get configured key
       /\ Manager.cache w !! key = None
  else Manager.cache w !! key = Config.get configured key
       /\ Manager.publicCache w !! key = None.
Proof.
  intros Hnd w. unfold w, Manager.initialize, Manager.fresh.
  cbn [Manager.initialized Manager.configured Manager.warn Manager.withCaches
       ConfigFiles.outcome ConfigFiles.written snd].
  match goal with |- context [Manager.split _ ?x] =>
    destruct (split_lookup configured x key Hnd) as (Hc & Hp) end.
  rewrite Hc, Hp. simpl.
  destruct (JS.startsWith key "PUBLIC_"); destruct (Config.get configured key);
    split; reflexivity.
Qed.

(** A use of X8 on the sample configuration. *)
Lemma initialize_partitions_witness :
  Manager.publicCache (snd (Manager.initialize Examples.local)) !! "PUBLIC_APP_NAME"
  = Some "demo"
  /\ Manager.cache (snd (Manager.initialize Examples.local)) !! "PUBLIC_APP_NAME" = None.
Proof.
  apply (initialize_partitions_by_public_prefix []
           [("PUBLIC_APP_NAME", "demo"); ("DB_HOST", "localhost");
            ("DB_URL", "pg://localhost:5432/app")]
           {[ "KIKE" := "12345" ]} "PUBLIC_APP_NAME").
  repeat constructor; simpl; intuition discriminate.
Defined.

(** X9.  The synchronous load never takes the asynchronous path of the
    plugin.  When the initialisation of the manager returns, it answers
    from the cache when the cache holds the key, and otherwise asks only
    [getSecretSync], with the key as requested; a value found there is
    cached under that key, and without the sync capability the answer is
    [undefined] and nothing changes.  When the initialisation throws,
    so does the load. *)
Theorem loadSecretSync_uses_only_the_sync_capability (key : string) (w : Manager.World) :
  Manager.fetched (snd (Manager.loadSecretSync key w)) = Manager.fetched w
  /\ match Manager.initialize w with
     | (Throw e, w0) => Manager.loadSecretSync key w = (Throw e, w0)
     | (Normal _, w0) =>
         (forall value, Manager.cache w0 !! key = Some value ->
            Manager.loadSecretSync key w = (Normal (Some value), w0))
         /\ (Manager.cache w0 !! key = None ->
             match Plugin.getSecretSync (Manager.plugin w) with
             | None => Manager.loadSecretSync key w = (Normal None, w0)
             | Some f =>
                 fst (Manager.loadSecretSync key w) = Normal (f key)
                 /\ Manager.cache (snd (Manager.loadSecretSync key w)) !! key = f key
                 /\ (forall k, k <> key ->
                       Manager.cache (snd (Manager.loadSecretSync key w)) !! k
                       = Manager.cache w0 !! k)
             end)
     end.
Proof.
  destruct (initialize_frame w) as ((Hpl & _) & _ & Hf & _).
  unfold Manager.loadSecretSync, Manager.bindM.
  destruct (Manager.initialize w) as [[[]|e] w0]; cbn [fst snd] in *;
    [|split; [exact Hf | reflexivity]].
  rewrite Hpl.
  destruct (Manager.cache w0 !! key) as [c|] eqn:Hc.
  - split; [exact Hf|]. split; [intros value H; injection H as <-; reflexivity|].
    discriminate.
  - split.
    + destruct (Plugin.getSecretSync (Manager.plugin w)) as [f|]; [|exact Hf].
      destruct (f key); exact Hf.
    + split; [discriminate|]. intros _.
      destruct (Plugin.getSecretSync (Manager.plugin w)) as [f|]; [|reflexivity].
      destruct (f key) as [v|] eqn:E; simpl.
      * split; [reflexivity|]. split; [apply lookup_insert_eq|].
        intros k Hne. rewrite lookup_insert_ne by congruence. reflexivity.
      * split; [reflexivity|]. split; [exact Hc | reflexivity].
Qed.

(** X10.  Once the manager is initialised, no operation removes or
    overwrites an entry of the private cache, and none changes the
    public cache: not [loadSecret], [loadSecretSync], an access through
    the proxy, or the bulk preload. *)
Theorem cache_entries_are_never_overwritten (k value : string) (w : Manager.World) :
  Manager.initialized w = true ->
  Manager.cache w !! k = Some value ->
  (forall key, Manager.cache (snd (Manager.loadSecret key w)) !! k = Some value
               /\ Manager.publicCache (snd (Manager.loadSecret key w))
                  = Manager.publicCache w)
  /\ (forall key, Manager.cache (snd (Manager.loadSecretSync key w)) !! k = Some value
                  /\ Manager.publicCache (snd (Manager.loadSecretSync key w))
                     = Manager.publicCache w)
  /\ (forall key, Manager.cache (snd (Proxy.secrets key w)) !! k = Some value
                  /\ Manager.publicCache (snd (Proxy.secrets key w))
                     = Manager.publicCache w)
  /\ (forall references,
        Manager.cache (snd (Preload.preloadAllSecrets references w)) !! k = Some value
        /\ Manager.publicCache (snd (Preload.preloadAllSecrets references w))
           = Manager.publicCache w).
Proof.
  intros Hi Hk. pose proof (initialize_done w Hi) as Hw.
  assert (forall key, Manager.cache (snd (Manager.loadSecret key w)) !! k = Some value
                      /\ Manager.publicCache (snd (Manager.loadSecret key w))
                         = Manager.publicCache w) as Hload.
  { intros key. destruct (loadSecret_keeps_entries key w) as (Hp & Hkeep & _).
    rewrite Hw in Hp, Hkeep. split; [exact (Hkeep k value Hk) | exact Hp]. }
  split; [exact Hload|]. split; [|split].
  - intros key. unfold Manager.loadSecretSync, Manager.bindM. rewrite Hw.
    destruct (Manager.cache w !! key) as [c|] eqn:Hc; [split; [exact Hk | reflexivity]|].
    destruct (Plugin.getSecretSync (Manager.plugin w)) as [f|];
      [|split; [exact Hk | reflexivity]].
    destruct (f key) as [v|]; [|split; [exact Hk | reflexivity]].
    simpl. split; [|reflexivity].
    destruct (decide (key = k)) as [->|Hne]; [congruence|].
    rewrite lookup_insert_ne by assumption. exact Hk.
  - intros key. unfold Proxy.secrets.
    destruct (JS.startsWith key "PUBLIC_"); unfold Manager.bindM.
    { rewrite (getPublicSync_returned key w w Hw). split; [exact Hk | reflexivity]. }
    rewrite (getSecretSync_returned key w w Hw).
    destruct (Manager.cache w !! key); [split; [exact Hk | reflexivity]|].
    destruct (Manager.preloadExecuted w); [split; [exact Hk | reflexivity]|].
    specialize (Hload key). destruct (Manager.loadSecret key w). exact Hload.
  - intros references.
    pose proof (keysToLoad_spec references w w Hw) as Hks.
    replace (match references with [] => w | _ :: _ => w end) with w in Hks
      by (destruct references; reflexivity).
    destruct (preloadAllSecrets_world references _ w w Hks) as (Hc & Hp & _).
    rewrite Hc, Hp.
    generalize (List.filter (fun k0 => Preload.falsy (Manager.cache w !! k0)) references).
    intros ks. clear Hc Hp Hks Hload. revert w Hi Hk Hw.
    induction ks as [|key ks IH]; intros w Hi Hk Hw; [split; [exact Hk | reflexivity]|].
    cbn [Preload.loadEach].
    destruct (loadSecret_keeps_entries key w) as (Hp & Hkeep & _).
    rewrite Hw in Hp, Hkeep. pose proof (loadSecret_initialized key w) as Hi1.
    destruct (Manager.loadSecret key w) as [r w1]. cbn [snd] in *.
    specialize (IH w1 Hi1 (Hkeep k value Hk) (initialize_done w1 Hi1)).
    destruct (Preload.loadEach ks w1) as [ps w2]. cbn [snd] in *.
    destruct IH as (IHc & IHp). split; [exact IHc | congruence].
Qed.

(** A use of X10: the configured [DB_HOST] survives a preload that loads
    other keys. *)
Lemma cache_entries_witness :
  Manager.cache
    (snd (Preload.preloadAllSecrets ["KIKE"; "DB_HOST"]
            (snd (Manager.initialize Examples.local)))) !! "DB_HOST"
  = Some "localhost".
Proof.
  destruct (cache_entries_are_never_overwritten "DB_HOST" "localhost"
              (snd (Manager.initialize Examples.local)) eq_refl eq_refl)
    as (_ & _ & _ & H).
  exact (proj1 (H ["KIKE"; "DB_HOST"])).
Defined.

(** A use of X9: the local plugin reads [KIKE] from the environment,
    synchronously, and the value is cached. *)
Lemma loadSecretSync_witness :
  fst (Manager.loadSecretSync "KIKE" Examples.local) = Normal (Some "12345")
  /\ Manager.cache (snd (Manager.loadSecretSync "KIKE" Examples.local)) !! "KIKE"
     = Some "12345"
  /\ Manager.fetched (snd (Manager.loadSecretSync "KIKE" Examples.local)) = [].
Proof.
  destruct (loadSecretSync_uses_only_the_sync_capability "KIKE" Examples.local)
    as (Hf & H).
  change (Manager.initialize Examples.local)
    with (@Normal unit tt, snd (Manager.initialize Examples.local)) in H.
  cbv beta iota in H. destruct H as (_ & H).
  destruct (H eq_refl) as (H1 & H2 & _).
  split; [exact H1|]. split; [exact H2 | exact Hf].
Defined.



(** X12.  For a plugin whose display name [providerMap] does not list,
    when the initialisation of the manager returns, the load of every
    key that the cache does not hold rejects with a type error, with no
    call of the plugin and no change of the caches; so does the promise
    of the wrapper that the proxy returns for the key before a preload,
    and a preload of such a key rejects.  When the initialisation
    throws, the load rejects with its error. *)
Theorem loadSecret_rejects_for_unlisted_plugin_name (key : string) (w : Manager.World) :
  Providers.providerMap (Plugin.pluginName (Manager.plugin w)) = None ->
  match Manager.initialize w with
  | (Throw e, w0) => Manager.loadSecret key w = (Rejected e, w0)
  | (Normal _, w0) =>
      Manager.cache w0 !! key = None ->
      Manager.loadSecret key w
      = (Rejected (TypeError "Cannot read properties of undefined"), w0)
      /\ Manager.fetched (snd (Manager.loadSecret key w)) = Manager.fetched w
      /\ (JS.startsWith key "PUBLIC_" = false -> Manager.preloadExecuted w = false ->
          exists sv,
            fst (Proxy.secrets key w) = Normal sv
            /\ SecretValue.await sv
               = Rejected (TypeError "Cannot read properties of undefined"))
      /\ fst (Preload.preloadAllSecrets [key] w)
         = Rejected (TypeError "Cannot read properties of undefined")
  end.
Proof.
  intros Hp.
  pose proof (initialize_frame w) as (_ & _ & Hf & _).
  pose proof (providerSecretFor_initialize w key) as Hps.
  pose proof (loadSecret_throws key w) as Hthrow.
  destruct (Manager.initialize w) as [[[]|e] w0] eqn:Hi; cbn [fst snd] in *;
    [|exact (Hthrow e eq_refl)].
  intros Hc.
  assert (Manager.providerSecretFor w0 key = None) as Hps0
    by (rewrite Hps; unfold Manager.providerSecretFor; rewrite Hp; reflexivity).
  assert (Manager.loadSecret key w
          = (Rejected (TypeError "Cannot read properties of undefined"), w0)) as Hl
    by (unfold Manager.loadSecret; rewrite Hi, Hc, Hps0; reflexivity).
  split; [exact Hl|]. split; [rewrite Hl; exact Hf|]. split.
  - intros Hpriv Hnot. rewrite (secrets_loads key w w0 Hpriv Hnot Hi Hc), Hl.
    eexists. split; reflexivity.
  - unfold Preload.preloadAllSecrets. rewrite (keysToLoad_spec [key] w w0 Hi).
    cbn [List.filter]. rewrite Hc. cbn [Preload.falsy Preload.loadEach].
    assert (Manager.loadSecret key w0 = Manager.loadSecret key w) as Hl'.
    { unfold Manager.loadSecret. rewrite Hi, (initialize_returned w w0 Hi). reflexivity. }
    rewrite Hl', Hl. reflexivity.
Qed.

(** A use of X12: a plugin that has the value, under a name of its
    own. *)
Lemma unlisted_plugin_witness :
  fst (Manager.loadSecret "API_KEY" Examples.withCustom)
  = Rejected (TypeError "Cannot read properties of undefined")
  /\ Manager.fetched (snd (Manager.loadSecret "API_KEY" Examples.withCustom)) = [].
Proof.
  pose proof (loadSecret_rejects_for_unlisted_plugin_name "API_KEY" Examples.withCustom
                eq_refl) as H.
  change (Manager.initialize Examples.withCustom)
    with (@Normal unit tt, snd (Manager.initialize Examples.withCustom)) in H.
  cbv beta iota in H. destruct (H eq_refl) as (H1 & H2 & _).
  rewrite H1. split; [reflexivity | exact H2].
Defined.

Section PreloadFlagFacts.

Import Manager.

Lemma loadEach_flag (ks : list string) (w : World) :
  preloadExecuted (snd (Preload.loadEach ks w)) = preloadExecuted w.
Proof.
  revert w. induction ks as [|k ks IH]; intros w; [reflexivity|].
  cbn [Preload.loadEach]. pose proof (loadSecret_flag k w) as H1.
  destruct (loadSecret k w) as [p w1]. cbn [snd] in *.
  specialize (IH w1). destruct (Preload.loadEach ks w1) as [ps w2]. cbn [snd] in *.
  congruence.
Qed.

Lemma keysToLoad_flag (references : list string) (w : World) :
  preloadExecuted (snd (Preload.keysToLoad references w)) = preloadExecuted w.
Proof.
  destruct references as [|k rest]; [reflexivity|].
  destruct (initialize_frame w) as ((_ & Hf & _) & _).
  destruct (initialize_cases w) as [Hi | (e & Hi)].
  - rewrite (keysToLoad_spec (k :: rest) w _ Hi). exact Hf.
  - rewrite (keysToLoad_throws k rest w e); [exact Hf | rewrite Hi; reflexivity].
Qed.

Lemma keysToLoad_initialized (k : string) (rest : list string) (w : World) :
  initialized (snd (Preload.keysToLoad (k :: rest) w)) = true.
Proof.
  destruct (initialize_frame w) as (_ & Hinit & _).
  destruct (initialize_cases w) as [Hi | (e & Hi)].
  - rewrite (keysToLoad_spec (k :: rest) w _ Hi). exact Hinit.
  - rewrite (keysToLoad_throws k rest w e); [exact Hinit | rewrite Hi; reflexivity].
Qed.

Lemma loadEach_initialized (ks : list string) (w : World) :
  initialized w = true -> initialized (snd (Preload.loadEach ks w)) = true.
Proof.
  revert w. induction ks as [|k ks IH]; intros w Hi; [exact Hi|].
  cbn [Preload.loadEach]. pose proof (loadSecret_initialized k w) as H1.
  destruct (loadSecret k w) as [p w1]. cbn [snd] in *.
  specialize (IH w1 H1). destruct (Preload.loadEach ks w1) as [ps w2]. exact IH.
Qed.

(** The flag after [preloadAllSecrets], by the outcome of the call. *)
Lemma preloadAllSecrets_flag (references : list string) (w : World) :
  preloadExecuted (snd (Preload.preloadAllSecrets references w))
  = match fst (Preload.preloadAllSecrets references w) with
    | Resolved _ => true
    | Rejected _ => preloadExecuted w
    end.
Proof.
  unfold Preload.preloadAllSecrets.
  pose proof (keysToLoad_flag references w) as H0.
  destruct (Preload.keysToLoad references w) as [[ks|e] w0]; cbn [snd] in H0;
    [|exact H0].
  destruct ks as [|k ks]; [reflexivity|].
  pose proof (loadEach_flag (k :: ks) w0) as H1.
  destruct (Preload.loadEach (k :: ks) w0) as [ps w1]. cbn [snd] in H1.
  destruct (Preload.all ps); cbn; [reflexivity | congruence].
Qed.

(** A preload that found a reference leaves the manager flagged as
    initialised. *)
Lemma preloadAllSecrets_initialized (k : string) (rest : list string) (w : World) :
  initialized (snd (Preload.preloadAllSecrets (k :: rest) w)) = true.
Proof.
  unfold Preload.preloadAllSecrets.
  pose proof (keysToLoad_initialized k rest w) as H0.
  destruct (Preload.keysToLoad (k :: rest) w) as [[ks|e] w0]; cbn [snd] in H0;
    [|exact H0].
  destruct ks as [|k' ks]; [exact H0|].
  pose proof (loadEach_initialized (k' :: ks) w0 H0) as H1.
  destruct (Preload.loadEach (k' :: ks) w0) as [ps w1]. cbn [snd] in H1.
  destruct (Preload.all ps); cbn; exact H1.
Qed.

End PreloadFlagFacts.

(** X13.  The bulk preload sets the preload flag exactly when all its
    loads resolve; a preload that rejected leaves the flag as it was.
    After a preload that resolved and found a reference the manager is
    initialised, and the access of every key through the proxy returns a
    wrapper with a sync value, equal to the value of its promise, and
    calls no plugin.  A preload that found no reference resolves without
    a look into the cache: the next access initialises the manager, and
    returns such a wrapper when the initialisation returns, and throws
    when it throws. *)
Theorem preload_enables_sync_access_only_when_it_resolves
    (references : list string) (w : Manager.World) :
  let w1 := snd (Preload.preloadAllSecrets references w) in
  (fst (Preload.preloadAllSecrets references w) = Resolved tt ->
   Manager.preloadExecuted w1 = true
   /\ (references <> [] -> Manager.initialize w1 = (Normal tt, w1))
   /\ (forall key,
         match Manager.initialize w1 with
         | (Normal _, w2) =>
             exists v,
               Proxy.secrets key w1 = (Normal (mkWrapper key (Some v) (Resolved v)), w2)
               /\ SecretValue.valueOf (mkWrapper key (Some v) (Resolved v)) = Normal v
               /\ Manager.fetched w2 = Manager.fetched w1
         | (Throw e, w2) =>
             Proxy.secrets key w1 = (Throw e, w2) /\ references = []
         end))
  /\ (forall e, fst (Preload.preloadAllSecrets references w) = Rejected e ->
        Manager.preloadExecuted w1 = Manager.preloadExecuted w).
Proof.
  intros w1. pose proof (preloadAllSecrets_flag references w) as Hflag. fold w1 in Hflag.
  split.
  - intros Hr. rewrite Hr in Hflag. split; [exact Hflag|].
    assert (references <> [] -> Manager.initialize w1 = (Normal tt, w1)) as Hinit.
    { intros Hne. apply initialize_done. destruct references as [|k rest];
        [contradiction|]. exact (preloadAllSecrets_initialized k rest w). }
    split; [exact Hinit|].
    intros key.
    pose proof (initialize_frame w1) as (_ & _ & Hf & _).
    pose proof (secrets_throws key w1) as Hthrow.
    pose proof (fun w2 => secrets_sync_when_flag_set key w1 w2 Hflag) as Hsync.
    destruct (Manager.initialize w1) as [[[]|e] w2] eqn:Hi; cbn [fst snd] in *.
    + destruct (Hsync w2 eq_refl) as (v & Hv).
      exists v. split; [exact Hv|]. split; [reflexivity | exact Hf].
    + split; [exact (Hthrow e eq_refl)|].
      destruct references as [|k rest]; [reflexivity|].
      specialize (Hinit ltac:(discriminate)). congruence.
  - intros e Hr. rewrite Hr in Hflag. exact Hflag.
Qed.

(** A use of X13: the preload of [KIKE] resolves and sets the flag, so
    every key has a sync value; with the hosted service down the preload
    rejects and sets no flag. *)
Lemma preload_flag_witness :
  Manager.preloadExecuted (snd (Preload.preloadAllSecrets ["KIKE"] Examples.local)) = true
  /\ (exists v,
        fst (Proxy.secrets "MISSING"
               (snd (Preload.preloadAllSecrets ["KIKE"] Examples.local)))
        = Normal (mkWrapper "MISSING" (Some v) (Resolved v)))
  /\ Manager.preloadExecuted
       (snd (Preload.preloadAllSecrets ["db/password"] Examples.hcpDown)) = false.
Proof.
  destruct (preload_enables_sync_access_only_when_it_resolves ["KIKE"] Examples.local)
    as (H1 & _).
  destruct (preload_enables_sync_access_only_when_it_resolves ["db/password"]
              Examples.hcpDown) as (_ & H2).
  destruct (H1 eq_refl) as (Hflag & Hinit & Hall).
  split; [exact Hflag|]. split.
  - specialize (Hall "MISSING").
    rewrite (Hinit ltac:(discriminate)) in Hall.
    destruct Hall as (v & Hv & _). exists v. rewrite Hv. reflexivity.
  - exact (H2 Examples.unreachable eq_refl).
Defined.

(** X22.  The error of [config] reaches every caller.  When the first
    initialisation of the manager throws, [getSecretSync],
    [getPublicSync], [loadSecretSync] and the access through the proxy
    throw the same error, and [loadSecret] and a bulk preload that found
    a reference reject with it; no plugin is called and no cache entry is
    written.  The warnings of [config] are recorded and the manager is
    flagged as initialised, so the next call does not run [config]
    again: it proceeds with the caches as they were. *)
Theorem config_error_reaches_every_caller (e : Error) (w : Manager.World) :
  Manager.initialized w = false ->
  ConfigFiles.outcome (Manager.configured w) = Throw e ->
  let w0 := snd (Manager.initialize w) in
  (forall key,
      Manager.getSecretSync key w = (Throw e, w0)
      /\ Manager.getPublicSync key w = (Throw e, w0)
      /\ Manager.loadSecretSync key w = (Throw e, w0)
      /\ Manager.loadSecret key w = (Rejected e, w0)
      /\ Proxy.secrets key w = (Throw e, w0))
  /\ (forall key rest,
        Preload.preloadAllSecrets (key :: rest) w = (Rejected e, w0))
  /\ Manager.cache w0 = Manager.cache w
  /\ Manager.publicCache w0 = Manager.publicCache w
  /\ Manager.fetched w0 = Manager.fetched w
  /\ Manager.preloadExecuted w0 = Manager.preloadExecuted w
  /\ Manager.warnings w0
     = (rev (ConfigFiles.written (Manager.configured w)) ++ Manager.warnings w)%list
  /\ Manager.initialize w0 = (Normal tt, w0).
Proof.
  intros Hi Ho w0.
  assert (fst (Manager.initialize w) = Throw e) as Ht
    by (apply initialize_throws; split; assumption).
  destruct (initialize_frame w) as ((_ & Hflag & _) & _ & Hf & Hwarn).
  destruct (initialize_thrown w e Ht) as (Hc & Hp).
  unfold Spec.pendingWarnings in Hwarn. rewrite Hi in Hwarn.
  split; [|split].
  - intros key.
    split; [exact (getSecretSync_throws key w e Ht)|].
    split; [exact (getPublicSync_throws key w e Ht)|].
    split; [|split; [exact (loadSecret_throws key w e Ht) | exact (secrets_throws key w e Ht)]].
    unfold Manager.loadSecretSync, Manager.bindM. unfold w0.
    destruct (Manager.initialize w) as [[[]|e'] w']; cbn [fst snd] in *; congruence.
  - intros key rest. exact (preloadAllSecrets_throws key rest w e Ht).
  - repeat split; try assumption. apply initialize_again.
Qed.

(** A use of X22: the process whose [.secrets] file does not decrypt.
    The first access throws; the second reads the environment. *)
Lemma config_error_witness :
  fst (Proxy.secrets "API_KEY" Examples.locked) = Throw DecryptionFailed
  /\ Manager.warnings (snd (Proxy.secrets "API_KEY" Examples.locked))
     = [".env file not found: /app/.env"]
  /\ (exists sv,
        fst (Proxy.secrets "API_KEY" (snd (Proxy.secrets "API_KEY" Examples.locked)))
        = Normal sv
        /\ SecretValue.await sv = Resolved "from-env").
Proof.
  destruct (config_error_reaches_every_caller DecryptionFailed Examples.locked
              eq_refl eq_refl) as (Hall & _ & _ & _ & _ & _ & Hwarn & _).
  destruct (Hall "API_KEY") as (_ & _ & _ & _ & Hs).
  rewrite Hs. split; [reflexivity|]. split; [exact Hwarn|].
  eexists. split; reflexivity.
Defined.

(** The process of the directory with the encrypted file is the
    sample state above. *)
Example locked_process :
  Manager.boot Project.wrongKey Project.cipherFiles Project.resolve Project.maxLength 1
    Project.lockedOptions {[ "API_KEY" := "from-env" ]}
  = Some Examples.locked.
Proof. reflexivity. Qed.

(** ** Key normalisation, further *)

Section IdempotenceFacts.

Import Providers.
Import Laws.

Ltac every_char c := destruct c as [[] [] [] [] [] [] [] []]; vm_compute; congruence.

Lemma allString_last (q : ascii -> bool) (s : string) (d : ascii) :
  JS.allString q s = true -> lastChar s = Some d -> q d = true.
Proof.
  induction s as [|c s IH]; [discriminate|].
  intros H Hd. simpl in H. apply andb_true_iff in H as [Hc Hs].
  destruct s as [|e r]; [simpl in Hd; injection Hd as <-; exact Hc|].
  rewrite lastChar_cons in Hd. exact (IH Hs Hd).
Qed.

Lemma allString_and (p q : ascii -> bool) (s : string) :
  JS.allString p s = true -> JS.allString q s = true ->
  JS.allString (fun c => p c && q c) s = true.
Proof.
  induction s as [|c s IH]; simpl; [reflexivity|].
  intros H1 H2. apply andb_true_iff in H1 as [-> H1]. apply andb_true_iff in H2 as [-> H2].
  exact (IH H1 H2).
Qed.

Lemma allString_filter_keeps (p q : ascii -> bool) (s : string) :
  JS.allString q s = true -> JS.allString q (JS.filterString p s) = true.
Proof.
  induction s as [|c s IH]; simpl; [reflexivity|].
  intros H. apply andb_true_iff in H as [Hc Hs].
  destruct (p c); simpl; [rewrite Hc|]; exact (IH Hs).
Qed.

Lemma allString_mapped (q : ascii -> bool) (f : ascii -> ascii) (s : string) :
  (forall c, q (f c) = true) -> JS.allString q (JS.mapString f s) = true.
Proof.
  intros H. induction s as [|c s IH]; simpl; [reflexivity | rewrite H; exact IH].
Qed.

(** Where nothing is to be dropped, replaced or cut, the string stays. *)
Lemma dropWhileStart_id (p : ascii -> bool) (s : string) :
  startsIn p s = false -> JS.dropWhileStart p s = s.
Proof. destruct s as [|c r]; simpl; [reflexivity | intros ->; reflexivity]. Qed.

Lemma dropWhileEnd_id (p : ascii -> bool) (s : string) :
  endsIn p s = false -> JS.dropWhileEnd p s = s.
Proof.
  induction s as [|c s IH]; [reflexivity|].
  destruct s as [|e r].
  - unfold endsIn. simpl. intros ->. reflexivity.
  - unfold endsIn. rewrite lastChar_cons. intros H.
    change (JS.dropWhileEnd p (String c (String e r)))
      with (match JS.dropWhileEnd p (String e r) with
            | EmptyString => if p c then EmptyString else String c EmptyString
            | r' => String c r'
            end).
    rewrite (IH H). reflexivity.
Qed.

Lemma stripEnds_id (p : ascii -> bool) (s : string) :
  startsIn p s = false -> endsIn p s = false -> stripEnds p s = s.
Proof.
  intros H1 H2. unfold stripEnds. rewrite (dropWhileStart_id p s H1).
  exact (dropWhileEnd_id p s H2).
Qed.

Lemma class_edges (p q : ascii -> bool) (s : string) :
  (forall c, q c = true -> p c = false) ->
  JS.allString q s = true -> startsIn p s = false /\ endsIn p s = false.
Proof.
  intros Hqp Hall. split.
  - destruct s as [|c r]; [reflexivity|]. simpl in *.
    apply andb_true_iff in Hall as [Hc _]. exact (Hqp c Hc).
  - unfold endsIn. destruct (lastChar s) as [d|] eqn:Hd; [|reflexivity].
    exact (Hqp d (allString_last q s d Hall Hd)).
Qed.

Lemma stripEnds_edges (p : ascii -> bool) (s : string) :
  startsIn p (stripEnds p s) = false /\ endsIn p (stripEnds p s) = false.
Proof.
  destruct (stripEnds p s) as [|c r] eqn:E; [split; reflexivity|].
  destruct (stripEnds_ends p s c r E) as (Hc & Hlast). split; [exact Hc|].
  unfold endsIn. destruct (lastChar (String c r)) as [d|]; [|reflexivity].
  exact (Hlast d eq_refl).
Qed.

Lemma stripEnds_idempotent (p : ascii -> bool) (s : string) :
  stripEnds p (stripEnds p s) = stripEnds p s.
Proof. destruct (stripEnds_edges p s) as (H1 & H2). exact (stripEnds_id p _ H1 H2). Qed.

Lemma filterString_id (p : ascii -> bool) (s : string) :
  JS.allString p s = true -> JS.filterString p s = s.
Proof.
  induction s as [|c s IH]; simpl; [reflexivity|].
  intros H. apply andb_true_iff in H as [-> Hs]. rewrite (IH Hs). reflexivity.
Qed.

Lemma mapString_id (q : ascii -> bool) (f : ascii -> ascii) (s : string) :
  (forall c, q c = true -> f c = c) ->
  JS.allString q s = true -> JS.mapString f s = s.
Proof.
  intros Hf. induction s as [|c s IH]; simpl; [reflexivity|].
  intros H. apply andb_true_iff in H as [Hc Hs]. rewrite (Hf c Hc), (IH Hs). reflexivity.
Qed.

Lemma slice0_id (n : nat) (s : string) :
  (String.length s <= n)%nat -> JS.slice0 n s = s.
Proof.
  revert s. induction n as [|n IH]; intros [|c s]; simpl; try reflexivity; [lia|].
  intros H. rewrite (IH s) by lia. reflexivity.
Qed.

(** Trimming commutes with a mapping that keeps white space apart. *)
Lemma dropWhileStart_map (p : ascii -> bool) (f : ascii -> ascii) (s : string) :
  (forall c, p (f c) = p c) ->
  JS.dropWhileStart p (JS.mapString f s) = JS.mapString f (JS.dropWhileStart p s).
Proof.
  intros Hf. induction s as [|c s IH]; simpl; [reflexivity|].
  rewrite Hf. destruct (p c); [exact IH | reflexivity].
Qed.

Lemma dropWhileEnd_map (p : ascii -> bool) (f : ascii -> ascii) (s : string) :
  (forall c, p (f c) = p c) ->
  JS.dropWhileEnd p (JS.mapString f s) = JS.mapString f (JS.dropWhileEnd p s).
Proof.
  intros Hf. induction s as [|c s IH]; simpl; [reflexivity|].
  rewrite IH, Hf. destruct (JS.dropWhileEnd p s); simpl; [destruct (p c)|]; reflexivity.
Qed.

Lemma upperChar_space (c : ascii) : JS.isSpace (JS.upperChar c) = JS.isSpace c.
Proof. every_char c. Qed.

Lemma upperChar_idempotent (c : ascii) : JS.upperChar (JS.upperChar c) = JS.upperChar c.
Proof. every_char c. Qed.

Lemma lowerChar_not_upper (c : ascii) : negb (JS.isUpper (JS.lowerChar c)) = true.
Proof. every_char c. Qed.

Lemma gcpChar_not_space (c : ascii) : gcpChar c = true -> JS.isSpace c = false.
Proof. every_char c. Qed.

Lemma alnum_not_space (c : ascii) : JS.isAlnum c = true -> JS.isSpace c = false.
Proof. every_char c. Qed.

Lemma hashicorpChar_not_space (c : ascii) : hashicorpChar c = true -> JS.isSpace c = false.
Proof. every_char c. Qed.

Lemma awsOutput_not_space (c : ascii) : awsOutput c = true -> JS.isSpace c = false.
Proof. every_char c. Qed.

Lemma awsOutput_lower (c : ascii) : awsOutput c = true -> JS.lowerChar c = c.
Proof. every_char c. Qed.

Lemma awsOutput_awsChar (c : ascii) : awsOutput c = true -> awsChar c = true.
Proof. every_char c. Qed.

Lemma awsOutput_replace (c : ascii) :
  awsOutput c = true -> (if isChar "-" c then underscore else c) = c.
Proof. every_char c. Qed.

Lemma awsOutput_made (c : ascii) :
  awsChar c && negb (JS.isUpper c) = true ->
  awsOutput (if isChar "-" c then underscore else c) = true.
Proof. every_char c. Qed.

Lemma lowerDigitHyphen_not_space (c : ascii) :
  lowerDigitHyphen c = true -> JS.isSpace c = false.
Proof. every_char c. Qed.

Lemma lowerDigitHyphen_lower (c : ascii) : lowerDigitHyphen c = true -> JS.lowerChar c = c.
Proof. every_char c. Qed.

Lemma lowerDigitHyphen_not_underscore (c : ascii) :
  lowerDigitHyphen c = true -> negb (spaceOrUnderscore c) = true.
Proof. every_char c. Qed.

Lemma ibmLowerChar_not_space (c : ascii) : ibmLowerChar c = true -> JS.isSpace c = false.
Proof. every_char c. Qed.

Lemma ibmLowerChar_lower (c : ascii) : ibmLowerChar c = true -> JS.lowerChar c = c.
Proof. every_char c. Qed.

Lemma hashicorpLowerChar_not_space (c : ascii) :
  hashicorpLowerChar c = true -> JS.isSpace c = false.
Proof. every_char c. Qed.

Lemma hashicorpLowerChar_lower (c : ascii) :
  hashicorpLowerChar c = true -> JS.lowerChar c = c.
Proof. every_char c. Qed.

Lemma hyphen_only (c : ascii) : isChar "-" c = true -> c = hyphen.
Proof. every_char c. Qed.

(** A string of a class that holds no white space is trimmed. *)
Lemma trim_class (q : ascii -> bool) (s : string) :
  (forall c, q c = true -> JS.isSpace c = false) ->
  JS.allString q s = true -> JS.trim s = s.
Proof.
  intros Hq Hall. destruct (class_edges JS.isSpace q s Hq Hall) as (H1 & H2).
  exact (stripEnds_id JS.isSpace s H1 H2).
Qed.

Lemma trim_idempotent (s : string) : JS.trim (JS.trim s) = JS.trim s.
Proof. exact (stripEnds_idempotent JS.isSpace s). Qed.

(** Runs of the class: after their replacement no two neighbours are
    of the class, and a string without such neighbours is left as it is
    when the class is the replacing character alone. *)
Lemma replaceRunsFrom_noAdjacent (class : ascii -> bool) (by_ : ascii) (inRun : bool)
    (s : string) :
  class by_ = true ->
  noAdjacent class inRun (replaceRunsFrom class by_ inRun s) = true.
Proof.
  intros Hby. revert inRun. induction s as [|c s IH]; intros inRun; simpl; [reflexivity|].
  destruct (class c) eqn:Hc.
  - destruct inRun; [exact (IH true)|]. simpl. rewrite Hby. simpl. exact (IH true).
  - simpl. rewrite Hc. exact (IH false).
Qed.

Lemma noAdjacent_weaken (class : ascii -> bool) (prev : bool) (s : string) :
  noAdjacent class prev s = true -> noAdjacent class false s = true.
Proof.
  destruct s as [|c r]; simpl; [reflexivity|].
  destruct (class c); [|exact id].
  intros H. apply andb_true_iff in H as [_ H]. exact H.
Qed.

Lemma noAdjacent_dropWhileStart (class : ascii -> bool) (prev : bool) (s : string) :
  noAdjacent class prev s = true ->
  noAdjacent class false (JS.dropWhileStart class s) = true.
Proof.
  revert prev. induction s as [|c s IH]; intros prev; simpl; [reflexivity|].
  destruct (class c) eqn:Hc.
  - intros H. apply andb_true_iff in H as [_ H]. exact (IH true H).
  - intros H. simpl. rewrite Hc. exact H.
Qed.

Lemma noAdjacent_dropWhileEnd (class : ascii -> bool) (prev : bool) (s : string) :
  noAdjacent class prev s = true ->
  noAdjacent class prev (JS.dropWhileEnd class s) = true.
Proof.
  revert prev. induction s as [|c s IH]; intros prev; simpl; [reflexivity|].
  destruct (class c) eqn:Hc.
  - intros H. apply andb_true_iff in H as [Hp H]. specialize (IH true H).
    destruct (JS.dropWhileEnd class s) as [|e r]; [reflexivity|].
    change (noAdjacent class prev (String c (String e r)))
      with (if class c then negb prev && noAdjacent class true (String e r)
            else noAdjacent class false (String e r)).
    rewrite Hc, Hp. exact IH.
  - intros H. specialize (IH false H).
    destruct (JS.dropWhileEnd class s) as [|e r].
    + simpl. rewrite Hc. reflexivity.
    + change (noAdjacent class prev (String c (String e r)))
        with (if class c then negb prev && noAdjacent class true (String e r)
              else noAdjacent class false (String e r)).
      rewrite Hc. exact IH.
Qed.

Lemma replaceRunsFrom_id (class : ascii -> bool) (by_ : ascii) (prev : bool) (s : string) :
  (forall c, class c = true -> c = by_) ->
  noAdjacent class prev s = true -> replaceRunsFrom class by_ prev s = s.
Proof.
  intros Hby. revert prev. induction s as [|c s IH]; intros prev; simpl; [reflexivity|].
  destruct (class c) eqn:Hc.
  - intros H. apply andb_true_iff in H as [Hp H]. apply negb_true_iff in Hp. subst prev.
    rewrite (IH true H), <- (Hby c Hc). reflexivity.
  - intros H. rewrite (IH false H). reflexivity.
Qed.

Lemma replaceRunsFrom_absent (class : ascii -> bool) (by_ : ascii) (prev : bool)
    (s : string) :
  JS.allString (fun c => negb (class c)) s = true ->
  replaceRunsFrom class by_ prev s = s.
Proof.
  revert prev. induction s as [|c s IH]; intros prev; simpl; [reflexivity|].
  intros H. apply andb_true_iff in H as [Hc Hs]. apply negb_true_iff in Hc.
  rewrite Hc, (IH false Hs). reflexivity.
Qed.

(** What [kebab] returns: characters of its class, no hyphen at an end,
    no two hyphens in a row. *)
Lemma kebab_shape (base : string) :
  JS.allString lowerDigitHyphen (kebab base) = true
  /\ startsIn (isChar "-") (kebab base) = false
  /\ endsIn (isChar "-") (kebab base) = false
  /\ noAdjacent (isChar "-") false (kebab base) = true.
Proof.
  split; [exact (kebab_class base)|].
  unfold kebab. destruct (stripEnds_edges (isChar "-")
    (replaceRuns (isChar "-") hyphen
       (keepOnly lowerDigitHyphen
          (replaceRuns spaceOrUnderscore hyphen (JS.toLowerCase base))))) as (H1 & H2).
  split; [exact H1|]. split; [exact H2|].
  unfold stripEnds. apply noAdjacent_dropWhileEnd.
  apply (noAdjacent_dropWhileStart _ false).
  exact (replaceRunsFrom_noAdjacent (isChar "-") hyphen false _ eq_refl).
Qed.

Lemma kebab_idempotent (base : string) : kebab (JS.trim (kebab base)) = kebab base.
Proof.
  destruct (kebab_shape base) as (Hclass & Hstart & Hend & Hadj).
  rewrite (trim_class lowerDigitHyphen _ lowerDigitHyphen_not_space Hclass).
  unfold kebab at 1. unfold JS.toLowerCase.
  rewrite (mapString_id lowerDigitHyphen _ _ lowerDigitHyphen_lower Hclass).
  unfold replaceRuns.
  rewrite (replaceRunsFrom_absent spaceOrUnderscore hyphen false (kebab base))
    by exact (allString_impl _ _ _ lowerDigitHyphen_not_underscore Hclass).
  unfold keepOnly. rewrite (filterString_id _ _ Hclass).
  rewrite (replaceRunsFrom_id (isChar "-") hyphen false _ hyphen_only Hadj).
  exact (stripEnds_id _ _ Hstart Hend).
Qed.

Lemma aws_output_class (key : string) :
  JS.allString awsOutput (normalizeSecretName aws key) = true.
Proof.
  unfold normalizeSecretName, replaceChar, keepOnly.
  apply (allString_map (fun c => awsChar c && negb (JS.isUpper c)));
    [exact awsOutput_made|].
  apply allString_and; [apply allString_filter|].
  apply allString_filter_keeps. apply allString_mapped. exact lowerChar_not_upper.
Qed.

(** The upper case of a character: one character, or [SS]. *)
Lemma upperString_space (c : ascii) :
  JS.isSpace c = true -> JS.upperString c = String c EmptyString.
Proof. every_char c. Qed.

Lemma upperString_head (c : ascii) :
  JS.isSpace c = false ->
  exists d r, JS.upperString c = String d r /\ JS.isSpace d = false.
Proof.
  intros H. unfold JS.upperString. destruct (Ascii.eqb c JS.sharpS).
  - eexists. eexists. split; reflexivity.
  - eexists. eexists. split; [reflexivity|]. rewrite upperChar_space. exact H.
Qed.

Lemma upperString_kept (c : ascii) :
  JS.isSpace c = false -> JS.dropWhileEnd JS.isSpace (JS.upperString c) = JS.upperString c.
Proof. every_char c. Qed.

Lemma upperString_idempotent (c : ascii) :
  JS.toUpperCase (JS.upperString c) = JS.upperString c.
Proof. destruct c as [[] [] [] [] [] [] [] []]; vm_compute; reflexivity. Qed.

Lemma toUpperCase_app (a b : string) :
  JS.toUpperCase (a ++ b) = JS.toUpperCase a ++ JS.toUpperCase b.
Proof.
  induction a as [|c a IH]; [reflexivity|].
  change (JS.upperString c ++ JS.toUpperCase (a ++ b)
          = (JS.upperString c ++ JS.toUpperCase a) ++ JS.toUpperCase b).
  rewrite IH, append_assoc. reflexivity.
Qed.

Lemma dropWhileEnd_app (p : ascii -> bool) (a b : string) :
  JS.dropWhileEnd p (a ++ b)
  = match JS.dropWhileEnd p b with
    | EmptyString => JS.dropWhileEnd p a
    | String x y => a ++ String x y
    end.
Proof.
  induction a as [|c a IH].
  - change (EmptyString ++ b) with b. destruct (JS.dropWhileEnd p b); reflexivity.
  - change (String c a ++ b) with (String c (a ++ b)).
    cbn [JS.dropWhileEnd]. rewrite IH.
    destruct (JS.dropWhileEnd p b) as [|x y]; [reflexivity|].
    destruct a; reflexivity.
Qed.

Lemma dropWhileStart_toUpperCase (s : string) :
  JS.dropWhileStart JS.isSpace (JS.toUpperCase s)
  = JS.toUpperCase (JS.dropWhileStart JS.isSpace s).
Proof.
  induction s as [|c s IH]; [reflexivity|].
  cbn [JS.toUpperCase JS.dropWhileStart].
  destruct (JS.isSpace c) eqn:E.
  - rewrite (upperString_space c E).
    change (String c EmptyString ++ JS.toUpperCase s) with (String c (JS.toUpperCase s)).
    cbn [JS.dropWhileStart]. rewrite E. exact IH.
  - destruct (upperString_head c E) as (d & r & Hu & Hd).
    cbn [JS.toUpperCase]. rewrite Hu.
    change (String d r ++ JS.toUpperCase s) with (String d (r ++ JS.toUpperCase s)).
    cbn [JS.dropWhileStart]. rewrite Hd. reflexivity.
Qed.

Lemma dropWhileEnd_toUpperCase (s : string) :
  JS.dropWhileEnd JS.isSpace (JS.toUpperCase s)
  = JS.toUpperCase (JS.dropWhileEnd JS.isSpace s).
Proof.
  induction s as [|c s IH]; [reflexivity|].
  cbn [JS.toUpperCase JS.dropWhileEnd]. rewrite dropWhileEnd_app, IH.
  destruct (JS.dropWhileEnd JS.isSpace s) as [|x y].
  - cbn [JS.toUpperCase]. destruct (JS.isSpace c) eqn:E.
    + rewrite (upperString_space c E). cbn [JS.dropWhileEnd]. rewrite E. reflexivity.
    + rewrite (upperString_kept c E). cbn [JS.toUpperCase].
      rewrite append_empty_r. reflexivity.
  - cbn [JS.toUpperCase].
    assert (exists d r, JS.upperString x = String d r) as (d & r & Hx)
      by (unfold JS.upperString; destruct (Ascii.eqb x JS.sharpS); eauto).
    rewrite Hx.
    change (String d r ++ JS.toUpperCase y) with (String d (r ++ JS.toUpperCase y)).
    reflexivity.
Qed.

Lemma trim_toUpperCase (s : string) :
  JS.trim (JS.toUpperCase s) = JS.toUpperCase (JS.trim s).
Proof.
  unfold JS.trim. rewrite dropWhileStart_toUpperCase. apply dropWhileEnd_toUpperCase.
Qed.

Lemma toUpperCase_idempotent (s : string) :
  JS.toUpperCase (JS.toUpperCase s) = JS.toUpperCase s.
Proof.
  induction s as [|c s IH]; [reflexivity|].
  cbn [JS.toUpperCase]. rewrite toUpperCase_app, upperString_idempotent, IH.
  reflexivity.
Qed.

Lemma normalize_idempotent (provider : Provider) (key : string) :
  provider <> doppler ->
  normalizeSecretName provider (normalizeSecretName provider key)
  = normalizeSecretName provider key.
Proof.
  intros Hnot. destruct provider; try contradiction.
  - exact (kebab_idempotent (JS.trim key)).
  - exact (kebab_idempotent (JS.trim key)).
  - pose proof (aws_output_class key) as Hclass.
    set (r := normalizeSecretName aws key) in *.
    unfold normalizeSecretName at 1.
    rewrite (trim_class awsOutput r awsOutput_not_space Hclass).
    unfold JS.toLowerCase. rewrite (mapString_id awsOutput _ r awsOutput_lower Hclass).
    unfold keepOnly.
    rewrite (filterString_id awsChar r (allString_impl _ _ _ awsOutput_awsChar Hclass)).
    exact (mapString_id awsOutput _ r awsOutput_replace Hclass).
  - assert (JS.allString gcpChar (normalizeSecretName gcp key) = true) as Hclass
      by (unfold normalizeSecretName; apply allString_slice0, allString_filter).
    pose proof (length_slice0 255 (keepOnly gcpChar (JS.trim key))) as Hlen.
    change (JS.slice0 255 (keepOnly gcpChar (JS.trim key)))
      with (normalizeSecretName gcp key) in Hlen.
    set (r := normalizeSecretName gcp key) in *.
    unfold normalizeSecretName at 1.
    rewrite (trim_class gcpChar r gcpChar_not_space Hclass).
    unfold keepOnly. rewrite (filterString_id gcpChar r Hclass).
    exact (slice0_id 255 r Hlen).
  - assert (JS.allString ibmLowerChar (normalizeSecretName ibm key) = true) as Hclass.
    { unfold normalizeSecretName, stripEnds, keepOnly.
      apply allString_dropWhileEnd, allString_dropWhileStart, allString_filter. }
    destruct (stripEnds_edges ibmEdge (keepOnly ibmLowerChar (JS.toLowerCase (JS.trim key))))
      as (H1 & H2).
    change (stripEnds ibmEdge (keepOnly ibmLowerChar (JS.toLowerCase (JS.trim key))))
      with (normalizeSecretName ibm key) in H1, H2.
    set (r := normalizeSecretName ibm key) in *.
    unfold normalizeSecretName at 1.
    rewrite (trim_class ibmLowerChar r ibmLowerChar_not_space Hclass).
    unfold JS.toLowerCase. rewrite (mapString_id ibmLowerChar _ r ibmLowerChar_lower Hclass).
    unfold keepOnly. rewrite (filterString_id ibmLowerChar r Hclass).
    exact (stripEnds_id ibmEdge r H1 H2).
  - assert (JS.allString JS.isAlnum (normalizeSecretName cyberark key) = true) as Hclass
      by (unfold normalizeSecretName; apply allString_slice0, allString_filter).
    pose proof (length_slice0 28 (keepOnly JS.isAlnum (JS.trim key))) as Hlen.
    change (JS.slice0 28 (keepOnly JS.isAlnum (JS.trim key)))
      with (normalizeSecretName cyberark key) in Hlen.
    set (r := normalizeSecretName cyberark key) in *.
    unfold normalizeSecretName at 1.
    rewrite (trim_class JS.isAlnum r alnum_not_space Hclass).
    unfold keepOnly. rewrite (filterString_id JS.isAlnum r Hclass).
    exact (slice0_id 28 r Hlen).
  - assert (JS.allString hashicorpChar (normalizeSecretName akeyless key) = true) as Hclass
      by (unfold normalizeSecretName; apply allString_filter).
    set (r := normalizeSecretName akeyless key) in *.
    unfold normalizeSecretName at 1.
    rewrite (trim_class hashicorpChar r hashicorpChar_not_space Hclass).
    unfold keepOnly. exact (filterString_id hashicorpChar r Hclass).
  - assert (JS.allString hashicorpLowerChar (normalizeSecretName hashicorp key) = true)
      as Hclass.
    { unfold normalizeSecretName, stripEnds, keepOnly.
      apply allString_dropWhileEnd, allString_dropWhileStart, allString_filter. }
    destruct (stripEnds_edges hashicorpEdge
                (keepOnly hashicorpLowerChar (JS.toLowerCase (JS.trim key)))) as (H1 & H2).
    change (stripEnds hashicorpEdge
              (keepOnly hashicorpLowerChar (JS.toLowerCase (JS.trim key))))
      with (normalizeSecretName hashicorp key) in H1, H2.
    set (r := normalizeSecretName hashicorp key) in *.
    unfold normalizeSecretName at 1.
    rewrite (trim_class hashicorpLowerChar r hashicorpLowerChar_not_space Hclass).
    unfold JS.toLowerCase.
    rewrite (mapString_id hashicorpLowerChar _ r hashicorpLowerChar_lower Hclass).
    unfold keepOnly. rewrite (filterString_id hashicorpLowerChar r Hclass).
    exact (stripEnds_id hashicorpEdge r H1 H2).
  - exact (trim_idempotent key).
  - exact (trim_idempotent key).
  - change (JS.toUpperCase (JS.trim (JS.toUpperCase (JS.trim key)))
            = JS.toUpperCase (JS.trim key)).
    rewrite trim_toUpperCase, trim_idempotent. exact (toUpperCase_idempotent _).
Qed.

End IdempotenceFacts.

Section LengthFacts.

Import Providers.

Lemma length_dropWhileStart (p : ascii -> bool) (s : string) :
  (String.length (JS.dropWhileStart p s) <= String.length s)%nat.
Proof.
  induction s as [|c s IH]; simpl; [lia|]. destruct (p c); simpl; lia.
Qed.

Lemma length_dropWhileEnd (p : ascii -> bool) (s : string) :
  (String.length (JS.dropWhileEnd p s) <= String.length s)%nat.
Proof.
  induction s as [|c s IH]; simpl; [lia|].
  destruct (JS.dropWhileEnd p s); [destruct (p c)|]; simpl in *; lia.
Qed.

Lemma length_filterString (p : ascii -> bool) (s : string) :
  (String.length (JS.filterString p s) <= String.length s)%nat.
Proof.
  induction s as [|c s IH]; simpl; [lia|]. destruct (p c); simpl; lia.
Qed.

Lemma length_mapString (f : ascii -> ascii) (s : string) :
  String.length (JS.mapString f s) = String.length s.
Proof. induction s as [|c s IH]; simpl; [reflexivity | rewrite IH; reflexivity]. Qed.

Lemma length_replaceRunsFrom (class : ascii -> bool) (by_ : ascii) (inRun : bool)
    (s : string) :
  (String.length (replaceRunsFrom class by_ inRun s) <= String.length s)%nat.
Proof.
  revert inRun. induction s as [|c s IH]; intros inRun; simpl; [lia|].
  destruct (class c); [destruct inRun|]; simpl;
    [specialize (IH true) | specialize (IH true) | specialize (IH false)]; lia.
Qed.

Lemma length_dropLastIf (p : ascii -> bool) (s : string) :
  (String.length (dropLastIf p s) <= String.length s)%nat.
Proof.
  induction s as [|c s IH]; [simpl; lia|].
  destruct s as [|d r]; [simpl; destruct (p c); simpl; lia|].
  change (dropLastIf p (String c (String d r)))
    with (String c (dropLastIf p (String d r))).
  simpl String.length in *. lia.
Qed.

Lemma length_slice0_le (n : nat) (s : string) :
  (String.length (JS.slice0 n s) <= String.length s)%nat.
Proof.
  revert s. induction n as [|n IH]; intros [|c s]; simpl; try lia.
  specialize (IH s). lia.
Qed.

Lemma length_stripEnds (p : ascii -> bool) (s : string) :
  (String.length (stripEnds p s) <= String.length s)%nat.
Proof.
  unfold stripEnds. pose proof (length_dropWhileEnd p (JS.dropWhileStart p s)).
  pose proof (length_dropWhileStart p s). lia.
Qed.

Lemma length_trim (s : string) : (String.length (JS.trim s) <= String.length s)%nat.
Proof. exact (length_stripEnds JS.isSpace s). Qed.

Lemma length_kebab (s : string) : (String.length (kebab s) <= String.length s)%nat.
Proof.
  unfold kebab, replaceRuns, keepOnly, JS.toLowerCase.
  pose proof (length_stripEnds (isChar "-")
    (replaceRunsFrom (isChar "-") hyphen false
       (JS.filterString lowerDigitHyphen
          (replaceRunsFrom spaceOrUnderscore hyphen false (JS.mapString JS.lowerChar s))))).
  pose proof (length_replaceRunsFrom (isChar "-") hyphen false
       (JS.filterString lowerDigitHyphen
          (replaceRunsFrom spaceOrUnderscore hyphen false (JS.mapString JS.lowerChar s)))).
  pose proof (length_filterString lowerDigitHyphen
          (replaceRunsFrom spaceOrUnderscore hyphen false (JS.mapString JS.lowerChar s))).
  pose proof (length_replaceRunsFrom spaceOrUnderscore hyphen false
                (JS.mapString JS.lowerChar s)).
  pose proof (length_mapString JS.lowerChar s). lia.
Qed.

Lemma length_dopplerStrip (s : string) :
  (String.length (dopplerStrip s) <= String.length s)%nat.
Proof.
  destruct s as [|c r]; [simpl; lia|]. unfold dopplerStrip.
  pose proof (length_dropLastIf (fun d => negb (upperDigitUnderscore d)) r).
  destruct (JS.isUpper c); simpl String.length; lia.
Qed.

Lemma length_upperString (c : ascii) :
  (String.length (JS.upperString c) <= 2)%nat
  /\ (Ascii.eqb c JS.sharpS = false -> String.length (JS.upperString c) = 1%nat).
Proof.
  unfold JS.upperString. destruct (Ascii.eqb c JS.sharpS); simpl; split; auto; discriminate.
Qed.

(** The upper case is at most twice as long, and as long as the string
    when the string holds no sharp s. *)
Lemma length_toUpperCase (s : string) :
  (String.length (JS.toUpperCase s) <= 2 * String.length s)%nat
  /\ (Spec.without JS.sharpS s = true ->
      String.length (JS.toUpperCase s) = String.length s).
Proof.
  induction s as [|c s (IH1 & IH2)]; [split; reflexivity|].
  cbn [JS.toUpperCase]. rewrite length_append.
  destruct (length_upperString c) as (H1 & H2). split.
  - simpl String.length. lia.
  - unfold Spec.without. cbn [JS.allString]. intros H.
    apply andb_true_iff in H as [Hc Hs]. apply negb_true_iff in Hc.
    rewrite (H2 Hc), (IH2 Hs). reflexivity.
Qed.

Lemma without_trim (ch : ascii) (s : string) :
  Spec.without ch s = true -> Spec.without ch (JS.trim s) = true.
Proof.
  unfold Spec.without, JS.trim. intros H.
  apply allString_dropWhileEnd, allString_dropWhileStart. exact H.
Qed.

Lemma length_upper_normalized (provider : Provider) (key : string) :
  provider = env \/ provider = doppler ->
  (String.length (normalizeSecretName provider key)
   <= String.length (JS.toUpperCase (JS.trim key)))%nat.
Proof.
  intros [-> | ->]; unfold normalizeSecretName; [lia|].
  unfold replaceOutside.
  pose proof (length_dopplerStrip
    (JS.mapString (fun c => if upperDigitUnderscore c then c else underscore)
       (JS.toUpperCase (JS.trim key)))).
  rewrite length_mapString in *. lia.
Qed.

Lemma length_normalized (provider : Provider) (key : string) :
  provider <> env -> provider <> doppler ->
  (String.length (normalizeSecretName provider key) <= String.length key)%nat.
Proof.
  intros Henv Hdoppler.
  pose proof (length_trim key) as Ht.
  destruct provider; try contradiction; unfold normalizeSecretName.
  - pose proof (length_kebab (JS.trim key)). lia.
  - pose proof (length_kebab (JS.trim key)). lia.
  - unfold replaceChar, keepOnly, JS.toLowerCase. rewrite length_mapString.
    pose proof (length_filterString awsChar (JS.mapString JS.lowerChar (JS.trim key))).
    pose proof (length_mapString JS.lowerChar (JS.trim key)). lia.
  - unfold keepOnly.
    pose proof (length_slice0_le 255 (JS.filterString gcpChar (JS.trim key))).
    pose proof (length_filterString gcpChar (JS.trim key)). lia.
  - unfold keepOnly, JS.toLowerCase.
    pose proof (length_stripEnds ibmEdge
      (JS.filterString ibmLowerChar (JS.mapString JS.lowerChar (JS.trim key)))).
    pose proof (length_filterString ibmLowerChar (JS.mapString JS.lowerChar (JS.trim key))).
    pose proof (length_mapString JS.lowerChar (JS.trim key)). lia.
  - unfold keepOnly.
    pose proof (length_slice0_le 28 (JS.filterString JS.isAlnum (JS.trim key))).
    pose proof (length_filterString JS.isAlnum (JS.trim key)). lia.
  - unfold keepOnly. pose proof (length_filterString hashicorpChar (JS.trim key)). lia.
  - unfold keepOnly, JS.toLowerCase.
    pose proof (length_stripEnds hashicorpEdge
      (JS.filterString hashicorpLowerChar (JS.mapString JS.lowerChar (JS.trim key)))).
    pose proof (length_filterString hashicorpLowerChar
                  (JS.mapString JS.lowerChar (JS.trim key))).
    pose proof (length_mapString JS.lowerChar (JS.trim key)). lia.
  - exact Ht.
  - exact Ht.
Qed.

End LengthFacts.

(** X14. For every provider but [doppler], [normalizeSecretName] is
    idempotent: the normalised form of a normalised name is that name,
    so a key that went through the normaliser once is sent to the
    provider unchanged the next time. *)
Theorem normalizeSecretName_is_idempotent (provider : Providers.Provider) (key : string) :
  provider <> Providers.doppler ->
  Providers.normalizeSecretName provider (Providers.normalizeSecretName provider key)
  = Providers.normalizeSecretName provider key.
Proof. exact (normalize_idempotent provider key). Qed.

(** A use of the theorem: for [azure], [My_API  Key] becomes
    [my-api-key], which stays. *)
Lemma normalizeSecretName_idempotent_witness :
  Providers.normalizeSecretName Providers.azure "My_API  Key" = "my-api-key"
  /\ Providers.normalizeSecretName Providers.azure "my-api-key" = "my-api-key".
Proof.
  split; [reflexivity|].
  assert (Providers.azure <> Providers.doppler) as Hnot by discriminate.
  exact (normalizeSecretName_is_idempotent Providers.azure "My_API  Key" Hnot).
Defined.

(** For [doppler] a second pass can remove more: one pass takes one
    leading character that is not a capital letter. *)
Example doppler_second_pass_differs :
  Providers.normalizeSecretName Providers.doppler "12ab" = "2AB"
  /\ Providers.normalizeSecretName Providers.doppler "2AB" = "AB".
Proof. split; reflexivity. Qed.

(** X15. For keys in the Latin-1 range and every provider but [env]
    and [doppler], [normalizeSecretName] returns a name no longer than
    the key it was given.  For these two, whose normaliser takes the upper case, the
    name is at most twice as long as the key, and no longer than the key
    when the key holds no sharp s, whose upper case is [SS].  A name for
    [gcp] has at most 255 characters and a name for [cyberark] at most
    28. *)
Theorem normalizeSecretName_never_lengthens (key : string) :
  (forall provider,
     provider <> Providers.env -> provider <> Providers.doppler ->
     (String.length (Providers.normalizeSecretName provider key) <= String.length key)%nat)
  /\ (forall provider,
        provider = Providers.env \/ provider = Providers.doppler ->
        (String.length (Providers.normalizeSecretName provider key)
         <= 2 * String.length key)%nat
        /\ (Spec.without JS.sharpS key = true ->
            (String.length (Providers.normalizeSecretName provider key)
             <= String.length key)%nat))
  /\ (String.length (Providers.normalizeSecretName Providers.gcp key) <= 255)%nat
  /\ (String.length (Providers.normalizeSecretName Providers.cyberark key) <= 28)%nat.
Proof.
  split; [intros provider; exact (length_normalized provider key)|].
  split.
  - intros provider Hp.
    pose proof (length_upper_normalized provider key Hp) as Hu.
    pose proof (length_trim key) as Ht.
    destruct (length_toUpperCase (JS.trim key)) as (H2 & Hplain).
    split; [lia|].
    intros Hs. rewrite (Hplain (without_trim _ key Hs)) in Hu. lia.
  - split; unfold Providers.normalizeSecretName; apply length_slice0.
Qed.

(** A use of the theorem: a key of the local provider without a sharp
    s keeps its length, and the sharp s alone becomes two letters. *)
Lemma normalizeSecretName_length_witness :
  Spec.without JS.sharpS " db_host " = true
  /\ (String.length (Providers.normalizeSecretName Providers.env " db_host ") <= 9)%nat
  /\ (String.length (Providers.normalizeSecretName Providers.azure "My_API  Key") <= 11)%nat
  /\ String.length (Providers.normalizeSecretName Providers.env
                      (String JS.sharpS EmptyString)) = 2%nat.
Proof.
  destruct (normalizeSecretName_never_lengthens " db_host ") as (_ & Hupper & _).
  destruct (normalizeSecretName_never_lengthens "My_API  Key") as (Hany & _).
  destruct (Hupper Providers.env (or_introl eq_refl)) as (_ & Hplain).
  split; [reflexivity|]. split; [exact (Hplain eq_refl)|].
  split; [|reflexivity].
  apply (Hany Providers.azure); discriminate.
Defined.

(** ** Variable expansion, further *)

(** X16. When [expandVariables] returns, the mapping has the keys it had,
    in the same order, and every value that held no [$] is the value it
    was: the expansion adds no key, drops none, and rewrites only values
    with a [$] in them. *)
Theorem expandVariables_keeps_keys_and_plain_values
    (maxLength fuel : nat) (vars out : Config.Record_) :
  Config.expandVariables maxLength fuel vars = Some (Normal out) ->
  Config.keys out = Config.keys vars
  /\ (forall key value, Config.get vars key = Some value ->
        Spec.without Config.dollar value = true -> Config.get out key = Some value).
Proof. exact (expandVariables_keys maxLength fuel vars out). Qed.

(** A use of the theorem: in the mapping of the documentation the host
    stays [localhost]. *)
Lemma expandVariables_keys_witness :
  Config.keys Examples.databaseExpanded = Config.keys Examples.database
  /\ Config.get Examples.databaseExpanded "DATABASE_HOST" = Some "localhost".
Proof.
  destruct (expandVariables_keeps_keys_and_plain_values Project.maxLength 2
              Examples.database Examples.databaseExpanded eq_refl) as (Hkeys & Hplain).
  split; [exact Hkeys|]. exact (Hplain "DATABASE_HOST" "localhost" eq_refl eq_refl).
Defined.

(** ** The lines of the configuration files *)

Section LineFacts.

Import Providers.
Import Laws.
Import ConfigFiles.

Lemma dropWhileStart_all (p : ascii -> bool) (pad : string) :
  JS.allString p pad = true -> JS.dropWhileStart p pad = EmptyString.
Proof.
  induction pad as [|c pad IH]; simpl; [reflexivity|].
  intros H. apply andb_true_iff in H as [-> H]. exact (IH H).
Qed.

Lemma dropWhileStart_pad (p : ascii -> bool) (pad s : string) :
  JS.allString p pad = true ->
  JS.dropWhileStart p (pad ++ s) = JS.dropWhileStart p s.
Proof.
  induction pad as [|c pad IH]; [reflexivity|].
  intros H. simpl in H. apply andb_true_iff in H as [Hc H].
  change (JS.dropWhileStart p (String c (pad ++ s)) = JS.dropWhileStart p s).
  simpl. rewrite Hc. exact (IH H).
Qed.

Lemma dropWhileEnd_all (p : ascii -> bool) (pad : string) :
  JS.allString p pad = true -> JS.dropWhileEnd p pad = EmptyString.
Proof.
  induction pad as [|c pad IH]; simpl; [reflexivity|].
  intros H. apply andb_true_iff in H as [-> H]. rewrite (IH H). reflexivity.
Qed.

Lemma dropWhileEnd_pad (p : ascii -> bool) (s pad : string) :
  JS.allString p pad = true ->
  JS.dropWhileEnd p (s ++ pad) = JS.dropWhileEnd p s.
Proof.
  intros H. induction s as [|c s IH].
  - exact (dropWhileEnd_all p pad H).
  - change (JS.dropWhileEnd p (String c (s ++ pad)) = JS.dropWhileEnd p (String c s)).
    simpl. rewrite IH. reflexivity.
Qed.

Lemma dropWhileEnd_append (p : ascii -> bool) (s rest : string) :
  s <> EmptyString -> endsIn p s = false ->
  JS.dropWhileEnd p (s ++ rest) = s ++ JS.dropWhileEnd p rest.
Proof.
  induction s as [|c s IH]; [congruence|]. intros _ Hend.
  change (JS.dropWhileEnd p (String c (s ++ rest))
          = String c (s ++ JS.dropWhileEnd p rest)).
  destruct s as [|d r].
  - unfold endsIn in Hend. simpl in Hend.
    change (JS.dropWhileEnd p (String c rest) = String c (JS.dropWhileEnd p rest)).
    simpl. rewrite Hend. destruct (JS.dropWhileEnd p rest); reflexivity.
  - unfold endsIn in Hend. rewrite lastChar_cons in Hend.
    assert (String d r <> EmptyString) as Hne by discriminate.
    specialize (IH Hne Hend).
    change (JS.dropWhileEnd p (String c (String d r ++ rest)))
      with (match JS.dropWhileEnd p (String d r ++ rest) with
            | EmptyString => if p c then EmptyString else String c EmptyString
            | r' => String c r'
            end).
    rewrite IH. reflexivity.
Qed.

Lemma lastChar_append (a s : string) :
  s <> EmptyString -> lastChar (a ++ s) = lastChar s.
Proof.
  intros Hne. induction a as [|c a IH]; [reflexivity|].
  change (lastChar (String c (a ++ s)) = lastChar s).
  destruct (a ++ s) as [|d r] eqn:E.
  - destruct a; [simpl in E; contradiction | discriminate E].
  - rewrite lastChar_cons. exact IH.
Qed.

Lemma trimmed_edges (s : string) :
  trimmed s = true -> startsIn JS.isSpace s = false /\ endsIn JS.isSpace s = false.
Proof.
  unfold trimmed. intros H. apply andb_true_iff in H as [H1 H2].
  split; apply negb_true_iff; assumption.
Qed.

(** White space around a trimmed string is what [trim] removes. *)
Lemma trim_padded (pad1 s pad2 : string) :
  trimmed s = true -> blank pad1 = true -> blank pad2 = true ->
  JS.trim (pad1 ++ s ++ pad2) = s.
Proof.
  intros Hs H1 H2. destruct (trimmed_edges s Hs) as (Hstart & Hend).
  unfold JS.trim. rewrite (dropWhileStart_pad JS.isSpace pad1 _ H1).
  destruct s as [|c r].
  - change (JS.dropWhileEnd JS.isSpace (JS.dropWhileStart JS.isSpace pad2) = EmptyString).
    rewrite (dropWhileStart_all JS.isSpace pad2 H2). reflexivity.
  - rewrite (dropWhileStart_id JS.isSpace (String c r ++ pad2))
      by (simpl in *; exact Hstart).
    rewrite (dropWhileEnd_pad JS.isSpace _ pad2 H2).
    exact (dropWhileEnd_id JS.isSpace _ Hend).
Qed.

Lemma splitAtFirst_append (sep : ascii) (pre rest : string) :
  Spec.without sep pre = true ->
  splitAtFirst sep (pre ++ String sep rest) = Some (pre, rest).
Proof.
  induction pre as [|c pre IH]; intros H.
  - simpl. rewrite Ascii.eqb_refl. reflexivity.
  - simpl in H. apply andb_true_iff in H as [Hc H]. apply negb_true_iff in Hc.
    change (splitAtFirst sep (String c (pre ++ String sep rest))
            = Some (String c pre, rest)).
    simpl. rewrite Hc, (IH H). reflexivity.
Qed.

Lemma without_append (ch : ascii) (a b : string) :
  Spec.without ch a = true -> Spec.without ch b = true ->
  Spec.without ch (a ++ b) = true.
Proof.
  unfold Spec.without. induction a as [|c a IH]; intros Ha Hb; [exact Hb|].
  simpl in Ha. apply andb_true_iff in Ha as [Hc Ha].
  change (negb (Ascii.eqb c ch)
          && JS.allString (fun c => negb (Ascii.eqb c ch)) (a ++ b) = true).
  rewrite Hc. exact (IH Ha Hb).
Qed.

Lemma space_not_equals (c : ascii) : JS.isSpace c = true -> negb (Ascii.eqb c equals) = true.
Proof. destruct c as [[] [] [] [] [] [] [] []]; vm_compute; congruence. Qed.

Lemma blank_append (a b : string) :
  blank a = true -> blank b = true -> blank (a ++ b) = true.
Proof.
  unfold blank. induction a as [|c a IH]; intros Ha Hb; [exact Hb|].
  simpl in Ha. apply andb_true_iff in Ha as [Hc Ha].
  change (JS.isSpace c && JS.allString JS.isSpace (a ++ b) = true).
  rewrite Hc. exact (IH Ha Hb).
Qed.

(** The trimmed line of a setting: the key, the white space after it,
    the sign, and the rest without the white space at its end. *)
Lemma trim_setting (pad1 key pad2 rest : string) :
  key <> EmptyString -> trimmed key = true -> blank pad1 = true ->
  JS.trim (pad1 ++ key ++ pad2 ++ String equals rest)
  = key ++ pad2 ++ String equals (JS.dropWhileEnd JS.isSpace rest).
Proof.
  intros Hne Hkey H1. destruct (trimmed_edges key Hkey) as (Hstart & _).
  unfold JS.trim. rewrite (dropWhileStart_pad JS.isSpace pad1 _ H1).
  rewrite (dropWhileStart_id JS.isSpace (key ++ pad2 ++ String equals rest))
    by (destruct key; [congruence | exact Hstart]).
  replace (key ++ pad2 ++ String equals rest)
    with ((key ++ pad2 ++ String equals EmptyString) ++ rest)
    by (rewrite !append_assoc; reflexivity).
  rewrite dropWhileEnd_append.
  - rewrite !append_assoc. reflexivity.
  - destruct key; [congruence | discriminate].
  - unfold endsIn. rewrite <- append_assoc.
    rewrite (lastChar_append (key ++ pad2) (String equals EmptyString)) by discriminate.
    reflexivity.
Qed.

Lemma parseLine_setting (pad1 key pad2 pad3 value pad4 : string) :
  key <> EmptyString -> trimmed key = true ->
  JS.startsWith key "#" = false -> Spec.without equals key = true ->
  trimmed value = true ->
  blank pad1 = true -> blank pad2 = true -> blank pad3 = true -> blank pad4 = true ->
  parseLine (pad1 ++ key ++ pad2 ++ String equals (pad3 ++ value ++ pad4))
  = Some (key, value).
Proof.
  intros Hne Hkey Hhash Hsign Hvalue H1 H2 H3 H4. unfold parseLine.
  rewrite (trim_setting pad1 key pad2 _ Hne Hkey H1).
  assert (JS.dropWhileEnd JS.isSpace (pad3 ++ value ++ pad4)
          = if JS.isEmpty value then EmptyString else pad3 ++ value) as Hrest.
  { destruct value as [|c r].
    - apply dropWhileEnd_all. exact (blank_append pad3 pad4 H3 H4).
    - change (JS.isEmpty (String c r)) with false. cbv iota.
      rewrite <- append_assoc, (dropWhileEnd_pad JS.isSpace _ pad4 H4).
      apply dropWhileEnd_id. unfold endsIn.
      rewrite (lastChar_append pad3 (String c r)) by discriminate.
      exact (proj2 (trimmed_edges _ Hvalue)). }
  rewrite Hrest.
  assert (JS.isEmpty (key ++ pad2 ++ String equals
            (if JS.isEmpty value then EmptyString else pad3 ++ value))
          || JS.startsWith (key ++ pad2 ++ String equals
               (if JS.isEmpty value then EmptyString else pad3 ++ value)) "#" = false)
    as ->.
  { destruct key as [|c r]; [congruence|].
    change (String.prefix "#" (String c r) = false) in Hhash.
    change (String.prefix "#" (String c (r ++ pad2 ++ String equals
              (if JS.isEmpty value then EmptyString else pad3 ++ value))) = false).
    cbn [String.prefix] in *.
    destruct (ascii_dec "#" c); [|reflexivity].
    destruct r; exact Hhash || discriminate Hhash || reflexivity. }
  rewrite <- append_assoc, splitAtFirst_append
    by (apply without_append; [exact Hsign|];
        exact (allString_impl _ _ _ space_not_equals H2)).
  assert (JS.trim (key ++ pad2) = key) as ->
    by exact (trim_padded EmptyString key pad2 Hkey eq_refl H2).
  destruct value as [|c r]; [reflexivity|].
  pose proof (trim_padded pad3 (String c r) EmptyString Hvalue H3 eq_refl) as E.
  rewrite append_empty_r in E.
  change (JS.isEmpty (String c r)) with false. cbv iota. rewrite E. reflexivity.
Qed.

End LineFacts.

(** X17. A line [key = value] of a configuration file, with white space
    allowed at its ends and around the sign, is read as that key and
    that value: the line is split at the first sign only, so the value
    keeps its own signs, quotes and number signs.  The key is not empty,
    holds no sign and does not start a comment. *)
Theorem parseLine_reads_key_and_value (pad1 key pad2 pad3 value pad4 : string) :
  key <> EmptyString -> Laws.trimmed key = true ->
  JS.startsWith key "#" = false -> Spec.without ConfigFiles.equals key = true ->
  Laws.trimmed value = true ->
  Laws.blank pad1 = true -> Laws.blank pad2 = true ->
  Laws.blank pad3 = true -> Laws.blank pad4 = true ->
  ConfigFiles.parseLine
    (pad1 ++ key ++ pad2 ++ String ConfigFiles.equals (pad3 ++ value ++ pad4))
  = Some (key, value).
Proof. exact (parseLine_setting pad1 key pad2 pad3 value pad4). Qed.

(** A use of the theorem: a value with a sign, a number sign and quotes
    in it. *)
Lemma parseLine_witness :
  ConfigFiles.parseLine "  URL = 'http://host/?a=1#top'  "
  = Some ("URL", "'http://host/?a=1#top'").
Proof.
  assert ("URL" <> EmptyString) as Hne by discriminate.
  exact (parseLine_reads_key_and_value "  " "URL" " " " " "'http://host/?a=1#top'" "  "
           Hne eq_refl eq_refl eq_refl eq_refl eq_refl eq_refl eq_refl eq_refl).
Defined.

(** ** The configuration files and [process.env] *)

Section LoadFacts.

Import Config.
Import ConfigFiles.
Import Laws.

Lemma get_none_keys (vars : Record_) (k : string) :
  get vars k = None -> ~ In k (keys vars).
Proof.
  induction vars as [|[k0 v0] rest IH]; simpl; [intros _ []|].
  destruct (String.eqb_spec k0 k) as [-> | Hne]; [discriminate|].
  intros H [E | Hin]; [contradiction | exact (IH H Hin)].
Qed.

Lemma in_keys_insertIndex (i : Z) (vars : Record_) (k v x : string) :
  In x (keys (insertIndex i k v vars)) <-> x = k \/ In x (keys vars).
Proof.
  induction vars as [|[k0 v0] rest IH]; simpl.
  - split; [intros [<- | []]; left; reflexivity | intros [-> | []]; left; reflexivity].
  - destruct (JS.arrayIndex k0) as [j|]; [destruct (j <? i)%Z|]; simpl.
    + rewrite IH. split; intros H; intuition.
    + split; intros H; intuition.
    + split; intros H; intuition.
Qed.

Lemma NoDup_insertIndex (i : Z) (vars : Record_) (k v : string) :
  ~ In k (keys vars) -> List.NoDup (keys vars) ->
  List.NoDup (keys (insertIndex i k v vars)).
Proof.
  induction vars as [|[k0 v0] rest IH]; simpl; intros Hk Hnd.
  - apply List.NoDup_cons; [intros [] | apply List.NoDup_nil].
  - apply List.NoDup_cons_iff in Hnd as [Hnotin Hnd].
    assert (List.NoDup (keys ((k, v) :: (k0, v0) :: rest))) as Hfront.
    { simpl. apply List.NoDup_cons; [exact Hk|]. apply List.NoDup_cons; assumption. }
    destruct (JS.arrayIndex k0) as [j|]; [destruct (j <? i)%Z|]; try exact Hfront.
    simpl. apply List.NoDup_cons.
    + rewrite in_keys_insertIndex. intros [-> | Hin]; [apply Hk; left; reflexivity | auto].
    + apply IH; [|exact Hnd]. intros Hin. apply Hk. right. exact Hin.
Qed.

Lemma NoDup_snoc (l : list string) (k : string) :
  ~ In k l -> List.NoDup l -> List.NoDup (l ++ [k])%list.
Proof.
  induction l as [|x l IH]; simpl; intros Hk Hnd.
  - apply List.NoDup_cons; [intros [] | apply List.NoDup_nil].
  - apply List.NoDup_cons_iff in Hnd as [Hx Hnd]. apply List.NoDup_cons.
    + intros Hin. apply in_app_or in Hin as [Hin | [<- | []]]; [exact (Hx Hin)|].
      apply Hk. left. reflexivity.
    + apply IH; [|exact Hnd]. intros Hin. apply Hk. right. exact Hin.
Qed.

Lemma NoDup_keys_set (vars : Record_) (k v : string) :
  List.NoDup (keys vars) -> List.NoDup (keys (set vars k v)).
Proof.
  intros Hnd. unfold set. destruct (get vars k) as [v0|] eqn:Hg.
  - rewrite keys_replace. exact Hnd.
  - destruct (String.eqb k "__proto__"); [exact Hnd|].
    pose proof (get_none_keys vars k Hg) as Hk. unfold add.
    destruct (JS.arrayIndex k) as [i|]; [exact (NoDup_insertIndex i vars k v Hk Hnd)|].
    unfold keys in *. rewrite map_app. simpl.
    exact (NoDup_snoc _ k Hk Hnd).
Qed.

Lemma spread_cons (a : Record_) (k v : string) (b : Record_) :
  spread a ((k, v) :: b) = spread (set a k v) b.
Proof. reflexivity. Qed.

Lemma get_spread_absent (a b : Record_) (k : string) :
  get b k = None -> get (spread a b) k = get a k.
Proof.
  revert a. induction b as [|[k0 v0] b IH]; intros a; [reflexivity|].
  rewrite spread_cons. cbn [get].
  destruct (String.eqb_spec k0 k) as [E | Hne]; [discriminate|].
  intros H. rewrite (IH _ H). exact (get_set_other a k0 k v0 Hne).
Qed.

Lemma get_spread_present (a b : Record_) (k v : string) :
  k <> "__proto__" ->
  List.NoDup (keys b) -> get b k = Some v -> get (spread a b) k = Some v.
Proof.
  intros Hk. revert a. induction b as [|[k0 v0] b IH]; intros a Hnd; [discriminate|].
  apply List.NoDup_cons_iff in Hnd as [Hnotin Hnd]. rewrite spread_cons. cbn [get].
  destruct (String.eqb_spec k0 k) as [-> | Hne].
  - intros H. injection H as ->.
    rewrite (get_spread_absent _ b k (get_absent b k Hnotin)).
    exact (get_set_same a k v Hk).
  - intros H. exact (IH _ Hnd H).
Qed.

Lemma plainKeys_spread (a b : Record_) : plainKeys a -> plainKeys (spread a b).
Proof.
  revert a. induction b as [|[k0 v0] b IH]; intros a Ha; [exact Ha|].
  rewrite spread_cons. exact (IH _ (plainKeys_set a k0 v0 Ha)).
Qed.

Lemma mirrored_set (vars : Record_) (processEnv : gmap string string) (k v : string) :
  mirrored vars processEnv -> mirrored (set vars k v) (<[k := v]> processEnv).
Proof.
  intros Hm key value Hne. destruct (String.eqb_spec k key) as [-> | Hk].
  - rewrite lookup_insert_eq. unfold set.
    destruct (get vars key) as [v0|] eqn:Hg.
    + rewrite (get_replace_same vars key v v0 Hg). exact id.
    + destruct (String.eqb key "__proto__"); [rewrite Hg; discriminate|].
      rewrite (get_add_same vars key v Hg). exact id.
  - rewrite (get_set_other vars k key v Hk), lookup_insert_ne by exact Hk.
    exact (Hm key value Hne).
Qed.

(** The loop over the lines. *)
Lemma loadLines_nodup (override : bool) (lines : list string) (result : Record_)
    (processEnv : gmap string string) :
  List.NoDup (keys result) ->
  List.NoDup (keys (fst (loadLines override lines result processEnv))).
Proof.
  revert result processEnv. induction lines as [|line rest IH]; intros result processEnv Hnd;
    [exact Hnd|].
  cbn [loadLines]. destruct (parseLine line) as [[key val]|]; [|exact (IH _ _ Hnd)].
  destruct (negb override && defined processEnv key); [exact (IH _ _ Hnd)|].
  apply IH. exact (NoDup_keys_set result key val Hnd).
Qed.

Lemma loadLines_plain (override : bool) (lines : list string) (result : Record_)
    (processEnv : gmap string string) :
  plainKeys result -> plainKeys (fst (loadLines override lines result processEnv)).
Proof.
  revert result processEnv. induction lines as [|line rest IH]; intros result processEnv Hp;
    [exact Hp|].
  cbn [loadLines]. destruct (parseLine line) as [[key val]|]; [|exact (IH _ _ Hp)].
  destruct (negb override && defined processEnv key); [exact (IH _ _ Hp)|].
  apply IH. exact (plainKeys_set result key val Hp).
Qed.

Lemma loadLines_mirrored (override : bool) (lines : list string) (result : Record_)
    (processEnv : gmap string string) :
  mirrored result processEnv ->
  mirrored (fst (loadLines override lines result processEnv))
           (snd (loadLines override lines result processEnv)).
Proof.
  revert result processEnv. induction lines as [|line rest IH]; intros result processEnv Hm;
    [exact Hm|].
  cbn [loadLines]. destruct (parseLine line) as [[key val]|]; [|exact (IH _ _ Hm)].
  destruct (negb override && defined processEnv key); [exact (IH _ _ Hm)|].
  apply IH. exact (mirrored_set result processEnv key val Hm).
Qed.

(** A key other than [__proto__] that the record of a file does not
    hold was not written to the environment. *)
Lemma loadLines_frame (override : bool) (lines : list string) (result : Record_)
    (processEnv : gmap string string) (k : string) :
  k <> "__proto__" ->
  get (fst (loadLines override lines result processEnv)) k = None ->
  get result k = None
  /\ snd (loadLines override lines result processEnv) !! k = processEnv !! k.
Proof.
  intros Hk. revert result processEnv.
  induction lines as [|line rest IH]; intros result processEnv;
    [intros H; split; [exact H | reflexivity]|].
  cbn [loadLines]. destruct (parseLine line) as [[key val]|]; [|exact (IH _ _)].
  destruct (negb override && defined processEnv key); [exact (IH _ _)|].
  intros H. destruct (IH _ _ H) as (Hg & He).
  destruct (String.eqb_spec key k) as [-> | Hne].
  - rewrite (get_set_same result k val Hk) in Hg. discriminate Hg.
  - rewrite (get_set_other result key k val Hne) in Hg.
    rewrite lookup_insert_ne in He by exact Hne. split; assumption.
Qed.

Lemma defined_set (processEnv : gmap string string) (k : string) :
  is_Some (processEnv !! k) -> defined processEnv k = true.
Proof.
  intros H. unfold defined. rewrite (bool_decide_eq_true_2 _ H). reflexivity.
Qed.

Lemma loadLines_skip (lines : list string) (result : Record_)
    (processEnv : gmap string string) (k : string) :
  is_Some (processEnv !! k) ->
  get (fst (loadLines false lines result processEnv)) k = get result k
  /\ snd (loadLines false lines result processEnv) !! k = processEnv !! k.
Proof.
  revert result processEnv. induction lines as [|line rest IH]; intros result processEnv Hk;
    [split; reflexivity|].
  cbn [loadLines]. destruct (parseLine line) as [[key val]|]; [|exact (IH _ _ Hk)].
  cbn [negb andb]. destruct (defined processEnv key) eqn:Hd; [exact (IH _ _ Hk)|].
  assert (key <> k) as Hne.
  { intros ->. rewrite (defined_set processEnv k Hk) in Hd. discriminate Hd. }
  destruct (IH (set result key val) (<[key := val]> processEnv)) as (Hg & He).
  { rewrite lookup_insert_ne by exact Hne. exact Hk. }
  rewrite Hg, He, (get_set_other result key k val Hne), lookup_insert_ne by exact Hne.
  split; reflexivity.
Qed.

(** One file. *)
Lemma Loads_nodup (override : bool) (processEnv processEnv' : gmap string string)
    (result : Record_) :
  Loads override processEnv result processEnv' -> List.NoDup (keys result).
Proof.
  intros (lines & E).
  pose proof (loadLines_nodup override lines [] processEnv (List.NoDup_nil _)) as H.
  rewrite E in H. exact H.
Qed.

Lemma Loads_plain (override : bool) (processEnv processEnv' : gmap string string)
    (result : Record_) :
  Loads override processEnv result processEnv' -> plainKeys result.
Proof.
  intros (lines & E).
  pose proof (loadLines_plain override lines [] processEnv eq_refl) as H.
  rewrite E in H. exact H.
Qed.

Lemma Loads_mirrored (override : bool) (processEnv processEnv' : gmap string string)
    (result : Record_) :
  Loads override processEnv result processEnv' -> mirrored result processEnv'.
Proof.
  intros (lines & E).
  assert (mirrored [] processEnv) as H0 by (intros key value _ H; discriminate H).
  pose proof (loadLines_mirrored override lines [] processEnv H0) as H.
  rewrite E in H. exact H.
Qed.

Lemma Loads_frame (override : bool) (processEnv processEnv' : gmap string string)
    (result : Record_) (k : string) :
  Loads override processEnv result processEnv' ->
  k <> "__proto__" ->
  get result k = None -> processEnv' !! k = processEnv !! k.
Proof.
  intros (lines & E) Hk Hg.
  pose proof (loadLines_frame override lines [] processEnv k Hk) as H.
  rewrite E in H. exact (proj2 (H Hg)).
Qed.

Lemma Loads_skip (processEnv processEnv' : gmap string string) (result : Record_)
    (k : string) :
  Loads false processEnv result processEnv' ->
  is_Some (processEnv !! k) ->
  get result k = None /\ processEnv' !! k = processEnv !! k.
Proof.
  intros (lines & E) Hk.
  pose proof (loadLines_skip lines [] processEnv k Hk) as H.
  rewrite E in H. exact H.
Qed.

(** Files one after the other. *)
Lemma Merged_plain (override : bool) (acc acc' : Record_)
    (processEnv processEnv' : gmap string string) :
  Merged override acc processEnv acc' processEnv' -> plainKeys acc -> plainKeys acc'.
Proof.
  induction 1 as [acc processEnv | acc result acc' processEnv processEnv1 processEnv'
                    Hload _ IH]; [exact id|].
  intros Hp. apply IH. exact (plainKeys_spread acc result Hp).
Qed.

Lemma Merged_mirrored (override : bool) (acc acc' : Record_)
    (processEnv processEnv' : gmap string string) :
  Merged override acc processEnv acc' processEnv' ->
  plainKeys acc -> mirrored acc processEnv -> mirrored acc' processEnv'.
Proof.
  induction 1 as [acc processEnv | acc result acc' processEnv processEnv1 processEnv'
                    Hload _ IH]; [intros _; exact id|].
  intros Hp Hm. apply IH; [exact (plainKeys_spread acc result Hp)|].
  intros key value Hne.
  destruct (String.eqb_spec key "__proto__") as [-> | Hkey].
  { rewrite (plainKeys_spread acc result Hp). discriminate. }
  destruct (get result key) as [v|] eqn:Hr.
  - rewrite (get_spread_present acc result key v Hkey (Loads_nodup _ _ _ _ Hload) Hr).
    intros H. injection H as <-. exact (Loads_mirrored _ _ _ _ Hload key v Hne Hr).
  - rewrite (get_spread_absent acc result key Hr).
    rewrite (Loads_frame _ _ _ _ key Hload Hkey Hr). exact (Hm key value Hne).
Qed.

Lemma Merged_kept (acc acc' : Record_) (processEnv processEnv' : gmap string string)
    (k : string) :
  Merged false acc processEnv acc' processEnv' ->
  is_Some (processEnv !! k) ->
  get acc' k = get acc k /\ processEnv' !! k = processEnv !! k.
Proof.
  induction 1 as [acc processEnv | acc result acc' processEnv processEnv1 processEnv'
                    Hload _ IH]; [split; reflexivity|].
  intros Hk. destruct (Loads_skip _ _ _ k Hload Hk) as (Hr & He).
  destruct IH as (Hg & He'); [rewrite He; exact Hk|].
  rewrite Hg, He', He, (get_spread_absent acc result k Hr). split; reflexivity.
Qed.

Variable maxLength : nat.

(** The expansion with its writes to [process.env]. *)
Lemma sweepEnv_sweep (ks : list string) (vars : Record_) (processEnv : gmap string string)
    (changed : bool) :
  fst (sweepEnv maxLength ks vars processEnv changed) = sweep maxLength ks vars changed.
Proof.
  revert vars processEnv changed.
  induction ks as [|k ks IH]; intros vars processEnv changed; [reflexivity|].
  cbn [sweepEnv sweep]. destruct (get vars k) as [v|]; [|apply IH].
  destruct (maxLength <? String.length (replaceReferences vars v))%nat; [reflexivity|].
  destruct (String.eqb (replaceReferences vars v) v); apply IH.
Qed.

Lemma sweepEnv_mirrored (ks : list string) (vars vars' : Record_)
    (processEnv processEnv' : gmap string string) (changed changed' : bool) :
  sweepEnv maxLength ks vars processEnv changed = (Normal (vars', changed'), processEnv') ->
  mirrored vars processEnv -> mirrored vars' processEnv'.
Proof.
  revert vars processEnv changed.
  induction ks as [|k ks IH]; intros vars processEnv changed.
  - intros [= <- _ <-]. exact id.
  - cbn [sweepEnv]. destruct (get vars k) as [v|]; [|exact (IH _ _ _)].
    destruct (maxLength <? String.length (replaceReferences vars v))%nat; [discriminate|].
    destruct (String.eqb (replaceReferences vars v) v); [exact (IH _ _ _)|].
    intros H Hm. exact (IH _ _ _ H (mirrored_set vars processEnv k _ Hm)).
Qed.

Lemma sweepEnv_frame (ks : list string) (vars vars' : Record_)
    (processEnv processEnv' : gmap string string) (changed changed' : bool)
    (key : string) :
  sweepEnv maxLength ks vars processEnv changed = (Normal (vars', changed'), processEnv') ->
  get vars key = None ->
  get vars' key = None /\ processEnv' !! key = processEnv !! key.
Proof.
  revert vars processEnv changed.
  induction ks as [|k ks IH]; intros vars processEnv changed.
  - intros [= <- _ <-] Hg. split; [exact Hg | reflexivity].
  - cbn [sweepEnv]. destruct (get vars k) as [v|] eqn:Hk; [|exact (IH _ _ _)].
    destruct (maxLength <? String.length (replaceReferences vars v))%nat; [discriminate|].
    destruct (String.eqb (replaceReferences vars v) v); [exact (IH _ _ _)|].
    intros H Hg.
    assert (k <> key) as Hne by (intros ->; rewrite Hg in Hk; discriminate Hk).
    destruct (IH _ _ _ H) as (H1 & H2).
    { rewrite (get_set_other vars k key _ Hne). exact Hg. }
    rewrite H2, lookup_insert_ne by exact Hne. split; [exact H1 | reflexivity].
Qed.

Lemma expandVariablesEnv_record (fuel : nat) (vars : Record_)
    (processEnv processEnv' : gmap string string) (result : Completion Record_) :
  expandVariablesEnv maxLength fuel vars processEnv = Some (result, processEnv') ->
  expandVariables maxLength fuel vars = Some result.
Proof.
  revert vars processEnv. induction fuel as [|fuel IH]; intros vars processEnv;
    [discriminate|].
  cbn [expandVariablesEnv expandVariables].
  rewrite <- (sweepEnv_sweep (keys vars) vars processEnv false).
  destruct (sweepEnv maxLength (keys vars) vars processEnv false)
    as [[[vars' changed]|e] env1]; cbn [fst].
  - destruct changed; [apply IH|]. intros [= <- _]. reflexivity.
  - intros [= <- _]. reflexivity.
Qed.

Lemma expandVariablesEnv_mirrored (fuel : nat) (vars out : Record_)
    (processEnv processEnv' : gmap string string) :
  expandVariablesEnv maxLength fuel vars processEnv = Some (Normal out, processEnv') ->
  mirrored vars processEnv -> mirrored out processEnv'.
Proof.
  revert vars processEnv. induction fuel as [|fuel IH]; intros vars processEnv;
    [discriminate|].
  cbn [expandVariablesEnv].
  destruct (sweepEnv maxLength (keys vars) vars processEnv false)
    as [[[vars' changed]|e] env1] eqn:E; [|discriminate].
  pose proof (sweepEnv_mirrored (keys vars) vars vars' processEnv env1 false changed E)
    as Hs.
  destruct changed.
  - intros H Hm. exact (IH _ _ H (Hs Hm)).
  - intros [= <- <-] Hm. exact (Hs Hm).
Qed.

Lemma expandVariablesEnv_frame (fuel : nat) (vars out : Record_)
    (processEnv processEnv' : gmap string string) (key : string) :
  expandVariablesEnv maxLength fuel vars processEnv = Some (Normal out, processEnv') ->
  get vars key = None ->
  get out key = None /\ processEnv' !! key = processEnv !! key.
Proof.
  revert vars processEnv. induction fuel as [|fuel IH]; intros vars processEnv;
    [discriminate|].
  cbn [expandVariablesEnv].
  destruct (sweepEnv maxLength (keys vars) vars processEnv false)
    as [[[vars' changed]|e] env1] eqn:E; [|discriminate].
  pose proof (sweepEnv_frame (keys vars) vars vars' processEnv env1 false changed key E)
    as Hs.
  destruct changed.
  - intros H Hg. destruct (Hs Hg) as (H1 & H2).
    destruct (IH _ _ H H1) as (H3 & H4). split; [exact H3 | congruence].
  - intros [= <- <-] Hg. exact (Hs Hg).
Qed.

Section Stages.

Variable decryptData : string -> string -> Completion string.
Variable files : string -> option string.

Lemma loadEnvFile_loads (file : option string) (override : bool)
    (processEnv processEnv' : gmap string string) (result : Record_) :
  loadEnvFile file override processEnv = (result, processEnv') ->
  Loads override processEnv result processEnv'.
Proof.
  destruct file as [raw|]; simpl; intros H.
  - exists (splitOn newline raw). exact H.
  - exists []. exact H.
Qed.

Lemma loadSecretsFile_loads (fileName : string) (override : bool) (encryptionKey : string)
    (processEnv processEnv' : gmap string string) (result : Record_) :
  loadSecretsFile decryptData files fileName override encryptionKey processEnv
  = (Normal result, processEnv') ->
  Loads override processEnv result processEnv'.
Proof.
  unfold loadSecretsFile. destruct (files fileName) as [raw|].
  - destruct (readSecrets decryptData raw encryptionKey) as [raw' | e]; [|discriminate].
    destruct (loadLines override (splitOn newline raw') [] processEnv) as [r env1] eqn:E.
    intros [= <- <-]. exists (splitOn newline raw'). exact E.
  - intros [= <- <-]. exists []. reflexivity.
Qed.

Lemma loadPublicFiles_merged (names : list string) (options : Options)
    (finalResult finalResult' : Record_) (processEnv processEnv' : gmap string string) :
  loadPublicFiles decryptData files names options finalResult processEnv
  = (Normal finalResult', processEnv') ->
  Merged (override options) finalResult processEnv finalResult' processEnv'.
Proof.
  revert finalResult processEnv.
  induction names as [|pFile rest IH]; intros finalResult processEnv.
  - simpl. intros [= <- <-]. apply merged_done.
  - cbn [loadPublicFiles]. destruct (files pFile) as [content|]; [|apply IH].
    destruct (loadSecretsFile decryptData files pFile (override options)
                (encryptionKey options) processEnv) as [[r|e] env1] eqn:E;
      [|discriminate].
    intros H. apply (merged_file _ _ r _ _ env1).
    + exact (loadSecretsFile_loads _ _ _ _ _ _ E).
    + exact (IH _ _ H).
Qed.

(** What [config] returns, stage by stage: the record of the [.env]
    file, the records of the other files merged over it, and the
    expansion. *)
Lemma config_stages (fuel : nat) (options : Options) (processEnv processEnv' : gmap string string)
    (result : Record_) :
  config decryptData files maxLength fuel options processEnv
  = Some (Normal result, processEnv') ->
  exists envBase env1 merged env5,
    loadEnvFile (files (envPath options)) (override options) processEnv = (envBase, env1)
    /\ Loads (override options) processEnv envBase env1
    /\ Merged (override options) (spread [] envBase) env1 merged env5
    /\ (if expand options
        then expandVariablesEnv maxLength fuel merged env5 = Some (Normal result, processEnv')
        else (merged, env5) = (result, processEnv')).
Proof.
  unfold config.
  destruct (loadEnvFile (files (envPath options)) (override options) processEnv)
    as [envBase env1] eqn:E1.
  destruct (if JS.isEmpty (environment options) then ([], env1)
            else loadEnvFile (files (suffixed (envPath options) options))
                   (override options) env1) as [envEnvironment env2] eqn:E2.
  destruct (loadSecretsFile decryptData files (path options) (override options)
              (encryptionKey options) env2) as [[secretsBase|e] env3] eqn:E3;
    [|discriminate].
  destruct (if JS.isEmpty (environment options) then (Normal [], env3)
            else loadSecretsFile decryptData files (suffixed (path options) options)
                   (override options) (encryptionKey options) env3)
    as [[secretsEnvironment|e] env4] eqn:E4; [|discriminate].
  destruct (loadPublicFiles decryptData files publicFiles options
              (spread (spread (spread (spread [] envBase) envEnvironment) secretsBase)
                 secretsEnvironment) env4) as [[merged|e] env5] eqn:E5; [|discriminate].
  intros H. exists envBase, env1, merged, env5.
  split; [reflexivity|]. split; [exact (loadEnvFile_loads _ _ _ _ _ E1)|]. split.
  - apply (merged_file _ _ envEnvironment _ _ env2).
    { destruct (JS.isEmpty (environment options)).
      - injection E2 as <- <-. exists []. reflexivity.
      - exact (loadEnvFile_loads _ _ _ _ _ E2). }
    apply (merged_file _ _ secretsBase _ _ env3);
      [exact (loadSecretsFile_loads _ _ _ _ _ _ E3)|].
    apply (merged_file _ _ secretsEnvironment _ _ env4).
    { destruct (JS.isEmpty (environment options)).
      - injection E4 as <- <-. exists []. reflexivity.
      - exact (loadSecretsFile_loads _ _ _ _ _ _ E4). }
    exact (loadPublicFiles_merged _ _ _ _ _ _ E5).
  - destruct (expand options); [exact H|].
    injection H as <- <-. reflexivity.
Qed.

End Stages.

End LoadFacts.

(** X18. Whatever [config] returns is in [process.env] too: every named
    key of the returned record is an environment variable with the
    returned value, also after the expansion of the references and
    whatever the option [override] says. *)
Theorem config_result_is_mirrored_in_process_env
    (decryptData : string -> string -> Completion string)
    (files : string -> option string) (maxLength fuel : nat)
    (options : ConfigFiles.Options)
    (processEnv processEnv' : gmap string string) (result : Config.Record_) :
  ConfigFiles.config decryptData files maxLength fuel options processEnv
  = Some (Normal result, processEnv') ->
  Laws.mirrored result processEnv'.
Proof.
  intros H.
  destruct (config_stages maxLength decryptData files fuel options processEnv processEnv'
              result H)
    as (envBase & env1 & merged & env5 & _ & Hload & Hmerged & Hexpand).
  assert (Laws.plainKeys (ConfigFiles.spread [] envBase)) as Hplain
    by (apply plainKeys_spread; reflexivity).
  assert (Laws.mirrored merged env5) as Hm.
  { apply (Merged_mirrored _ _ _ _ _ Hmerged Hplain). intros key value Hne.
    destruct (String.eqb_spec key "__proto__") as [-> | Hkey].
    { rewrite Hplain. discriminate. }
    destruct (Config.get envBase key) as [v|] eqn:Hb.
    - rewrite (get_spread_present [] envBase key v Hkey (Loads_nodup _ _ _ _ Hload) Hb).
      intros E. injection E as <-. exact (Loads_mirrored _ _ _ _ Hload key v Hne Hb).
    - rewrite (get_spread_absent [] envBase key Hb). discriminate. }
  destruct (ConfigFiles.expand options).
  - exact (expandVariablesEnv_mirrored maxLength fuel merged result env5 processEnv'
             Hexpand Hm).
  - injection Hexpand as <- <-. exact Hm.
Qed.

(** A use of the theorem: the expanded URL of the project is in the
    environment. *)
Lemma config_mirrored_witness :
  Config.get Project.result "URL" = Some "http://localhost/?q=1"
  /\ Project.processEnv' !! "URL" = Some "http://localhost/?q=1".
Proof.
  split; [reflexivity|].
  assert ("URL" <> EmptyString) as Hne by discriminate.
  exact (config_result_is_mirrored_in_process_env Project.decryptData Project.files
           Project.maxLength 5
           Project.options Project.processEnv Project.processEnv' Project.result
           eq_refl "URL" "http://localhost/?q=1" Hne eq_refl).
Defined.

(** X19. With the option [override] off, a variable that the environment
    of the process holds already is left as it is, and [config] does not
    return it: the lines of the files that set it are skipped, so the
    key is absent from the returned record even when a file defines
    it. *)
Theorem config_without_override_skips_existing_variables
    (decryptData : string -> string -> Completion string)
    (files : string -> option string) (maxLength fuel : nat)
    (options : ConfigFiles.Options)
    (processEnv processEnv' : gmap string string) (result : Config.Record_)
    (key : string) :
  ConfigFiles.override options = false ->
  is_Some (processEnv !! key) ->
  ConfigFiles.config decryptData files maxLength fuel options processEnv
  = Some (Normal result, processEnv') ->
  Config.get result key = None /\ processEnv' !! key = processEnv !! key.
Proof.
  intros Hoff Hk H.
  destruct (config_stages maxLength decryptData files fuel options processEnv processEnv'
              result H)
    as (envBase & env1 & merged & env5 & _ & Hload & Hmerged & Hexpand).
  rewrite Hoff in Hload, Hmerged.
  destruct (Loads_skip _ _ _ key Hload Hk) as (Hb & He).
  destruct (Merged_kept _ _ _ _ key Hmerged) as (Hg & He'); [rewrite He; exact Hk|].
  rewrite (get_spread_absent [] envBase key Hb) in Hg. simpl in Hg.
  destruct (ConfigFiles.expand options).
  - destruct (expandVariablesEnv_frame maxLength fuel merged result env5 processEnv' key
                Hexpand Hg) as (H1 & H2).
    split; [exact H1 | congruence].
  - injection Hexpand as <- <-. split; [exact Hg | congruence].
Qed.

(** A use of the theorem: the [HOME] of the process stays, though the
    [.env] file of the project sets it. *)
Lemma config_existing_variable_witness :
  Config.get Project.result "HOME" = None
  /\ Project.processEnv' !! "HOME" = Some "/root".
Proof.
  assert (is_Some (Project.processEnv !! "HOME")) as Hk by (exists "/root"; reflexivity).
  exact (config_without_override_skips_existing_variables Project.decryptData
           Project.files Project.maxLength 5 Project.options Project.processEnv
           Project.processEnv' Project.result "HOME" eq_refl Hk eq_refl).
Defined.

(** X20. With the option [override] off, the value that the [.env] file
    gave to a named key is the value that [config] returns for it,
    whatever the files read after it, the [.secrets] files and the
    public files among them, say about the key: they find the key in
    the environment and skip it.  The value holds no [$], or the
    expansion is off. *)
Theorem config_without_override_keeps_env_file_value
    (decryptData : string -> string -> Completion string)
    (files : string -> option string) (maxLength fuel : nat)
    (options : ConfigFiles.Options)
    (processEnv processEnv' : gmap string string) (result : Config.Record_)
    (key value : string) :
  ConfigFiles.override options = false ->
  key <> EmptyString ->
  Config.get (fst (ConfigFiles.loadEnvFile (files (ConfigFiles.envPath options)) false
                     processEnv)) key = Some value ->
  ConfigFiles.expand options = false \/ Spec.without Config.dollar value = true ->
  ConfigFiles.config decryptData files maxLength fuel options processEnv
  = Some (Normal result, processEnv') ->
  Config.get result key = Some value.
Proof.
  intros Hoff Hne Hfile Hplain H.
  destruct (config_stages maxLength decryptData files fuel options processEnv processEnv'
              result H)
    as (envBase & env1 & merged & env5 & Hbase & Hload & Hmerged & Hexpand).
  rewrite Hoff in Hbase, Hload, Hmerged. rewrite Hbase in Hfile. simpl in Hfile.
  pose proof (Loads_mirrored _ _ _ _ Hload key value Hne Hfile) as He.
  assert (key <> "__proto__") as Hkey.
  { intros ->. rewrite (Loads_plain _ _ _ _ Hload) in Hfile. discriminate Hfile. }
  destruct (Merged_kept _ _ _ _ key Hmerged) as (Hg & _); [rewrite He; eexists; reflexivity|].
  rewrite (get_spread_present [] envBase key value Hkey (Loads_nodup _ _ _ _ Hload) Hfile)
    in Hg.
  destruct (ConfigFiles.expand options).
  - destruct Hplain as [Hoff' | Hplain]; [discriminate Hoff'|].
    pose proof (expandVariablesEnv_record maxLength fuel merged env5 processEnv' _ Hexpand)
      as Hx.
    exact (proj2 (expandVariables_keys maxLength fuel merged result Hx) key value Hg Hplain).
  - injection Hexpand as <- <-. exact Hg.
Qed.

(** A use of the theorem: the token of the [.env] file of the project
    is returned, not the token of its [.secrets] file. *)
Lemma config_env_file_value_witness :
  Config.get Project.result "TOKEN" = Some "from-env".
Proof.
  assert ("TOKEN" <> EmptyString) as Hne by discriminate.
  exact (config_without_override_keeps_env_file_value Project.decryptData Project.files
           Project.maxLength 5
           Project.options Project.processEnv Project.processEnv' Project.result
           "TOKEN" "from-env" eq_refl Hne eq_refl (or_intror eq_refl) eq_refl).
Defined.

(** A name that every object inherits counts as set: with the option
    [override] off the line [constructor=x] is skipped, though the
    environment holds no such variable; and the line [__proto__=x] sets
    the variable and leaves the record without the key. *)
Example inherited_names_in_files :
  ConfigFiles.loadLines false ["constructor=x"] [] ∅ = ([], ∅)
  /\ ConfigFiles.loadLines true ["__proto__=x"; "A=1"] [] ∅
     = ([("A", "1")], <["A" := "1"]> (<["__proto__" := "x"]> ∅)).
Proof. split; reflexivity. Qed.

(** An object lists its keys that are array indices first, in ascending
    order, whatever the order of the lines. *)
Example index_keys_come_first :
  Config.keys (fst (ConfigFiles.loadLines true ["B=b"; "10=x"; "A=a"; "9=y"] [] ∅))
  = ["9"; "10"; "B"; "A"].
Proof. reflexivity. Qed.

(** ** The key an adapter sends *)

(** X21. [loadSecret] hands the plugin the key that [parseSecretName]
    makes of the requested one, and every adapter passes the key it is
    handed through [parseSecretName] once more.  For every provider but
    [doppler] the second pass changes nothing: the key sent to the
    provider is the key [loadSecret] computed. *)
Theorem parseSecretName_second_pass_keeps_key
    (pluginName : string) (provider : Providers.Provider) (key : string) :
  provider <> Providers.doppler ->
  fst (Plugin.parseSecretName pluginName provider
         (fst (Plugin.parseSecretName pluginName provider key)))
  = fst (Plugin.parseSecretName pluginName provider key).
Proof.
  intros Hnot. unfold Plugin.parseSecretName at 2 3.
  destruct (Providers.validateSecretName provider key) eqn:Hvalid; cbn [fst].
  - unfold Plugin.parseSecretName. rewrite Hvalid. reflexivity.
  - unfold Plugin.parseSecretName.
    destruct (Providers.validateSecretName provider
                (Providers.normalizeSecretName provider key)); cbn [fst];
      [reflexivity | exact (normalize_idempotent provider key Hnot)].
Qed.

(** A use of the theorem: the vault is asked for [api-key] when the
    application asks for [API_KEY]. *)
Lemma parseSecretName_second_pass_witness :
  fst (Plugin.parseSecretName "Azure Key Vault" Providers.azure "API_KEY") = "api-key"
  /\ fst (Plugin.parseSecretName "Azure Key Vault" Providers.azure "api-key") = "api-key".
Proof.
  split; [reflexivity|].
  assert (Providers.azure <> Providers.doppler) as Hnot by discriminate.
  exact (parseSecretName_second_pass_keeps_key "Azure Key Vault" Providers.azure
           "API_KEY" Hnot).
Defined.

(** For [doppler] the two keys can differ: of [12ab] the first pass
    makes [2AB], which is not valid either, and the second pass [AB]. *)
Example doppler_adapter_sends_another_key :
  fst (Plugin.parseSecretName "Doppler Secrets Manager" Providers.doppler "12ab") = "2AB"
  /\ fst (Plugin.parseSecretName "Doppler Secrets Manager" Providers.doppler "2AB") = "AB".
Proof. split; reflexivity. Qed.

(** ** The manager and the configuration files *)

Section BootFacts.

Import Config.
Import ConfigFiles.
Import Laws.




End BootFacts.


